(** * A verified model of [vector.h]: [RawMemory<T>] and [Vector<T>]

    The development embeds the two class templates of
    [advanced-vector/vector.h] and studies their functional behaviour,
    their capacity policy and their exception-safety guarantees.

    Modelling conventions.
    - A raw block of [n] slots is a [list (option T)] of length [n]:
      [None] is an uninitialised slot, [Some x] a slot holding a live
      object of value [x].  [nullptr] is the empty list.
    - A cursor ([iterator], [const_iterator]) is the offset of the slot it
      points to, counted from [begin()].
    - [size_t] is 64 bits wide.  Counters ([size_], [capacity_], indices)
      are natural numbers: under the representation invariant they stay
      below [2^63], where [size_ * 2] and [++size_] do not wrap around.
      The byte count [n * sizeof(T)] that [Allocate] hands to
      [operator new] is computed modulo [2^64], as in the source: the
      block obtained has room for [n] objects only if the product does
      not wrap around, while [capacity_] is [n] in either case.
    - [operator new] either throws [std::bad_alloc] or returns a block of
      the number of bytes asked for; it refuses what no implementation
      can provide, a block of more than [PTRDIFF_MAX] bytes.
    - A call returns normally ([Ret]), leaves by an exception ([Exn], with
      the state that the unwinding leaves behind), or breaks a contract
      ([Fault]: a failed [assert], or an access the language leaves
      undefined such as reading an uninitialised slot).
    - The element type is a parameter: its constructors and assignment
      operators are partial functions on values, its destructor never
      throws.  Constructor arguments are values of their own: the model
      covers the calls whose arguments are not elements of the container
      they are inserted into.  (An argument passed as [const T&] is read
      before any element is touched, so for it the restriction does not
      matter; an element passed as [T&&] is left moved-from inside the
      container, and such calls are outside the model.) *)

From stdpp Require Import base option list gmap.

Set Default Proof Using "Type*".

(** ** Exceptions and outcomes *)

Inductive exn : Type :=
| bad_alloc      (* thrown by [operator new] *)
| element_exn.   (* thrown by an operation of the element type *)

Inductive result (A E : Type) : Type :=
| Ret (a : A)               (* normal return *)
| Exn (e : exn) (s : E)     (* exception [e] propagated, leaving [s] *)
| Fault.                    (* contract violation *)

Arguments Ret {A E} a.
Arguments Exn {A E} e s.
Arguments Fault {A E}.

(** ** Sizes in bytes *)

(* The largest [size_t] and the largest [ptrdiff_t] *)
Definition SIZE_MAX : N := 2 ^ 64 - 1.

Definition PTRDIFF_MAX : N := 2 ^ 63 - 1.

(** ** The element type [T] and its traits *)

Class Element (T : Type) : Type := {
  (* [sizeof(T)]: at least one byte, and no type is larger than
     [PTRDIFF_MAX] bytes *)
  sizeof_T : positive;
  sizeof_T_max : (N.pos sizeof_T <=? PTRDIFF_MAX)%N = true;
  (* argument packs accepted by the constructors of [T] *)
  Args : Type;
  (* [T(args...)] *)
  construct : Args → option T;
  (* [T()] *)
  value_construct : option T;
  (* [T(const T&)] *)
  copy_construct : T → option T;
  (* [T(T&&)]: the new object unless it throws, and the source afterwards *)
  move_construct : T → option T * T;
  (* [dst = src]: whether it completed, and [dst] afterwards *)
  copy_assign : T → T → bool * T;
  (* [dst = std::move(src)]: whether it completed, [dst] and [src] afterwards *)
  move_assign : T → T → bool * T * T;
  (* [std::is_nothrow_move_constructible_v<T>] *)
  is_nothrow_move_constructible : bool;
  (* [std::is_copy_constructible_v<T>] *)
  is_copy_constructible : bool
}.

Global Hint Mode Element ! : typeclass_instances.

(** Copies and moves yield the value they are given, and a
    [noexcept] move constructor does not throw. *)
Class ValueSemantics (T : Type) `{!Element T} : Prop := {
  copy_construct_value (x y : T) : copy_construct x = Some y → y = x;
  move_construct_value (x y r : T) : move_construct x = (Some y, r) → y = x;
  copy_assign_value (d s d' : T) : copy_assign d s = (true, d') → d' = s;
  move_assign_value (d s d' r : T) : move_assign d s = (true, d', r) → d' = s;
  nothrow_move_constructible_sound (x : T) :
    is_nothrow_move_constructible (T:=T) = true → is_Some (move_construct x).1
}.

(** A non-throwing element type. *)
Class NoThrow (T : Type) `{!Element T} : Prop := {
  construct_nothrow (a : Args (T:=T)) : is_Some (construct a);
  value_construct_nothrow : is_Some (value_construct (T:=T));
  copy_construct_nothrow (x : T) : is_Some (copy_construct x);
  move_construct_nothrow (x : T) : is_Some (move_construct x).1;
  copy_assign_nothrow (d s : T) : (copy_assign d s).1 = true;
  move_assign_nothrow (d s : T) : (move_assign d s).1.1 = true
}.

(** [operator new(bytes)]: whether the request is satisfied.  A block of
    more than [PTRDIFF_MAX] bytes does not exist, so such a request is
    refused. *)
Class Allocator : Type := {
  operator_new : N → bool;
  operator_new_max (bytes : N) : operator_new bytes = true → (bytes ≤ PTRDIFF_MAX)%N
}.

(** What [Emplace] forwards to the constructor of [T]: an argument pack,
    [const T&] (as [PushBack(const T&)] and [Insert(pos, const T&)] do) or
    [T&&]. *)
Inductive ctor_args (T : Type) `{!Element T} : Type :=
| Pack (a : Args (T:=T))
| CopyOf (x : T)
| MoveOf (x : T).

Arguments Pack {T _} a.
Arguments CopyOf {T _} x.
Arguments MoveOf {T _} x.

Abbreviation block T := (list (option T)).

(** ** Element types and allocators used in the examples *)

(* [int]: every operation succeeds and a moved-from [int] keeps its value. *)
#[export] Instance int_element : Element Z := {|
  sizeof_T := 4;
  sizeof_T_max := eq_refl;
  Args := Z;
  construct a := Some a;
  value_construct := Some 0%Z;
  copy_construct x := Some x;
  move_construct x := (Some x, x);
  copy_assign d s := (true, s);
  move_assign d s := (true, s, s);
  is_nothrow_move_constructible := true;
  is_copy_constructible := true
|}.

(* A class with throwing operations: it cannot be constructed from [0],
   the value [13] can be neither copied nor assigned from, and a move
   leaves the value [0] behind.  Its move constructor is [noexcept]. *)
Record fragile : Type := Fragile { payload : nat }.

#[export] Instance fragile_element : Element fragile := {|
  sizeof_T := 8;
  sizeof_T_max := eq_refl;
  Args := nat;
  construct a := if bool_decide (a = 0) then None else Some (Fragile a);
  value_construct := Some (Fragile 0);
  copy_construct x := if bool_decide (payload x = 13) then None else Some x;
  move_construct x := (Some x, Fragile 0);
  copy_assign d s := if bool_decide (payload s = 13) then (false, d) else (true, s);
  move_assign d s :=
    if bool_decide (payload s = 13) then (false, d, s) else (true, s, Fragile 0);
  is_nothrow_move_constructible := true;
  is_copy_constructible := true
|}.

(* An [operator new] that satisfies every request it can, and one that
   satisfies none. *)
Definition unlimited : Allocator := {|
  operator_new bytes := (bytes <=? PTRDIFF_MAX)%N;
  operator_new_max bytes := proj1 (N.leb_le bytes PTRDIFF_MAX)
|}.

Definition exhausted : Allocator := {|
  operator_new _ := false;
  operator_new_max _ (H : false = true) := match Bool.diff_false_true H with end
|}.

Section Model.
Context {T : Type} `{!Element T} {alloc : Allocator}.

Implicit Types (b src dst : block T) (x y t : T).

(* [T(std::forward<Args>(args)...)] *)
Definition construct_from (args : ctor_args T) : option T :=
  match args with
  | Pack a => construct a
  | CopyOf x => copy_construct x
  | MoveOf x => (move_construct x).1
  end.

(** ** Algorithms of [<memory>] and [<algorithm>] on blocks *)

(* [std::destroy_n(first, n)] *)
Fixpoint destroy_n b (first n : nat) : block T :=
  match n with
  | 0 => b
  | S n' => destroy_n (<[first := None]> b) (S first) n'
  end.

(* [std::destroy(first, last)] *)
Definition destroy b (first last : nat) : block T :=
  destroy_n b first (last - first).

(* [std::destroy_at(p)] *)
Definition destroy_at b (p : nat) : block T := <[p := None]> b.

(* The loop of [std::uninitialized_value_construct_n]: [cur] runs from
   [first]; when a constructor throws, [first, cur) is destroyed and the
   exception rethrown. *)
Fixpoint uninitialized_value_construct_loop b (first cur n : nat)
  : result (block T) (block T) :=
  match n with
  | 0 => Ret b
  | S n' =>
      if bool_decide (cur < length b) then
        match value_construct (T:=T) with
        | Some x =>
            uninitialized_value_construct_loop (<[cur := Some x]> b) first (S cur) n'
        | None => Exn element_exn (destroy b first cur)
        end
      else Fault
  end.

Definition uninitialized_value_construct_n b (first n : nat) :=
  uninitialized_value_construct_loop b first first n.

(* The loop of [std::uninitialized_copy_n(first, n, d_first)], reading
   from [src] and constructing into the distinct block [dst]. *)
Fixpoint uninitialized_copy_loop src (first n : nat) dst (d_first cur : nat)
  : result (block T) (block T) :=
  match n with
  | 0 => Ret dst
  | S n' =>
      match src !! first with
      | Some (Some x) =>
          if bool_decide (cur < length dst) then
            match copy_construct x with
            | Some y =>
                uninitialized_copy_loop src (S first) n' (<[cur := Some y]> dst) d_first (S cur)
            | None => Exn element_exn (destroy dst d_first cur)
            end
          else Fault
      | _ => Fault
      end
  end.

Definition uninitialized_copy_n src (first n : nat) dst (d_first : nat) :=
  uninitialized_copy_loop src first n dst d_first d_first.

(* [std::uninitialized_copy(first, last, d_first)] *)
Definition uninitialized_copy src (first last : nat) dst (d_first : nat) :=
  if bool_decide (first ≤ last)
  then uninitialized_copy_n src first (last - first) dst d_first
  else Fault.

(* The loop of [std::uninitialized_move_n(first, n, d_first)]: the
   sources are left in their moved-from state. *)
Fixpoint uninitialized_move_loop src (first n : nat) dst (d_first cur : nat)
  : result (block T * block T) (block T * block T) :=
  match n with
  | 0 => Ret (src, dst)
  | S n' =>
      match src !! first with
      | Some (Some x) =>
          if bool_decide (cur < length dst) then
            match move_construct x with
            | (Some y, x') =>
                uninitialized_move_loop (<[first := Some x']> src) (S first) n'
                                        (<[cur := Some y]> dst) d_first (S cur)
            | (None, x') =>
                Exn element_exn (<[first := Some x']> src, destroy dst d_first cur)
            end
          else Fault
      | _ => Fault
      end
  end.

Definition uninitialized_move_n src (first n : nat) dst (d_first : nat) :=
  uninitialized_move_loop src first n dst d_first d_first.

(* [std::uninitialized_move(first, last, d_first)] *)
Definition uninitialized_move src (first last : nat) dst (d_first : nat) :=
  if bool_decide (first ≤ last)
  then uninitialized_move_n src first (last - first) dst d_first
  else Fault.

(* The loop of [std::copy(first, last, d_first)] from [src] into the
   distinct block [dst], assigning from left to right. *)
Fixpoint copy_loop src (first n : nat) dst (d : nat) : result (block T) (block T) :=
  match n with
  | 0 => Ret dst
  | S n' =>
      match src !! first, dst !! d with
      | Some (Some x), Some (Some y) =>
          match copy_assign y x with
          | (true, y') => copy_loop src (S first) n' (<[d := Some y']> dst) (S d)
          | (false, y') => Exn element_exn (<[d := Some y']> dst)
          end
      | _, _ => Fault
      end
  end.

Definition std_copy src (first last : nat) dst (d_first : nat) :=
  if bool_decide (first ≤ last)
  then copy_loop src first (last - first) dst d_first
  else Fault.

(* One move assignment between two slots [d] and [s] of a block: the
   slot at [d] is assigned from the slot at [s]. *)
Definition move_assign_slot b (d s : nat) : result (block T) (block T) :=
  match b !! d, b !! s with
  | Some (Some y), Some (Some x) =>
      match move_assign y x with
      | (true, y', x') => Ret (<[d := Some y']> (<[s := Some x']> b))
      | (false, y', x') => Exn element_exn (<[d := Some y']> (<[s := Some x']> b))
      end
  | _, _ => Fault
  end.

(* The loop of [std::move(first, last, d_first)] inside one block,
   assigning from left to right. *)
Fixpoint move_loop b (first n d : nat) : result (block T) (block T) :=
  match n with
  | 0 => Ret b
  | S n' =>
      match move_assign_slot b d first with
      | Ret b' => move_loop b' (S first) n' (S d)
      | r => r
      end
  end.

Definition std_move b (first last d_first : nat) :=
  if bool_decide (first ≤ last)
  then move_loop b first (last - first) d_first
  else Fault.

(* The loop of [std::move_backward(first, last, d_last)] inside one
   block: both cursors are decremented, then the slot at [d_last] is
   assigned from the slot at [last]. *)
Fixpoint move_backward_loop b (n last d_last : nat) : result (block T) (block T) :=
  match n with
  | 0 => Ret b
  | S n' =>
      match last, d_last with
      | S last', S d_last' =>
          match move_assign_slot b d_last' last' with
          | Ret b' => move_backward_loop b' n' last' d_last'
          | r => r
          end
      | _, _ => Fault
      end
  end.

Definition std_move_backward b (first last d_last : nat) :=
  if bool_decide (first ≤ last)
  then move_backward_loop b (last - first) last d_last
  else Fault.

(** ** [RawMemory<T>] *)

Record RawMemory : Type := mkRawMemory {
  buffer_ : block T;
  capacity_ : nat
}.

(* [RawMemory() = default] *)
Definition RawMemory_default : RawMemory :=
  {| buffer_ := []; capacity_ := 0 |}.

(* [sizeof(T)] as a number of bytes *)
Definition sizeof : N := N.pos (sizeof_T (T:=T)).

(* [n * sizeof(T)], the [size_t] product of [Allocate] *)
Definition byte_size (n : nat) : N := (N.of_nat n * sizeof) mod (SIZE_MAX + 1).

(* The number of objects of type [T] that a block of [bytes] bytes holds *)
Definition block_slots (bytes : N) : nat := N.to_nat (bytes / sizeof).

(* [operator new] satisfies the request that [Allocate(n)] makes. *)
Definition can_allocate (n : nat) : bool := operator_new (byte_size n).

(* [static T* Allocate(size_t n)]; [None] is [std::bad_alloc].  The
   block returned by [operator new(n * sizeof(T))] has the bytes of the
   product as [size_t] computes it. *)
Definition Allocate (n : nat) : option (block T) :=
  if bool_decide (n ≠ 0)
  then (if operator_new (byte_size n)
        then Some (replicate (block_slots (byte_size n)) None)
        else None)
  else Some [].

(* [explicit RawMemory(size_t capacity)] *)
Definition RawMemory_new (capacity : nat) : option RawMemory :=
  match Allocate capacity with
  | Some buf => Some {| buffer_ := buf; capacity_ := capacity |}
  | None => None
  end.

(* [void Swap(RawMemory& other)]: the pair is ([*this], [other]) *)
Definition RawMemory_Swap (this other : RawMemory) : RawMemory * RawMemory :=
  ({| buffer_ := buffer_ other; capacity_ := capacity_ other |},
   {| buffer_ := buffer_ this; capacity_ := capacity_ this |}).

(* [RawMemory(RawMemory&& other)] *)
Definition RawMemory_move (other : RawMemory) : RawMemory * RawMemory :=
  RawMemory_Swap RawMemory_default other.

(* [operator=(RawMemory&& rhs)] between two distinct objects *)
Definition RawMemory_move_assign (this rhs : RawMemory) : RawMemory * RawMemory :=
  RawMemory_Swap this rhs.

(* [T& operator[](size_t index)]: the assertion *)
Definition RawMemory_index_ok (m : RawMemory) (index : nat) : bool :=
  bool_decide (index < capacity_ m).

(* The elements of the block are written through [buffer_]; the
   pointer and [capacity_] stay. *)
Definition with_buffer (m : RawMemory) b : RawMemory :=
  {| buffer_ := b; capacity_ := capacity_ m |}.

(* [std::swap(a, b)] on [RawMemory]: [tmp(std::move(a))],
   [a = std::move(b)], [b = std::move(tmp)] *)
Definition swap_RawMemory (a b : RawMemory) : RawMemory * RawMemory :=
  let '(tmp, a1) := RawMemory_move a in
  let '(a2, b1) := RawMemory_move_assign a1 b in
  let '(b2, _) := RawMemory_move_assign b1 tmp in
  (a2, b2).

(** ** [Vector<T>] *)

Record Vector : Type := mkVector {
  data_ : RawMemory;
  size_ : nat
}.

Definition set_buffer (v : Vector) b : Vector :=
  {| data_ := with_buffer (data_ v) b; size_ := size_ v |}.

(* [Vector() = default] *)
Definition Vector_default : Vector :=
  {| data_ := RawMemory_default; size_ := 0 |}.

Definition Size (v : Vector) : nat := size_ v.

Definition Capacity (v : Vector) : nat := capacity_ (data_ v).

(* [explicit Vector(size_t size)] *)
Definition Vector_sized (size : nat) : result Vector unit :=
  match RawMemory_new size with
  | None => Exn bad_alloc ()
  | Some data =>
      match uninitialized_value_construct_n (buffer_ data) 0 size with
      | Ret b => Ret {| data_ := with_buffer data b; size_ := size |}
      | Exn e _ => Exn e ()
      | Fault => Fault
      end
  end.

(* [Vector(const Vector& other)]; when a copy throws there is no new
   object and [data_] is released. *)
Definition Vector_copy (other : Vector) : result Vector unit :=
  match RawMemory_new (size_ other) with
  | None => Exn bad_alloc ()
  | Some data =>
      match uninitialized_copy_n (buffer_ (data_ other)) 0 (size_ other) (buffer_ data) 0 with
      | Ret b => Ret {| data_ := with_buffer data b; size_ := size_ other |}
      | Exn e _ => Exn e ()
      | Fault => Fault
      end
  end.

(* [Vector(Vector&& other)]: the new object and [other] afterwards *)
Definition Vector_move (other : Vector) : Vector * Vector :=
  let '(data, other_data) := RawMemory_move (data_ other) in
  ({| data_ := data; size_ := size_ other |},
   {| data_ := other_data; size_ := 0 |}).

(* [void Swap(Vector& other)]: the pair is ([*this], [other]) *)
Definition Swap (this other : Vector) : Vector * Vector :=
  let '(d1, d2) := swap_RawMemory (data_ this) (data_ other) in
  ({| data_ := d1; size_ := size_ other |},
   {| data_ := d2; size_ := size_ this |}).

(* [void AllocateOnCapacity(const Vector& rhs)] *)
Definition AllocateOnCapacity (this rhs : Vector) : result Vector Vector :=
  match std_copy (buffer_ (data_ rhs)) 0 (size_ this `min` size_ rhs)
                 (buffer_ (data_ this)) 0 with
  | Ret b =>
      if bool_decide (size_ rhs < size_ this) then
        Ret {| data_ := with_buffer (data_ this) (destroy b (size_ rhs) (size_ this));
               size_ := size_ rhs |}
      else
        match uninitialized_copy (buffer_ (data_ rhs)) (size_ this) (size_ rhs)
                                 b (size_ this) with
        | Ret b' => Ret {| data_ := with_buffer (data_ this) b'; size_ := size_ rhs |}
        | Exn e b' => Exn e (set_buffer this b')
        | Fault => Fault
        end
  | Exn e b => Exn e (set_buffer this b)
  | Fault => Fault
  end.

(* The body of [operator=(const Vector& rhs)] under [this != &rhs] *)
Definition copy_assign_body (this rhs : Vector) : result Vector Vector :=
  if bool_decide (Capacity this < size_ rhs) then
    match Vector_copy rhs with
    | Ret rhs_copy => Ret (Swap this rhs_copy).1
    | Exn e _ => Exn e this
    | Fault => Fault
    end
  else AllocateOnCapacity this rhs.

(* [std::is_nothrow_move_constructible_v<T> || !std::is_copy_constructible_v<T>] *)
Definition relocate_by_move : bool :=
  is_nothrow_move_constructible (T:=T) || negb (is_copy_constructible (T:=T)).

(* [void Reserve(size_t new_capacity)]; the old block, its elements
   destroyed, ends up in [new_data] and is released with it. *)
Definition Reserve (v : Vector) (new_capacity : nat) : result Vector Vector :=
  if bool_decide (new_capacity ≤ Capacity v) then Ret v
  else
    match RawMemory_new new_capacity with
    | None => Exn bad_alloc v
    | Some new_data =>
        if relocate_by_move then
          match uninitialized_move_n (buffer_ (data_ v)) 0 (size_ v) (buffer_ new_data) 0 with
          | Ret (old, b) =>
              let old' := destroy_n old 0 (size_ v) in
              let '(data, _) := RawMemory_Swap (with_buffer (data_ v) old') (with_buffer new_data b) in
              Ret {| data_ := data; size_ := size_ v |}
          | Exn e (old, _) => Exn e (set_buffer v old)
          | Fault => Fault
          end
        else
          match uninitialized_copy_n (buffer_ (data_ v)) 0 (size_ v) (buffer_ new_data) 0 with
          | Ret b =>
              let old' := destroy_n (buffer_ (data_ v)) 0 (size_ v) in
              let '(data, _) := RawMemory_Swap (with_buffer (data_ v) old') (with_buffer new_data b) in
              Ret {| data_ := data; size_ := size_ v |}
          | Exn e _ => Exn e v
          | Fault => Fault
          end
    end.

(* [T& operator[](size_t index)]: the element read through the reference *)
Definition at_index (v : Vector) (index : nat) : option T :=
  if bool_decide (index < size_ v) then
    if RawMemory_index_ok (data_ v) index then mjoin (buffer_ (data_ v) !! index) else None
  else None.

(* [void Resize(size_t new_size)] *)
Definition Resize (v : Vector) (new_size : nat) : result Vector Vector :=
  if bool_decide (new_size < size_ v) then
    Ret {| data_ := with_buffer (data_ v)
                      (destroy_n (buffer_ (data_ v)) new_size (size_ v - new_size));
           size_ := new_size |}
  else if bool_decide (size_ v < new_size) then
    match Reserve v new_size with
    | Ret v1 =>
        match uninitialized_value_construct_n (buffer_ (data_ v1)) (size_ v1)
                                              (new_size - size_ v1) with
        | Ret b => Ret {| data_ := with_buffer (data_ v1) b; size_ := new_size |}
        | Exn e b => Exn e (set_buffer v1 b)
        | Fault => Fault
        end
    | r => r
    end
  else Ret {| data_ := data_ v; size_ := new_size |}.

(* [void PopBack()]: [--size_], then [std::destroy_at(end())] *)
Definition PopBack (v : Vector) : result Vector Vector :=
  if bool_decide (size_ v ≠ 0) then
    let size' := size_ v - 1 in
    Ret {| data_ := with_buffer (data_ v) (destroy_at (buffer_ (data_ v)) size');
           size_ := size' |}
  else Fault.

(* [iterator Realocate(const_iterator pos, Args&&... args)].  The new
   capacity [size_ * 2] is below [2^64] for every vector that satisfies
   the representation invariant.  The new element is constructed in
   slot [idx] of the new block, which must be within the bytes obtained.
   When the relocation throws, the handler destroys the new element and
   the destructor of [new_data] releases the new block: the exception
   leaves the vector with its old block, whose elements a throwing move
   may have left moved-from.  The iterator returned points to slot [idx]
   of the new block. *)
Definition Realocate (v : Vector) (pos : nat) (args : ctor_args T)
  : result Vector Vector :=
  let idx := pos in
  match RawMemory_new (if bool_decide (size_ v = 0) then 1 else size_ v * 2) with
  | None => Exn bad_alloc v
  | Some new_data =>
      if RawMemory_index_ok new_data idx
         && bool_decide (idx < length (buffer_ new_data)) then
        match construct_from args with
        | None => Exn element_exn v
        | Some t =>
            let nb := <[idx := Some t]> (buffer_ new_data) in
            let old := buffer_ (data_ v) in
            let commit (old' nb' : block T) :=
              let old'' := destroy old' 0 (size_ v) in
              let '(data, _) :=
                RawMemory_Swap (with_buffer (data_ v) old'') (with_buffer new_data nb') in
              Ret {| data_ := data; size_ := S (size_ v) |} in
            if relocate_by_move then
              match uninitialized_move old 0 pos nb 0 with
              | Ret (old1, nb1) =>
                  match uninitialized_move old1 pos (size_ v) nb1 (idx + 1) with
                  | Ret (old2, nb2) => commit old2 nb2
                  | Exn e (old2, _) => Exn e (set_buffer v old2)
                  | Fault => Fault
                  end
              | Exn e (old1, _) => Exn e (set_buffer v old1)
              | Fault => Fault
              end
            else
              match uninitialized_copy old 0 pos nb 0 with
              | Ret nb1 =>
                  match uninitialized_copy old pos (size_ v) nb1 (idx + 1) with
                  | Ret nb2 => commit old nb2
                  | Exn e _ => Exn e v
                  | Fault => Fault
                  end
              | Exn e _ => Exn e v
              | Fault => Fault
              end
        end
      else Fault
  end.

(* [*ptr = std::move(tmp)] *)
Definition move_assign_from b (p : nat) (tmp : T) : result (block T) (block T) :=
  match b !! p with
  | Some (Some y) =>
      match move_assign y tmp with
      | (true, y', _) => Ret (<[p := Some y']> b)
      | (false, y', _) => Exn element_exn (<[p := Some y']> b)
      end
  | _ => Fault
  end.

(* [std::construct_at(end(), std::move(data_[size_ - 1]))]; [Emplace]
   reaches it with [size_ > 0]. *)
Definition move_last_to_end (v : Vector) : result (block T) (block T) :=
  let b := buffer_ (data_ v) in
  if RawMemory_index_ok (data_ v) (size_ v - 1) then
    match b !! (size_ v - 1) with
    | Some (Some x) =>
        if bool_decide (size_ v < length b) then
          match move_construct x with
          | (Some y, x') => Ret (<[size_ v := Some y]> (<[size_ v - 1 := Some x']> b))
          | (None, x') => Exn element_exn (<[size_ v - 1 := Some x']> b)
          end
        else Fault
    | _ => Fault
    end
  else Fault.

(* The branch of [Emplace] that makes room by shifting: the temporary,
   the move of the last element into the end slot, the shift of the
   rest, the assignment of the temporary. *)
Definition Emplace_shift (v : Vector) (pos : nat) (args : ctor_args T)
  : result Vector Vector :=
  match construct_from args with
  | None => Exn element_exn v
  | Some tmp =>
      match move_last_to_end v with
      | Ret b1 =>
          match std_move_backward b1 pos (size_ v - 1) (size_ v) with
          | Ret b2 =>
              match move_assign_from b2 pos tmp with
              | Ret b3 => Ret {| data_ := with_buffer (data_ v) b3; size_ := S (size_ v) |}
              | Exn e b3 => Exn e (set_buffer v b3)
              | Fault => Fault
              end
          | Exn e b2 => Exn e (set_buffer v b2)
          | Fault => Fault
          end
      | Exn e b1 => Exn e (set_buffer v b1)
      | Fault => Fault
      end
  end.

(* The branch of [Emplace] for [ptr == end()]:
   [std::construct_at(ptr, std::forward<Args>(args)...)] *)
Definition Emplace_at_end (v : Vector) (args : ctor_args T) : result Vector Vector :=
  if bool_decide (size_ v < length (buffer_ (data_ v))) then
    match construct_from args with
    | None => Exn element_exn v
    | Some t =>
        Ret {| data_ := with_buffer (data_ v) (<[size_ v := Some t]> (buffer_ (data_ v)));
               size_ := S (size_ v) |}
    end
  else Fault.

(* [iterator Emplace(const_iterator pos, Args&&... args)]; the iterator
   returned points to the slot at offset [pos] of the resulting block. *)
Definition Emplace (v : Vector) (pos : nat) (args : ctor_args T)
  : result Vector Vector :=
  if bool_decide (pos ≤ size_ v) then
    if bool_decide (size_ v = Capacity v) then Realocate v pos args
    else if bool_decide (pos = size_ v) then Emplace_at_end v args
    else Emplace_shift v pos args
  else Fault.

(* [T& EmplaceBack(Args&&... args)] *)
Definition EmplaceBack (v : Vector) (args : ctor_args T) : result Vector Vector :=
  Emplace v (size_ v) args.

(* [void PushBack(const T& value)] and [void PushBack(T&& value)]; the
   rvalue is an object outside the vector. *)
Definition PushBack (v : Vector) (value : T) : result Vector Vector :=
  EmplaceBack v (CopyOf value).


(* [iterator Insert(const_iterator pos, const T& value)] and
   [iterator Insert(const_iterator pos, T&& value)]; the rvalue is an
   object outside the vector. *)
Definition Insert (v : Vector) (pos : nat) (value : T) : result Vector Vector :=
  Emplace v pos (CopyOf value).


(* [iterator Erase(const_iterator pos)]; the iterator returned is [pos]. *)
Definition Erase (v : Vector) (pos : nat) : result Vector Vector :=
  if bool_decide (pos < size_ v) then
    if bool_decide (size_ v ≠ 0) then
      match std_move (buffer_ (data_ v)) (pos + 1) (size_ v) pos with
      | Ret b => PopBack (set_buffer v b)
      | Exn e b => Exn e (set_buffer v b)
      | Fault => Fault
      end
    else Ret v
  else Fault.

(** ** Objects in memory: assignment between two places

    [operator=] compares the addresses of its operands, so the two
    assignment operators are stated on a store of vectors. *)

Definition copy_assign_at (h : gmap nat Vector) (this rhs : nat)
  : result (gmap nat Vector) (gmap nat Vector) :=
  match h !! this, h !! rhs with
  | Some a, Some r =>
      if bool_decide (this ≠ rhs) then
        match copy_assign_body a r with
        | Ret a' => Ret (<[this := a']> h)
        | Exn e a' => Exn e (<[this := a']> h)
        | Fault => Fault
        end
      else Ret h
  | _, _ => Fault
  end.

Definition move_assign_at (h : gmap nat Vector) (this rhs : nat)
  : result (gmap nat Vector) (gmap nat Vector) :=
  match h !! this, h !! rhs with
  | Some a, Some r =>
      if bool_decide (this ≠ rhs) then
        let '(a', r') := Swap a r in
        Ret (<[rhs := r']> (<[this := a']> h))
      else Ret h
  | _, _ => Fault
  end.

(* [Vector b(std::move(a))]: a new object at the fresh place [b] *)
Definition move_construct_at (h : gmap nat Vector) (b a : nat)
  : result (gmap nat Vector) (gmap nat Vector) :=
  match h !! b, h !! a with
  | None, Some va =>
      let '(vb, va') := Vector_move va in
      Ret (<[b := vb]> (<[a := va']> h))
  | _, _ => Fault
  end.

(** ** The sequence held by a vector and its representation invariant *)

(* The values of the live range [begin(), end()) *)
Definition elements (v : Vector) : list T :=
  omap id (take (size_ v) (buffer_ (data_ v))).

(* The product [n * sizeof(T)] does not wrap around. *)
Definition representable (n : nat) : Prop := (N.of_nat n * sizeof ≤ SIZE_MAX)%N.

(* A block of [n] objects is one that can exist: it has at most
   [PTRDIFF_MAX] bytes. *)
Definition addressable (n : nat) : Prop := (N.of_nat n * sizeof ≤ PTRDIFF_MAX)%N.

(* [0 ≤ size ≤ capacity]; the block has [capacity] slots; the slots
   below [size] hold live objects and no other slot does; and the block
   has at most [PTRDIFF_MAX] bytes, as every block that [operator new]
   returns. *)
Definition wf (v : Vector) : Prop :=
  size_ v ≤ Capacity v
  ∧ length (buffer_ (data_ v)) = Capacity v
  ∧ (∀ i, i < Capacity v →
      (i < size_ v → ∃ x, buffer_ (data_ v) !! i = Some (Some x))
      ∧ (size_ v ≤ i → buffer_ (data_ v) !! i = Some None))
  ∧ addressable (Capacity v).

(* The slot at offset [i] holds a live object. *)
Definition live b (i : nat) : Prop := ∃ x, b !! i = Some (Some x).

(* Two blocks of one length with the same live slots *)
Definition same_liveness b b' : Prop :=
  length b' = length b ∧ ∀ i, live b' i ↔ live b i.

(* [size ≤ capacity] and every counted slot is live *)
Definition counted_live (v : Vector) : Prop :=
  size_ v ≤ Capacity v
  ∧ length (buffer_ (data_ v)) = Capacity v
  ∧ ∀ i, i < size_ v → live (buffer_ (data_ v)) i.

(* The vector that holds [xs] in a block of [cap] slots *)
Definition vector_of (xs : list T) (cap : nat) : Vector :=
  {| data_ := {| buffer_ := (Some <$> xs) ++ replicate (cap - length xs) None;
                 capacity_ := cap |};
     size_ := length xs |}.

(* A checker for the representation invariant *)
Definition is_live_slot (o : option T) : bool :=
  match o with Some _ => true | None => false end.

Definition wf_check (v : Vector) : bool :=
  bool_decide (size_ v ≤ Capacity v)
  && bool_decide (length (buffer_ (data_ v)) = Capacity v)
  && forallb is_live_slot (take (size_ v) (buffer_ (data_ v)))
  && forallb (λ o, negb (is_live_slot o)) (drop (size_ v) (buffer_ (data_ v)))
  && (N.of_nat (Capacity v) * sizeof <=? PTRDIFF_MAX)%N.

(** The insertion into spare capacity as the specification words it, at
    whatever position: a temporary is built from the arguments, the last
    element is move-constructed into the new end slot, the elements from
    [pos] on are shifted one slot to the right by move assignment from
    right to left, and the temporary is move-assigned into slot [pos]. *)
Definition Emplace_as_described (v : Vector) (pos : nat) (args : ctor_args T)
  : result Vector Vector :=
  match construct_from args with
  | None => Exn element_exn v
  | Some tmp =>
      match move_last_to_end v with
      | Ret b1 =>
          match std_move_backward b1 pos (size_ v - 1) (size_ v) with
          | Ret b2 =>
              match move_assign_from b2 pos tmp with
              | Ret b3 => Ret {| data_ := with_buffer (data_ v) b3; size_ := S (size_ v) |}
              | Exn e b3 => Exn e (set_buffer v b3)
              | Fault => Fault
              end
          | Exn e b2 => Exn e (set_buffer v b2)
          | Fault => Fault
          end
      | Exn e b1 => Exn e (set_buffer v b1)
      | Fault => Fault
      end
  end.

(* Sequencing of calls on one vector *)
Definition and_then (r : result Vector Vector) (f : Vector → result Vector Vector)
  : result Vector Vector :=
  match r with
  | Ret v => f v
  | r => r
  end.

(* [~Vector()]: [std::destroy_n(begin(), size_)]; the block as
   [~RawMemory] then releases it. *)
Definition Vector_destroy (v : Vector) : block T :=
  destroy_n (buffer_ (data_ v)) 0 (size_ v).

(* [std::swap(a, a)] on one [RawMemory] object: [tmp(std::move(a))], the
   self-assignment [a = std::move(a)] that does nothing because
   [this == &rhs], then [a = std::move(tmp)]. *)
Definition swap_RawMemory_self (a : RawMemory) : RawMemory :=
  let '(tmp, a1) := RawMemory_move a in
  let '(a2, _) := RawMemory_move_assign a1 tmp in
  a2.

(* [this->Swap(other)] on the store; the two places may be the same. *)
Definition Swap_at (h : gmap nat Vector) (this other : nat)
  : result (gmap nat Vector) (gmap nat Vector) :=
  match h !! this, h !! other with
  | Some a, Some o =>
      if bool_decide (this ≠ other) then
        let '(a', o') := Swap a o in
        Ret (<[other := o']> (<[this := a']> h))
      else
        Ret (<[this := {| data_ := swap_RawMemory_self (data_ a); size_ := size_ a |}]> h)
  | _, _ => Fault
  end.

(* A caller that appends the values one after the other and stops at the
   first call that does not return. *)
Fixpoint PushBack_all (v : Vector) (values : list T) : result Vector Vector :=
  match values with
  | [] => Ret v
  | value :: rest =>
      match PushBack v value with
      | Ret v' => PushBack_all v' rest
      | r => r
      end
  end.

(** ** Facts about the block algorithms *)

Lemma live_lt b i : live b i → i < length b.
Proof. intros [x Hx]. by eapply lookup_lt_Some. Qed.

Lemma live_insert_ne b i j o : i ≠ j → live (<[j := o]> b) i ↔ live b i.
Proof. intros Hne. unfold live. by rewrite list_lookup_insert_ne. Qed.

Lemma live_insert_eq b i x : i < length b → live (<[i := Some x]> b) i.
Proof. intros Hlt. exists x. by apply list_lookup_insert_eq. Qed.

Lemma length_destroy_n b first n : length (destroy_n b first n) = length b.
Proof.
  revert b first. induction n as [|n IH]; intros b first; simpl; [done|].
  by rewrite IH, length_insert.
Qed.

Lemma lookup_destroy_n_out b first n i :
  i < first ∨ first + n ≤ i → destroy_n b first n !! i = b !! i.
Proof.
  revert b first. induction n as [|n IH]; intros b first Hi; simpl; [done|].
  rewrite IH by lia. apply list_lookup_insert_ne. lia.
Qed.

Lemma lookup_destroy_n_in b first n i :
  first ≤ i < first + n → i < length b → destroy_n b first n !! i = Some None.
Proof.
  revert b first. induction n as [|n IH]; intros b first Hi Hlen; simpl; [lia|].
  destruct (decide (i = first)) as [->|Hne].
  - rewrite lookup_destroy_n_out by lia. by apply list_lookup_insert_eq.
  - apply IH; [lia|]. by rewrite length_insert.
Qed.

(** Each loop is specified on its normal return; under the stated
    liveness and bounds it never breaks a contract. *)

Lemma uninitialized_copy_loop_spec `{!ValueSemantics T} n :
  ∀ src first dst d_first cur,
    (∀ k, k < n → live src (first + k)) →
    cur + n ≤ length dst →
    match uninitialized_copy_loop src first n dst d_first cur with
    | Ret dst' =>
        length dst' = length dst
        ∧ (∀ k, k < n → dst' !! (cur + k) = src !! (first + k))
        ∧ (∀ i, i < cur ∨ cur + n ≤ i → dst' !! i = dst !! i)
    | Exn e _ => e = element_exn
    | Fault => False
    end.
Proof.
  induction n as [|n IH]; intros src first dst d_first cur Hsrc Hlen; simpl.
  { split_and!; [done|intros; lia|done]. }
  destruct (Hsrc 0 ltac:(lia)) as [x Hx]. rewrite Nat.add_0_r in Hx. rewrite Hx.
  rewrite bool_decide_eq_true_2 by lia.
  destruct (copy_construct x) as [y|] eqn:Hc; [|done].
  apply copy_construct_value in Hc as ->.
  specialize (IH src (S first) (<[cur := Some x]> dst) d_first (S cur)).
  destruct (uninitialized_copy_loop _ _ _ _ _ _) as [dst'|e dst'|].
  - destruct IH as (Hl & Hin & Hout).
    { intros k Hk. replace (S first + k) with (first + S k) by lia. apply Hsrc. lia. }
    { rewrite length_insert. lia. }
    rewrite length_insert in Hl. split_and!; [done| |].
    + intros [|k] Hk.
      * rewrite Nat.add_0_r, Hout by lia. rewrite list_lookup_insert_eq by lia.
        by rewrite Nat.add_0_r.
      * replace (cur + S k) with (S cur + k) by lia.
        replace (first + S k) with (S first + k) by lia. apply Hin. lia.
    + intros i Hi. rewrite Hout by lia. apply list_lookup_insert_ne. lia.
  - apply IH.
    { intros k Hk. replace (S first + k) with (first + S k) by lia. apply Hsrc. lia. }
    { rewrite length_insert. lia. }
  - apply IH.
    { intros k Hk. replace (S first + k) with (first + S k) by lia. apply Hsrc. lia. }
    { rewrite length_insert. lia. }
Qed.

Lemma uninitialized_copy_loop_nothrow `{!NoThrow T} n :
  ∀ src first dst d_first cur e s,
    uninitialized_copy_loop src first n dst d_first cur ≠ Exn e s.
Proof.
  induction n as [|n IH]; intros src first dst d_first cur e s; simpl; [done|].
  destruct (src !! first) as [[x|]|]; [|done..].
  case_bool_decide; [|done].
  destruct (copy_construct_nothrow x) as [y ->]. apply IH.
Qed.

Lemma uninitialized_move_loop_spec `{!ValueSemantics T} n :
  ∀ src first dst d_first cur,
    (∀ k, k < n → live src (first + k)) →
    cur + n ≤ length dst →
    match uninitialized_move_loop src first n dst d_first cur with
    | Ret (src', dst') =>
        length dst' = length dst
        ∧ (∀ k, k < n → dst' !! (cur + k) = src !! (first + k))
        ∧ (∀ i, i < cur ∨ cur + n ≤ i → dst' !! i = dst !! i)
        ∧ length src' = length src
        ∧ (∀ k, k < n → live src' (first + k))
        ∧ (∀ i, i < first ∨ first + n ≤ i → src' !! i = src !! i)
    | Exn e _ => e = element_exn ∧ is_nothrow_move_constructible (T:=T) = false
    | Fault => False
    end.
Proof.
  induction n as [|n IH]; intros src first dst d_first cur Hsrc Hlen; simpl.
  { split_and!; [done|intros; lia|done|done|intros; lia|done]. }
  destruct (Hsrc 0 ltac:(lia)) as [x Hx]. rewrite Nat.add_0_r in Hx. rewrite Hx.
  rewrite bool_decide_eq_true_2 by lia.
  pose proof (lookup_lt_Some _ _ _ Hx) as Hfirst.
  destruct (move_construct x) as [[y|] x'] eqn:Hm.
  2:{ split; [done|]. destruct (is_nothrow_move_constructible (T:=T)) eqn:Hflag; [|done].
      destruct (nothrow_move_constructible_sound x Hflag) as [? Hs].
      rewrite Hm in Hs. done. }
  apply move_construct_value in Hm as ->.
  specialize (IH (<[first := Some x']> src) (S first) (<[cur := Some x]> dst) d_first (S cur)).
  assert (∀ k, k < n → live (<[first := Some x']> src) (S first + k)) as Hsrc'.
  { intros k Hk. apply live_insert_ne; [lia|].
    replace (S first + k) with (first + S k) by lia. apply Hsrc. lia. }
  specialize (IH Hsrc'). rewrite !length_insert in IH. specialize (IH ltac:(lia)).
  destruct (uninitialized_move_loop _ _ _ _ _ _) as [[src' dst']|e ?|]; [|done..].
  destruct IH as (Hl & Hin & Hout & Hl' & Hlive & Hout').
  split_and!; [done| |.. ].
  - intros [|k] Hk.
    + rewrite Nat.add_0_r, Hout by lia. rewrite list_lookup_insert_eq by lia.
      by rewrite Nat.add_0_r.
    + replace (cur + S k) with (S cur + k) by lia. rewrite Hin by lia.
      rewrite list_lookup_insert_ne by lia. f_equal. lia.
  - intros i Hi. rewrite Hout by lia. apply list_lookup_insert_ne. lia.
  - done.
  - intros [|k] Hk.
    + rewrite Nat.add_0_r. unfold live. rewrite Hout' by lia.
      exists x'. by apply list_lookup_insert_eq.
    + replace (first + S k) with (S first + k) by lia. apply Hlive. lia.
  - intros i Hi. rewrite Hout' by lia. apply list_lookup_insert_ne. lia.
Qed.

Lemma uninitialized_move_loop_nothrow `{!NoThrow T} n :
  ∀ src first dst d_first cur e s,
    uninitialized_move_loop src first n dst d_first cur ≠ Exn e s.
Proof.
  induction n as [|n IH]; intros src first dst d_first cur e s; simpl; [done|].
  destruct (src !! first) as [[x|]|]; [|done..].
  case_bool_decide; [|done].
  destruct (move_construct_nothrow x) as [y Hy].
  destruct (move_construct x) as [o x']. simpl in Hy. subst o. apply IH.
Qed.

Lemma uninitialized_value_construct_loop_spec n :
  ∀ b first cur,
    cur + n ≤ length b →
    match uninitialized_value_construct_loop b first cur n with
    | Ret b' =>
        length b' = length b
        ∧ (∀ k, k < n → live b' (cur + k))
        ∧ (∀ i, i < cur ∨ cur + n ≤ i → b' !! i = b !! i)
    | Exn e _ => e = element_exn
    | Fault => False
    end.
Proof.
  induction n as [|n IH]; intros b first cur Hlen; simpl.
  { split_and!; [done|intros; lia|done]. }
  rewrite bool_decide_eq_true_2 by lia.
  destruct (value_construct (T:=T)) as [x|]; [|done].
  specialize (IH (<[cur := Some x]> b) first (S cur)).
  rewrite length_insert in IH. specialize (IH ltac:(lia)).
  destruct (uninitialized_value_construct_loop _ _ _ _) as [b'|e ?|]; [|done..].
  destruct IH as (Hl & Hin & Hout). split_and!; [done| |].
  - intros [|k] Hk.
    + rewrite Nat.add_0_r. unfold live. rewrite Hout by lia.
      exists x. apply list_lookup_insert_eq. lia.
    + replace (cur + S k) with (S cur + k) by lia. apply Hin. lia.
  - intros i Hi. rewrite Hout by lia. apply list_lookup_insert_ne. lia.
Qed.

Lemma uninitialized_value_construct_loop_nothrow `{!NoThrow T} n :
  ∀ b first cur e s, uninitialized_value_construct_loop b first cur n ≠ Exn e s.
Proof.
  induction n as [|n IH]; intros b first cur e s; simpl; [done|].
  case_bool_decide; [|done].
  destruct value_construct_nothrow as [x ->]. apply IH.
Qed.

Lemma copy_loop_spec `{!ValueSemantics T} n :
  ∀ src first dst d,
    (∀ k, k < n → live src (first + k)) →
    (∀ k, k < n → live dst (d + k)) →
    match copy_loop src first n dst d with
    | Ret dst' =>
        length dst' = length dst
        ∧ (∀ k, k < n → dst' !! (d + k) = src !! (first + k))
        ∧ (∀ i, i < d ∨ d + n ≤ i → dst' !! i = dst !! i)
    | Exn e _ => e = element_exn
    | Fault => False
    end.
Proof.
  induction n as [|n IH]; intros src first dst d Hsrc Hdst; simpl.
  { split_and!; [done|intros; lia|done]. }
  destruct (Hsrc 0 ltac:(lia)) as [x Hx]. rewrite Nat.add_0_r in Hx. rewrite Hx.
  destruct (Hdst 0 ltac:(lia)) as [y Hy]. rewrite Nat.add_0_r in Hy. rewrite Hy.
  pose proof (lookup_lt_Some _ _ _ Hy) as Hd.
  destruct (copy_assign y x) as [[] y'] eqn:Hc; [|done].
  apply copy_assign_value in Hc as ->.
  specialize (IH src (S first) (<[d := Some x]> dst) (S d)).
  destruct (copy_loop _ _ _ _ _) as [dst'|e ?|].
  - destruct IH as (Hl & Hin & Hout).
    { intros k Hk. replace (S first + k) with (first + S k) by lia. apply Hsrc. lia. }
    { intros k Hk. apply live_insert_ne; [lia|].
      replace (S d + k) with (d + S k) by lia. apply Hdst. lia. }
    rewrite length_insert in Hl. split_and!; [done| |].
    + intros [|k] Hk.
      * rewrite Nat.add_0_r, Hout by lia. rewrite list_lookup_insert_eq by lia.
        by rewrite Nat.add_0_r.
      * replace (d + S k) with (S d + k) by lia.
        replace (first + S k) with (S first + k) by lia. apply Hin. lia.
    + intros i Hi. rewrite Hout by lia. apply list_lookup_insert_ne. lia.
  - apply IH.
    { intros k Hk. replace (S first + k) with (first + S k) by lia. apply Hsrc. lia. }
    { intros k Hk. apply live_insert_ne; [lia|].
      replace (S d + k) with (d + S k) by lia. apply Hdst. lia. }
  - apply IH.
    { intros k Hk. replace (S first + k) with (first + S k) by lia. apply Hsrc. lia. }
    { intros k Hk. apply live_insert_ne; [lia|].
      replace (S d + k) with (d + S k) by lia. apply Hdst. lia. }
Qed.

Lemma copy_loop_nothrow `{!NoThrow T} n :
  ∀ src first dst d e s, copy_loop src first n dst d ≠ Exn e s.
Proof.
  induction n as [|n IH]; intros src first dst d e s; simpl; [done|].
  destruct (src !! first) as [[x|]|]; [|done..].
  destruct (dst !! d) as [[y|]|]; [|done..].
  pose proof (copy_assign_nothrow y x) as Hc.
  destruct (copy_assign y x) as [ok y']. simpl in Hc. subst ok. apply IH.
Qed.

Lemma move_assign_slot_spec `{!ValueSemantics T} b d s :
  live b d → live b s → d ≠ s →
  match move_assign_slot b d s with
  | Ret b' =>
      length b' = length b
      ∧ b' !! d = b !! s
      ∧ live b' s
      ∧ (∀ i, i ≠ d → i ≠ s → b' !! i = b !! i)
  | Exn e _ => e = element_exn
  | Fault => False
  end.
Proof.
  intros [y Hy] [x Hx] Hne. unfold move_assign_slot. rewrite Hy, Hx.
  pose proof (lookup_lt_Some _ _ _ Hy). pose proof (lookup_lt_Some _ _ _ Hx).
  destruct (move_assign y x) as [[[] y'] x'] eqn:Hm; [|done].
  apply move_assign_value in Hm as ->.
  rewrite !length_insert. split_and!; [done| | |].
  - rewrite list_lookup_insert_eq by (rewrite length_insert; lia). done.
  - apply live_insert_ne; [done|]. by apply live_insert_eq.
  - intros i ??. by rewrite !list_lookup_insert_ne.
Qed.

Lemma move_assign_slot_nothrow `{!NoThrow T} b d s e r :
  move_assign_slot b d s ≠ Exn e r.
Proof.
  unfold move_assign_slot.
  destruct (b !! d) as [[y|]|]; [|done..].
  destruct (b !! s) as [[x|]|]; [|done..].
  pose proof (move_assign_nothrow y x) as Hm.
  destruct (move_assign y x) as [[ok y'] x']. simpl in Hm. by subst ok.
Qed.

(* [std::move(d + 1, d + 1 + n, d)]: a shift to the left by one *)
Lemma move_loop_spec `{!ValueSemantics T} n :
  ∀ b d,
    (∀ k, k ≤ n → live b (d + k)) →
    match move_loop b (S d) n d with
    | Ret b' =>
        length b' = length b
        ∧ (∀ k, k < n → b' !! (d + k) = b !! (d + k + 1))
        ∧ live b' (d + n)
        ∧ (∀ i, i < d ∨ d + n < i → b' !! i = b !! i)
    | Exn e _ => e = element_exn
    | Fault => False
    end.
Proof.
  induction n as [|n IH]; intros b d Hlive; simpl.
  { split_and!; [done|intros; lia| |done]. apply Hlive. lia. }
  pose proof (move_assign_slot_spec b d (S d)) as Hstep.
  destruct (move_assign_slot b d (S d)) as [b1|e ?|].
  - destruct Hstep as (Hl1 & Hd & Hs & Hout1).
    { rewrite <- (Nat.add_0_r d). apply Hlive. lia. }
    { replace (S d) with (d + 1) by lia. apply Hlive. lia. }
    { lia. }
    specialize (IH b1 (S d)).
    assert (∀ k, k ≤ n → live b1 (S d + k)) as Hlive1.
    { intros [|k] Hk; [by rewrite Nat.add_0_r|].
      unfold live. rewrite Hout1 by lia.
      replace (S d + S k) with (d + S (S k)) by lia. apply Hlive. lia. }
    specialize (IH Hlive1).
    destruct (move_loop b1 (S (S d)) n (S d)) as [b'|e ?|]; [|done..].
    destruct IH as (Hl & Hin & Hend & Hout). split_and!.
    + congruence.
    + intros [|k] Hk.
      * rewrite Nat.add_0_r, Hout by lia. rewrite Hd. f_equal. lia.
      * replace (d + S k) with (S d + k) by lia. rewrite Hin by lia.
        rewrite Hout1 by lia. f_equal.
    + replace (d + S n) with (S d + n) by lia. done.
    + intros i Hi. rewrite Hout by lia. apply Hout1; lia.
  - apply Hstep.
    { rewrite <- (Nat.add_0_r d). apply Hlive. lia. }
    { replace (S d) with (d + 1) by lia. apply Hlive. lia. }
    { lia. }
  - apply Hstep.
    { rewrite <- (Nat.add_0_r d). apply Hlive. lia. }
    { replace (S d) with (d + 1) by lia. apply Hlive. lia. }
    { lia. }
Qed.

Lemma move_loop_nothrow `{!NoThrow T} n :
  ∀ b first d e s, move_loop b first n d ≠ Exn e s.
Proof.
  induction n as [|n IH]; intros b first d e s; simpl; [done|].
  pose proof (move_assign_slot_nothrow b d first) as Hstep.
  destruct (move_assign_slot b d first); [apply IH|apply Hstep|done].
Qed.

(* [std::move_backward(first, first + n, first + n + 1)]: a shift to the
   right by one *)
Lemma move_backward_loop_spec `{!ValueSemantics T} n :
  ∀ b first,
    (∀ k, k ≤ n → live b (first + k)) →
    match move_backward_loop b n (first + n) (S (first + n)) with
    | Ret b' =>
        length b' = length b
        ∧ (∀ k, k < n → b' !! (first + k + 1) = b !! (first + k))
        ∧ live b' first
        ∧ (∀ i, i < first ∨ first + n < i → b' !! i = b !! i)
    | Exn e _ => e = element_exn
    | Fault => False
    end.
Proof.
  induction n as [|n IH]; intros b first Hlive; simpl.
  { split_and!; [done|intros; lia| |done].
    rewrite <- (Nat.add_0_r first). apply Hlive. lia. }
  rewrite Nat.add_succ_r.
  pose proof (move_assign_slot_spec b (S (first + n)) (first + n)) as Hstep.
  destruct (move_assign_slot b (S (first + n)) (first + n)) as [b1|e ?|].
  - destruct Hstep as (Hl1 & Hd & Hs & Hout1).
    { replace (S (first + n)) with (first + S n) by lia. apply Hlive. lia. }
    { apply Hlive. lia. }
    { lia. }
    specialize (IH b1 first).
    assert (∀ k, k ≤ n → live b1 (first + k)) as Hlive1.
    { intros k Hk. destruct (decide (k = n)) as [->|Hne]; [done|].
      unfold live. rewrite Hout1 by lia. apply Hlive. lia. }
    specialize (IH Hlive1).
    destruct (move_backward_loop b1 n (first + n) (S (first + n))) as [b'|e ?|]; [|done..].
    destruct IH as (Hl & Hin & Hfirst & Hout). split_and!.
    + congruence.
    + intros k Hk. destruct (decide (k = n)) as [->|Hne].
      * rewrite Hout by lia. rewrite <- Hd. f_equal. lia.
      * rewrite Hin by lia. apply Hout1; lia.
    + done.
    + intros i Hi. rewrite Hout by lia. apply Hout1; lia.
  - apply Hstep.
    { replace (S (first + n)) with (first + S n) by lia. apply Hlive. lia. }
    { apply Hlive. lia. }
    { lia. }
  - apply Hstep.
    { replace (S (first + n)) with (first + S n) by lia. apply Hlive. lia. }
    { apply Hlive. lia. }
    { lia. }
Qed.

Lemma move_backward_loop_nothrow `{!NoThrow T} n :
  ∀ b last d_last e s, move_backward_loop b n last d_last ≠ Exn e s.
Proof.
  induction n as [|n IH]; intros b last d_last e s; simpl; [done|].
  destruct last as [|last]; [done|]. destruct d_last as [|d_last]; [done|].
  pose proof (move_assign_slot_nothrow b d_last last) as Hstep.
  destruct (move_assign_slot b d_last last); [apply IH|apply Hstep|done].
Qed.

Lemma move_assign_from_spec `{!ValueSemantics T} b p tmp :
  live b p →
  match move_assign_from b p tmp with
  | Ret b' =>
      length b' = length b
      ∧ b' !! p = Some (Some tmp)
      ∧ (∀ i, i ≠ p → b' !! i = b !! i)
  | Exn e _ => e = element_exn
  | Fault => False
  end.
Proof.
  intros [y Hy]. unfold move_assign_from. rewrite Hy.
  pose proof (lookup_lt_Some _ _ _ Hy).
  destruct (move_assign y tmp) as [[[] y'] x'] eqn:Hm; [|done].
  apply move_assign_value in Hm as ->.
  rewrite length_insert. split_and!; [done| |].
  - by apply list_lookup_insert_eq.
  - intros i ?. by apply list_lookup_insert_ne.
Qed.

Lemma move_assign_from_nothrow `{!NoThrow T} b p tmp e s :
  move_assign_from b p tmp ≠ Exn e s.
Proof.
  unfold move_assign_from. destruct (b !! p) as [[y|]|]; [|done..].
  pose proof (move_assign_nothrow y tmp) as Hm.
  destruct (move_assign y tmp) as [[ok y'] x']. simpl in Hm. by subst ok.
Qed.

(* The loops throw only what the element type throws. *)
Lemma uninitialized_copy_loop_exn_kind n :
  ∀ src first dst d_first cur e s,
    uninitialized_copy_loop src first n dst d_first cur = Exn e s → e = element_exn.
Proof.
  induction n as [|n IH]; intros src first dst d_first cur e s; simpl; [done|].
  destruct (src !! first) as [[x|]|]; [|done..]. case_bool_decide; [|done].
  destruct (copy_construct x); [apply IH|by intros [= <- _]].
Qed.

Lemma uninitialized_move_loop_exn_kind n :
  ∀ src first dst d_first cur e s,
    uninitialized_move_loop src first n dst d_first cur = Exn e s → e = element_exn.
Proof.
  induction n as [|n IH]; intros src first dst d_first cur e s; simpl; [done|].
  destruct (src !! first) as [[x|]|]; [|done..]. case_bool_decide; [|done].
  destruct (move_construct x) as [[y|] x']; [apply IH|by intros [= <- _]].
Qed.

Lemma uninitialized_value_construct_loop_exn_kind n :
  ∀ b first cur e s,
    uninitialized_value_construct_loop b first cur n = Exn e s → e = element_exn.
Proof.
  induction n as [|n IH]; intros b first cur e s; simpl; [done|].
  case_bool_decide; [|done].
  destruct (value_construct (T:=T)); [apply IH|by intros [= <- _]].
Qed.

Lemma copy_loop_exn_kind n :
  ∀ src first dst d e s, copy_loop src first n dst d = Exn e s → e = element_exn.
Proof.
  induction n as [|n IH]; intros src first dst d e s; simpl; [done|].
  destruct (src !! first) as [[x|]|]; [|done..].
  destruct (dst !! d) as [[y|]|]; [|done..].
  destruct (copy_assign y x) as [[] y']; [apply IH|by intros [= <- _]].
Qed.

Lemma move_assign_slot_exn_kind b d s e r :
  move_assign_slot b d s = Exn e r → e = element_exn.
Proof.
  unfold move_assign_slot.
  destruct (b !! d) as [[y|]|]; [|done..]. destruct (b !! s) as [[x|]|]; [|done..].
  destruct (move_assign y x) as [[[] y'] x']; [done|by intros [= <- _]].
Qed.

Lemma move_loop_exn_kind n :
  ∀ b first d e s, move_loop b first n d = Exn e s → e = element_exn.
Proof.
  induction n as [|n IH]; intros b first d e s; simpl; [done|].
  destruct (move_assign_slot b d first) as [b1|e1 b1|] eqn:Hstep; [apply IH| |done].
  intros [= <- _]. by eapply move_assign_slot_exn_kind.
Qed.

Lemma move_backward_loop_exn_kind n :
  ∀ b last d_last e s, move_backward_loop b n last d_last = Exn e s → e = element_exn.
Proof.
  induction n as [|n IH]; intros b last d_last e s; simpl; [done|].
  destruct last as [|last]; [done|]. destruct d_last as [|d_last]; [done|].
  destruct (move_assign_slot b d_last last) as [b1|e1 b1|] eqn:Hstep; [apply IH| |done].
  intros [= <- _]. by eapply move_assign_slot_exn_kind.
Qed.

(** ** Byte sizes and the blocks that [Allocate] returns *)

Lemma sizeof_pos : (0 < sizeof)%N.
Proof. unfold sizeof. lia. Qed.

Lemma sizeof_max : (sizeof ≤ PTRDIFF_MAX)%N.
Proof. unfold sizeof. apply N.leb_le, sizeof_T_max. Qed.

Lemma addressable_le n m : n ≤ m → addressable m → addressable n.
Proof. unfold addressable. pose proof sizeof_pos. nia. Qed.

Lemma representable_le n m : n ≤ m → representable m → representable n.
Proof. unfold representable. pose proof sizeof_pos. nia. Qed.

Lemma addressable_representable n : addressable n → representable n.
Proof. unfold addressable, representable, PTRDIFF_MAX, SIZE_MAX. lia. Qed.

Lemma addressable_0 : addressable 0.
Proof. unfold addressable, PTRDIFF_MAX. lia. Qed.

Lemma addressable_1 : addressable 1.
Proof. unfold addressable. pose proof sizeof_max. lia. Qed.

(* Twice what is addressable is still representable: doubling a live
   size does not wrap around. *)
Lemma addressable_double n : addressable n → representable (n * 2).
Proof. unfold addressable, representable, PTRDIFF_MAX, SIZE_MAX. lia. Qed.

Lemma byte_size_representable n :
  representable n → byte_size n = (N.of_nat n * sizeof)%N.
Proof. unfold representable, byte_size. intros Hn. apply N.mod_small. lia. Qed.

Lemma block_slots_representable n : representable n → block_slots (byte_size n) = n.
Proof.
  intros Hn. unfold block_slots. rewrite byte_size_representable by done.
  rewrite N.div_mul by (pose proof sizeof_pos; lia). lia.
Qed.

Lemma block_slots_le n : block_slots (byte_size n) ≤ n.
Proof.
  unfold block_slots, byte_size.
  assert ((N.of_nat n * sizeof) mod (SIZE_MAX + 1) / sizeof ≤ N.of_nat n)%N; [|lia].
  pose proof sizeof_pos.
  transitivity ((N.of_nat n * sizeof) / sizeof)%N.
  - apply N.Div0.div_le_mono. apply N.Div0.mod_le.
  - rewrite N.div_mul by lia. done.
Qed.

(* When the product wraps around, the block is too small for [n] objects. *)
Lemma block_slots_overflow n : ¬ representable n → block_slots (byte_size n) < n.
Proof.
  unfold representable, block_slots, byte_size. intros Hn. pose proof sizeof_pos.
  assert ((N.of_nat n * sizeof) mod (SIZE_MAX + 1) / sizeof < N.of_nat n)%N; [|lia].
  apply N.Div0.div_lt_upper_bound.
  assert ((N.of_nat n * sizeof) mod (SIZE_MAX + 1) < SIZE_MAX + 1)%N.
  { apply N.mod_lt. unfold SIZE_MAX. lia. }
  lia.
Qed.

Lemma representable_dec n : representable n ∨ ¬ representable n.
Proof. unfold representable. lia. Qed.

(** ** Facts about [elements] and [wf] *)

Lemma omap_id_Some (xs : list T) : omap id (Some <$> xs) = xs.
Proof. induction xs as [|x xs IH]; simpl; [done|]. f_equal. apply IH. Qed.

Lemma live_block_repr (l : block T) :
  (∀ i, i < length l → live l i) → Some <$> omap id l = l.
Proof.
  induction l as [|o l IH]; intros Hl; simpl; [done|].
  destruct (Hl 0 ltac:(simpl; lia)) as [x Hx]. simpl in Hx. simplify_eq. simpl.
  f_equal. apply IH. intros i Hi. apply (Hl (S i)). simpl. lia.
Qed.

Lemma elements_repr v :
  wf v → Some <$> elements v = take (size_ v) (buffer_ (data_ v)).
Proof.
  intros (Hle & Hlen & Hslots & _). unfold elements. apply live_block_repr.
  intros i Hi. rewrite length_take in Hi. unfold live.
  rewrite lookup_take_lt by lia. apply Hslots; lia.
Qed.

Lemma length_elements v : wf v → length (elements v) = size_ v.
Proof.
  intros Hwf. pose proof (f_equal length (elements_repr v Hwf)) as Hl.
  rewrite length_fmap, length_take in Hl. destruct Hwf as (? & ? & _). lia.
Qed.

Lemma elements_lookup v i x :
  wf v →
  elements v !! i = Some x ↔ i < size_ v ∧ buffer_ (data_ v) !! i = Some (Some x).
Proof.
  intros Hwf. pose proof (f_equal (.!! i) (elements_repr v Hwf)) as Hi.
  simpl in Hi. rewrite list_lookup_fmap in Hi. split.
  - intros Hx. rewrite Hx in Hi. simpl in Hi. symmetry in Hi.
    by apply lookup_take_Some in Hi as [? ?].
  - intros [Hlt Hx]. rewrite lookup_take_lt in Hi by done. rewrite Hx in Hi.
    destruct (elements v !! i); simpl in Hi; congruence.
Qed.

Lemma elements_slot v i :
  wf v → i < size_ v → buffer_ (data_ v) !! i = Some (elements v !! i).
Proof.
  intros Hwf Hi. pose proof Hwf as (Hle & Hlen & Hslots & _).
  destruct (Hslots i ltac:(lia)) as [[x Hx] _]; [done|].
  rewrite Hx. f_equal. symmetry. by apply elements_lookup.
Qed.

(* A block whose first [size] slots hold the values [ys] represents [ys]. *)
Lemma elements_intro v ys :
  length ys = size_ v →
  (∀ i y, ys !! i = Some y → buffer_ (data_ v) !! i = Some (Some y)) →
  elements v = ys.
Proof.
  intros Hlen Hys. unfold elements.
  replace (take (size_ v) (buffer_ (data_ v))) with (Some <$> ys).
  { apply omap_id_Some. }
  apply list_eq. intros i. rewrite list_lookup_fmap.
  destruct (ys !! i) as [y|] eqn:Hy; simpl.
  - rewrite lookup_take_lt by (apply lookup_lt_Some in Hy; lia).
    symmetry. by apply Hys.
  - rewrite lookup_take_ge; [done|]. apply lookup_ge_None in Hy. lia.
Qed.

Lemma wf_intro (data : RawMemory) (size : nat) :
  addressable (capacity_ data) →
  size ≤ capacity_ data →
  length (buffer_ data) = capacity_ data →
  (∀ i, i < size → live (buffer_ data) i) →
  (∀ i, size ≤ i < capacity_ data → buffer_ data !! i = Some None) →
  wf {| data_ := data; size_ := size |}.
Proof.
  intros Hmax Hle Hlen Hlive Hfree. unfold wf, Capacity. simpl.
  split_and!; [done..| |done].
  intros i Hi. split; intros; [by apply Hlive|apply Hfree; lia].
Qed.

Lemma wf_live v i : wf v → i < size_ v → live (buffer_ (data_ v)) i.
Proof.
  intros (Hle & Hlen & Hslots & _) Hi. apply Hslots; [unfold Capacity in *; lia|done].
Qed.

Lemma wf_free v i :
  wf v → size_ v ≤ i < Capacity v → buffer_ (data_ v) !! i = Some None.
Proof. intros (Hle & Hlen & Hslots & _) Hi. apply Hslots; lia. Qed.

Lemma wf_addressable v : wf v → addressable (capacity_ (data_ v)).
Proof. by intros (_ & _ & _ & ?). Qed.

Lemma wf_default : wf Vector_default.
Proof.
  apply wf_intro; simpl; [apply addressable_0|done..|intros; lia|intros; lia].
Qed.

(* The size of a live range is representable, and so is twice that size. *)
Lemma wf_representable v n : wf v → n ≤ size_ v * 2 → representable n.
Proof.
  intros (Hle & _ & _ & Hmax) Hn. apply (representable_le n (Capacity v * 2)); [lia|].
  by apply addressable_double.
Qed.

Lemma wf_growth_representable v :
  wf v → representable (if bool_decide (size_ v = 0) then 1 else size_ v * 2).
Proof.
  intros Hwf. case_bool_decide.
  - apply addressable_representable, addressable_1.
  - by apply (wf_representable v).
Qed.

(* The block that [RawMemory(n)] owns: [capacity_] is [n], the block has
   the slots that the bytes obtained can hold, all of them uninitialised. *)
Lemma RawMemory_new_shape n m :
  RawMemory_new n = Some m →
  m = {| buffer_ := replicate (block_slots (byte_size n)) None; capacity_ := n |}
      ∧ (n = 0 ∨ can_allocate n = true).
Proof.
  unfold RawMemory_new, Allocate, can_allocate. case_bool_decide as Hn.
  - destruct (operator_new (byte_size n)); [|done]. intros [= <-]. by auto.
  - intros [= <-]. assert (n = 0) as -> by lia. split; [|by left].
    f_equal.
Qed.

Lemma RawMemory_new_capacity n m : RawMemory_new n = Some m → capacity_ m = n.
Proof. intros Hnew. by apply RawMemory_new_shape in Hnew as [-> _]. Qed.

Lemma RawMemory_new_spec n m :
  representable n → RawMemory_new n = Some m →
  m = {| buffer_ := replicate n None; capacity_ := n |}.
Proof.
  intros Hn Hnew. apply RawMemory_new_shape in Hnew as [-> _].
  by rewrite block_slots_representable.
Qed.

(* A block obtained without wrap-around is one that can exist. *)
Lemma RawMemory_new_addressable n m :
  representable n → RawMemory_new n = Some m → addressable n.
Proof.
  intros Hn Hnew. apply RawMemory_new_shape in Hnew as [_ [->|Halloc]].
  { apply addressable_0. }
  unfold can_allocate in Halloc. apply operator_new_max in Halloc.
  rewrite byte_size_representable in Halloc by done. done.
Qed.

Lemma RawMemory_new_can_allocate n :
  can_allocate n = true → is_Some (RawMemory_new n).
Proof.
  unfold can_allocate. intros Hn. unfold RawMemory_new, Allocate. rewrite Hn.
  case_bool_decide; eauto.
Qed.

Lemma RawMemory_new_None n :
  RawMemory_new n = None ↔ n ≠ 0 ∧ can_allocate n = false.
Proof.
  unfold RawMemory_new, Allocate, can_allocate. case_bool_decide as Hn.
  - destruct (operator_new (byte_size n)); split; try done. by intros [_ ?].
  - split; [done|]. by intros [? _].
Qed.

(** ** Sequences with one element inserted or removed *)

Lemma lookup_inserted (xs : list T) pos t i :
  pos ≤ length xs →
  (take pos xs ++ t :: drop pos xs) !! i =
    if decide (i < pos) then xs !! i
    else if decide (i = pos) then Some t else xs !! (i - 1).
Proof.
  intros Hpos. rewrite lookup_app, length_take.
  case_decide as Hlt.
  - rewrite lookup_take_lt by lia.
    destruct (xs !! i) eqn:Hx; [done|]. apply lookup_ge_None in Hx. lia.
  - rewrite lookup_take_ge by lia. replace (pos `min` length xs) with pos by lia.
    case_decide as Heq.
    + subst i. by rewrite Nat.sub_diag.
    + destruct (i - pos) as [|k] eqn:Hk; [lia|]. simpl.
      rewrite lookup_drop. f_equal. lia.
Qed.

Lemma length_inserted (xs : list T) pos t :
  pos ≤ length xs → length (take pos xs ++ t :: drop pos xs) = S (length xs).
Proof.
  intros Hpos. rewrite length_app, length_take. simpl. rewrite length_drop. lia.
Qed.

Lemma lookup_removed (xs : list T) pos i :
  pos < length xs →
  (take pos xs ++ drop (S pos) xs) !! i =
    if decide (i < pos) then xs !! i else xs !! (S i).
Proof.
  intros Hpos. rewrite lookup_app, length_take.
  case_decide as Hlt.
  - rewrite lookup_take_lt by lia.
    destruct (xs !! i) eqn:Hx; [done|]. apply lookup_ge_None in Hx. lia.
  - rewrite lookup_take_ge by lia. replace (pos `min` length xs) with pos by lia.
    rewrite lookup_drop. f_equal. lia.
Qed.

Lemma length_removed (xs : list T) pos :
  pos < length xs → length (take pos xs ++ drop (S pos) xs) = length xs - 1.
Proof.
  intros Hpos. rewrite length_app, length_take, length_drop. lia.
Qed.


(** ** Reallocating insertion *)

(* A block that holds the old elements around a new one at [pos]. *)
Lemma relocated_wf_elements v pos t nb newcap :
  wf v → addressable newcap →
  pos ≤ size_ v → S (size_ v) ≤ newcap → length nb = newcap →
  (∀ k, k < pos → nb !! k = buffer_ (data_ v) !! k) →
  nb !! pos = Some (Some t) →
  (∀ k, k < size_ v - pos → nb !! (pos + 1 + k) = buffer_ (data_ v) !! (pos + k)) →
  (∀ i, S (size_ v) ≤ i < newcap → nb !! i = Some None) →
  wf {| data_ := {| buffer_ := nb; capacity_ := newcap |}; size_ := S (size_ v) |}
  ∧ elements {| data_ := {| buffer_ := nb; capacity_ := newcap |}; size_ := S (size_ v) |}
    = take pos (elements v) ++ t :: drop pos (elements v).
Proof.
  intros Hwf Hmax Hpos Hcap Hlen Hbefore Hat Hafter Hfree.
  pose proof (length_elements v Hwf) as Hxs.
  assert (∀ i y, (take pos (elements v) ++ t :: drop pos (elements v)) !! i = Some y →
                 nb !! i = Some (Some y)) as Hys.
  { intros i y. rewrite lookup_inserted by lia.
    repeat case_decide; intros Hy.
    - rewrite Hbefore by done. by apply elements_lookup in Hy as [_ ?].
    - by simplify_eq.
    - apply elements_lookup in Hy as [Hlt Hy]; [|done].
      replace i with (pos + 1 + (i - 1 - pos)) by lia.
      rewrite Hafter by lia. rewrite <- Hy. f_equal. lia. }
  split.
  - apply wf_intro; simpl; [done|lia|done| |done].
    intros i Hi.
    destruct ((take pos (elements v) ++ t :: drop pos (elements v)) !! i) as [y|] eqn:Hy.
    + exists y. by apply Hys.
    + apply lookup_ge_None in Hy. rewrite length_inserted in Hy by lia. lia.
  - apply elements_intro; simpl; [|done]. rewrite length_inserted by lia. lia.
Qed.

Lemma Realocate_spec `{!ValueSemantics T} v pos args :
  wf v → pos ≤ size_ v →
  match Realocate v pos args with
  | Ret v' =>
      ∃ t, construct_from args = Some t
           ∧ wf v'
           ∧ size_ v' = S (size_ v)
           ∧ Capacity v' = (if bool_decide (size_ v = 0) then 1 else size_ v * 2)
           ∧ elements v' = take pos (elements v) ++ t :: drop pos (elements v)
  | Exn e v' =>
      size_ v' = size_ v ∧ Capacity v' = Capacity v
      ∧ (v' = v
         ∨ (is_Some (construct_from args)
            ∧ is_nothrow_move_constructible (T:=T) = false
            ∧ is_copy_constructible (T:=T) = false))
  | Fault => False
  end.
Proof.
  intros Hwf Hpos. unfold Realocate.
  set (newcap := if bool_decide (size_ v = 0) then 1 else size_ v * 2).
  assert (S (size_ v) ≤ newcap) as Hcap.
  { unfold newcap. case_bool_decide; lia. }
  pose proof (wf_growth_representable v Hwf) as Hrep. fold newcap in Hrep.
  destruct (RawMemory_new newcap) as [new_data|] eqn:Hnew; [|by auto].
  pose proof (RawMemory_new_addressable _ _ Hrep Hnew) as Hmax.
  apply RawMemory_new_spec in Hnew as ->; [|done].
  unfold RawMemory_index_ok. simpl.
  rewrite !bool_decide_eq_true_2 by (rewrite ?length_replicate; lia). simpl.
  destruct (construct_from args) as [t|] eqn:Hctor; [|by auto].
  set (old := buffer_ (data_ v)).
  set (nb := <[pos := Some t]> (replicate newcap None)).
  assert (length nb = newcap) as Hnb.
  { unfold nb. by rewrite length_insert, length_replicate. }
  assert (∀ k, k < pos → live old (0 + k)) as Hlive1.
  { intros k Hk. apply wf_live; [done|simpl; lia]. }
  assert (∀ i, i ≠ pos → i < newcap → nb !! i = Some None) as Hnone.
  { intros i ??. unfold nb. rewrite list_lookup_insert_ne by done.
    by apply lookup_replicate_2. }
  assert (nb !! pos = Some (Some t)) as Hat.
  { unfold nb. apply list_lookup_insert_eq. rewrite length_replicate. lia. }
  destruct relocate_by_move eqn:Hpolicy.
  - (* relocation by move *)
    unfold uninitialized_move, uninitialized_move_n.
    rewrite bool_decide_eq_true_2 by lia. rewrite Nat.sub_0_r.
    pose proof (uninitialized_move_loop_spec pos old 0 nb 0 0 Hlive1 ltac:(lia)) as H1.
    destruct (uninitialized_move_loop old 0 pos nb 0 0) as [[old1 nb1]|e [old1 ?]|];
      [|simpl|done].
    2:{ destruct H1 as [_ Hflag]. split_and!; [done..|]. right. split_and!; [done..|].
        unfold relocate_by_move in Hpolicy. rewrite Hflag in Hpolicy. simpl in Hpolicy.
        by destruct is_copy_constructible. }
    destruct H1 as (Hl1 & Hin1 & Hout1 & Hlo1 & Hlv1 & Hoo1).
    rewrite bool_decide_eq_true_2 by lia.
    assert (∀ k, k < size_ v - pos → live old1 (pos + k)) as Hlive2.
    { intros k Hk. unfold live. rewrite Hoo1 by lia. apply wf_live; [done|lia]. }
    pose proof (uninitialized_move_loop_spec (size_ v - pos) old1 pos nb1 (pos + 1) (pos + 1)
                  Hlive2 ltac:(lia)) as H2.
    destruct (uninitialized_move_loop old1 pos (size_ v - pos) nb1 (pos + 1) (pos + 1))
      as [[old2 nb2]|e [old2 ?]|]; [|simpl|done].
    2:{ destruct H2 as [_ Hflag]. split_and!; [done..|]. right. split_and!; [done..|].
        unfold relocate_by_move in Hpolicy. rewrite Hflag in Hpolicy. simpl in Hpolicy.
        by destruct is_copy_constructible. }
    destruct H2 as (Hl2 & Hin2 & Hout2 & _). simpl.
    exists t. split; [done|].
    destruct (relocated_wf_elements v pos t nb2 newcap Hwf Hmax Hpos Hcap) as [Hwf' Hel].
    { lia. }
    { intros k Hk. rewrite Hout2 by lia. apply (Hin1 k). lia. }
    { rewrite Hout2, Hout1 by lia. done. }
    { intros k Hk. rewrite Hin2 by lia. apply Hoo1. lia. }
    { intros i Hi. rewrite Hout2, Hout1 by lia. apply Hnone; lia. }
    done.
  - (* relocation by copy *)
    unfold uninitialized_copy, uninitialized_copy_n.
    rewrite bool_decide_eq_true_2 by lia. rewrite Nat.sub_0_r.
    pose proof (uninitialized_copy_loop_spec pos old 0 nb 0 0 Hlive1 ltac:(lia)) as H1.
    destruct (uninitialized_copy_loop old 0 pos nb 0 0) as [nb1|e ?|]; [|by auto|done].
    destruct H1 as (Hl1 & Hin1 & Hout1).
    rewrite bool_decide_eq_true_2 by lia.
    assert (∀ k, k < size_ v - pos → live old (pos + k)) as Hlive2.
    { intros k Hk. apply wf_live; [done|lia]. }
    pose proof (uninitialized_copy_loop_spec (size_ v - pos) old pos nb1 (pos + 1) (pos + 1)
                  Hlive2 ltac:(lia)) as H2.
    destruct (uninitialized_copy_loop old pos (size_ v - pos) nb1 (pos + 1) (pos + 1))
      as [nb2|e ?|]; [|by auto|done].
    destruct H2 as (Hl2 & Hin2 & Hout2). simpl.
    exists t. split; [done|].
    destruct (relocated_wf_elements v pos t nb2 newcap Hwf Hmax Hpos Hcap) as [Hwf' Hel].
    { lia. }
    { intros k Hk. rewrite Hout2 by lia. apply (Hin1 k). lia. }
    { rewrite Hout2, Hout1 by lia. done. }
    { intros k Hk. by rewrite Hin2 by lia. }
    { intros i Hi. rewrite Hout2, Hout1 by lia. apply Hnone; lia. }
    done.
Qed.

(** The two shifts, stated on the ranges they are called with. *)

Lemma std_move_backward_spec `{!ValueSemantics T} b first last d_last :
  first ≤ last → d_last = S last →
  (∀ i, first ≤ i ≤ last → live b i) →
  match std_move_backward b first last d_last with
  | Ret b' =>
      length b' = length b
      ∧ (∀ i, first ≤ i < last → b' !! S i = b !! i)
      ∧ live b' first
      ∧ (∀ i, i < first ∨ last < i → b' !! i = b !! i)
  | Exn e _ => e = element_exn
  | Fault => False
  end.
Proof.
  intros Hle -> Hlive. unfold std_move_backward.
  rewrite bool_decide_eq_true_2 by done.
  pose proof (move_backward_loop_spec (last - first) b first) as Hloop.
  replace (first + (last - first)) with last in Hloop by lia.
  destruct (move_backward_loop b (last - first) last (S last)) as [b'|e ?|].
  - destruct Hloop as (Hl & Hin & Hfirst & Hout).
    { intros k Hk. apply Hlive. lia. }
    split_and!; [done| |done|].
    + intros i Hi. replace i with (first + (i - first)) by lia.
      rewrite <- Hin by lia. f_equal. lia.
    + intros i Hi. apply Hout. lia.
  - apply Hloop. intros k Hk. apply Hlive. lia.
  - apply Hloop. intros k Hk. apply Hlive. lia.
Qed.

Lemma std_move_spec `{!ValueSemantics T} b first last d_first :
  first = S d_first → first ≤ last →
  (∀ i, d_first ≤ i < last → live b i) →
  match std_move b first last d_first with
  | Ret b' =>
      length b' = length b
      ∧ (∀ i, d_first ≤ i < last - 1 → b' !! i = b !! S i)
      ∧ live b' (last - 1)
      ∧ (∀ i, i < d_first ∨ last ≤ i → b' !! i = b !! i)
  | Exn e _ => e = element_exn
  | Fault => False
  end.
Proof.
  intros -> Hle Hlive. unfold std_move.
  rewrite bool_decide_eq_true_2 by done.
  pose proof (move_loop_spec (last - S d_first) b d_first) as Hloop.
  destruct (move_loop b (S d_first) (last - S d_first) d_first) as [b'|e ?|].
  - destruct Hloop as (Hl & Hin & Hend & Hout).
    { intros k Hk. apply Hlive. lia. }
    split_and!; [done| | |].
    + intros i Hi. replace i with (d_first + (i - d_first)) at 1 by lia.
      rewrite Hin by lia. f_equal. lia.
    + by replace (last - 1) with (d_first + (last - S d_first)) by lia.
    + intros i Hi. apply Hout. lia.
  - apply Hloop. intros k Hk. apply Hlive. lia.
  - apply Hloop. intros k Hk. apply Hlive. lia.
Qed.

Lemma move_last_to_end_spec `{!ValueSemantics T} v :
  wf v → 0 < size_ v < Capacity v →
  match move_last_to_end v with
  | Ret b1 =>
      length b1 = length (buffer_ (data_ v))
      ∧ b1 !! size_ v = buffer_ (data_ v) !! (size_ v - 1)
      ∧ live b1 (size_ v - 1)
      ∧ (∀ i, i ≠ size_ v → i ≠ size_ v - 1 → b1 !! i = buffer_ (data_ v) !! i)
  | Exn e _ => e = element_exn ∧ is_nothrow_move_constructible (T:=T) = false
  | Fault => False
  end.
Proof.
  intros Hwf Hsize. pose proof Hwf as (_ & Hlen & _). unfold Capacity in *.
  unfold move_last_to_end, RawMemory_index_ok.
  rewrite bool_decide_eq_true_2 by lia.
  destruct (wf_live v (size_ v - 1) Hwf ltac:(lia)) as [x Hx]. rewrite Hx.
  rewrite bool_decide_eq_true_2 by lia.
  destruct (move_construct x) as [[y|] x'] eqn:Hm.
  - apply move_construct_value in Hm as ->. rewrite !length_insert.
    split_and!; [done| | |].
    + apply list_lookup_insert_eq. rewrite length_insert. lia.
    + apply live_insert_ne; [lia|]. apply live_insert_eq. lia.
    + intros i ??. by rewrite !list_lookup_insert_ne.
  - split; [done|]. destruct (is_nothrow_move_constructible (T:=T)) eqn:Hflag; [|done].
    destruct (nothrow_move_constructible_sound x Hflag) as [? Hs].
    rewrite Hm in Hs. done.
Qed.

(** ** Insertion into spare capacity *)

Lemma Emplace_at_end_spec v args :
  wf v → size_ v < Capacity v →
  match Emplace_at_end v args with
  | Ret v' =>
      ∃ t, construct_from args = Some t
           ∧ wf v'
           ∧ size_ v' = S (size_ v)
           ∧ Capacity v' = Capacity v
           ∧ elements v' = take (size_ v) (elements v) ++ t :: drop (size_ v) (elements v)
  | Exn e v' => v' = v ∧ construct_from args = None
  | Fault => False
  end.
Proof.
  intros Hwf Hsize. pose proof Hwf as (_ & Hlen & _). unfold Capacity in *.
  unfold Emplace_at_end. rewrite bool_decide_eq_true_2 by lia.
  destruct (construct_from args) as [t|]; [|done].
  exists t. split; [done|]. simpl.
  destruct (relocated_wf_elements v (size_ v) t
              (<[size_ v := Some t]> (buffer_ (data_ v))) (capacity_ (data_ v)) Hwf
              (wf_addressable v Hwf))
    as [Hwf' Hel]; [lia|lia| | | | | |done].
  - rewrite length_insert. done.
  - intros k Hk. apply list_lookup_insert_ne. lia.
  - apply list_lookup_insert_eq. lia.
  - intros k Hk. lia.
  - intros i Hi. rewrite list_lookup_insert_ne by lia. apply wf_free; [done|].
    unfold Capacity. lia.
Qed.

Lemma Emplace_shift_spec `{!ValueSemantics T} v pos args :
  wf v → pos < size_ v → size_ v < Capacity v →
  match Emplace_shift v pos args with
  | Ret v' =>
      ∃ t, construct_from args = Some t
           ∧ wf v'
           ∧ size_ v' = S (size_ v)
           ∧ Capacity v' = Capacity v
           ∧ elements v' = take pos (elements v) ++ t :: drop pos (elements v)
  | Exn e v' => e = element_exn ∧ size_ v' = size_ v ∧ Capacity v' = Capacity v
  | Fault => False
  end.
Proof.
  intros Hwf Hpos Hsize. pose proof Hwf as (_ & Hlen & _). unfold Capacity in *.
  unfold Emplace_shift.
  destruct (construct_from args) as [t|]; [|done].
  pose proof (move_last_to_end_spec v Hwf ltac:(unfold Capacity; lia)) as H1.
  destruct (move_last_to_end v) as [b1|e ?|]; [|by destruct H1|done].
  destruct H1 as (Hl1 & Hend1 & Hlast1 & Hout1).
  pose proof (std_move_backward_spec b1 pos (size_ v - 1) (size_ v)) as H2.
  destruct (std_move_backward b1 pos (size_ v - 1) (size_ v)) as [b2|e ?|].
  2:{ split_and!; [|done..]. apply H2; [lia..|].
      intros i Hi. destruct (decide (i = size_ v - 1)) as [->|]; [done|].
      unfold live. rewrite Hout1 by lia. apply wf_live; [done|lia]. }
  2:{ apply H2; [lia..|].
      intros i Hi. destruct (decide (i = size_ v - 1)) as [->|]; [done|].
      unfold live. rewrite Hout1 by lia. apply wf_live; [done|lia]. }
  destruct H2 as (Hl2 & Hin2 & Hpos2 & Hout2); [lia..| |].
  { intros i Hi. destruct (decide (i = size_ v - 1)) as [->|]; [done|].
    unfold live. rewrite Hout1 by lia. apply wf_live; [done|lia]. }
  pose proof (move_assign_from_spec b2 pos t Hpos2) as H3.
  destruct (move_assign_from b2 pos t) as [b3|e ?|]; [|done..].
  destruct H3 as (Hl3 & Hat3 & Hout3).
  exists t. split; [done|]. simpl.
  destruct (relocated_wf_elements v pos t b3 (capacity_ (data_ v)) Hwf
              (wf_addressable v Hwf))
    as [Hwf' Hel]; [lia|lia| | | | | |done].
  - congruence.
  - intros k Hk. rewrite Hout3, Hout2, Hout1 by lia. done.
  - done.
  - intros k Hk. rewrite Hout3 by lia.
    destruct (decide (pos + k = size_ v - 1)) as [Heq|Hne].
    + replace (pos + 1 + k) with (size_ v) by lia.
      rewrite Hout2, Hend1 by lia. f_equal. lia.
    + replace (pos + 1 + k) with (S (pos + k)) by lia.
      rewrite Hin2 by lia. apply Hout1; lia.
  - intros i Hi. rewrite Hout3, Hout2, Hout1 by lia.
    apply wf_free; [done|]. unfold Capacity. lia.
Qed.

Lemma Emplace_spec `{!ValueSemantics T} v pos args :
  wf v → pos ≤ size_ v →
  match Emplace v pos args with
  | Ret v' =>
      ∃ t, construct_from args = Some t
           ∧ wf v'
           ∧ size_ v' = S (size_ v)
           ∧ elements v' = take pos (elements v) ++ t :: drop pos (elements v)
  | Exn e v' => size_ v' = size_ v ∧ Capacity v' = Capacity v
  | Fault => False
  end.
Proof.
  intros Hwf Hpos. pose proof Hwf as (Hle & _). unfold Emplace.
  rewrite bool_decide_eq_true_2 by done.
  case_bool_decide as Hfull.
  - pose proof (Realocate_spec v pos args Hwf Hpos) as HR.
    destruct (Realocate v pos args); [|by destruct HR as (? & ? & _)|done].
    destruct HR as (t & ? & ? & ? & ? & ?). eauto 10.
  - case_bool_decide as Hend.
    + subst pos. pose proof (Emplace_at_end_spec v args Hwf ltac:(lia)) as HE.
      destruct (Emplace_at_end v args); [|by destruct HE as [-> _]|done].
      destruct HE as (t & ? & ? & ? & ? & ?). eauto 10.
    + pose proof (Emplace_shift_spec v pos args Hwf ltac:(lia) ltac:(lia)) as HE.
      destruct (Emplace_shift v pos args); [|by destruct HE as (_ & ? & ?)|done].
      destruct HE as (t & ? & ? & ? & ? & ?). eauto 10.
Qed.

(** With a non-throwing element type only [operator new] can fail. *)

Lemma construct_from_nothrow `{!NoThrow T} args : is_Some (construct_from args).
Proof.
  destruct args; simpl;
    [apply construct_nothrow|apply copy_construct_nothrow|apply move_construct_nothrow].
Qed.

Lemma Realocate_nothrow `{!NoThrow T} v pos args e v' :
  Realocate v pos args = Exn e v' →
  e = bad_alloc ∧ v' = v
  ∧ RawMemory_new (if bool_decide (size_ v = 0) then 1 else size_ v * 2) = None.
Proof.
  unfold Realocate.
  destruct (RawMemory_new _) as [new_data|]; [|by intros [= <- <-]].
  destruct (RawMemory_index_ok _ _ && _); [|done].
  destruct (construct_from_nothrow args) as [t ->].
  destruct relocate_by_move.
  - unfold uninitialized_move, uninitialized_move_n.
    case_bool_decide; [|done].
    destruct (uninitialized_move_loop _ _ _ _ _ _) as [[old1 nb1]|e1 [old1 ?]|] eqn:Hr1;
      [|by apply uninitialized_move_loop_nothrow in Hr1|done].
    case_bool_decide; [|done].
    destruct (uninitialized_move_loop old1 _ _ _ _ _) as [[old2 nb2]|e2 [old2 ?]|] eqn:Hr2;
      [done|by apply uninitialized_move_loop_nothrow in Hr2|done].
  - unfold uninitialized_copy, uninitialized_copy_n.
    case_bool_decide; [|done].
    destruct (uninitialized_copy_loop _ _ _ _ _ _) as [nb1|e1 ?|] eqn:Hr1;
      [|by apply uninitialized_copy_loop_nothrow in Hr1|done].
    case_bool_decide; [|done].
    destruct (uninitialized_copy_loop _ _ _ nb1 _ _) as [nb2|e2 ?|] eqn:Hr2;
      [done|by apply uninitialized_copy_loop_nothrow in Hr2|done].
Qed.

Lemma Emplace_nothrow `{!NoThrow T} v pos args e v' :
  Emplace v pos args = Exn e v' →
  e = bad_alloc ∧ v' = v ∧ size_ v = Capacity v
  ∧ RawMemory_new (if bool_decide (size_ v = 0) then 1 else size_ v * 2) = None.
Proof.
  unfold Emplace. case_bool_decide; [|done].
  case_bool_decide as Hfull.
  { intros HR. apply Realocate_nothrow in HR as (-> & -> & ?). done. }
  case_bool_decide.
  - unfold Emplace_at_end. case_bool_decide; [|done].
    by destruct (construct_from_nothrow args) as [t ->].
  - unfold Emplace_shift. destruct (construct_from_nothrow args) as [t ->].
    destruct (move_last_to_end v) as [b1|e1 ?|] eqn:Hlast; [| |done].
    2:{ unfold move_last_to_end in Hlast.
        destruct (RawMemory_index_ok _ _); [|done].
        destruct (_ !! _) as [[x|]|]; [|done..].
        case_bool_decide; [|done].
        destruct (move_construct_nothrow x) as [y Hy].
        destruct (move_construct x) as [o x']. simpl in Hy. by subst o. }
    unfold std_move_backward. case_bool_decide; [|done].
    destruct (move_backward_loop _ _ _ _) as [b2|e2 ?|] eqn:Hshift;
      [|by apply move_backward_loop_nothrow in Hshift|done].
    destruct (move_assign_from _ _ _) as [b3|e3 ?|] eqn:Hassign;
      [done|by apply move_assign_from_nothrow in Hassign|done].
Qed.

Lemma Emplace_returns `{!ValueSemantics T} `{!NoThrow T} v pos args :
  wf v → pos ≤ size_ v →
  (size_ v = Capacity v →
   can_allocate (if bool_decide (size_ v = 0) then 1 else size_ v * 2) = true) →
  ∃ v', Emplace v pos args = Ret v'.
Proof.
  intros Hwf Hpos Halloc. pose proof (Emplace_spec v pos args Hwf Hpos) as HE.
  destruct (Emplace v pos args) as [v'|e v'|] eqn:Hr; [by eauto| |done].
  apply Emplace_nothrow in Hr as (_ & _ & Hfull & Hnew).
  destruct (RawMemory_new_can_allocate _ (Halloc Hfull)) as [m Hm]. congruence.
Qed.

(** ** Removal *)

Lemma PopBack_spec v :
  wf v → size_ v ≠ 0 →
  ∃ v', PopBack v = Ret v'
        ∧ wf v'
        ∧ size_ v' = size_ v - 1
        ∧ Capacity v' = Capacity v
        ∧ elements v' = take (size_ v - 1) (elements v).
Proof.
  intros Hwf Hsize. pose proof Hwf as (Hle & Hlen & _). unfold Capacity in *.
  unfold PopBack. rewrite bool_decide_eq_true_2 by done.
  eexists. split; [done|]. unfold destroy_at.
  pose proof (length_elements v Hwf) as Hxs.
  split_and!; [|done..|].
  - apply wf_intro; simpl.
    + by apply wf_addressable.
    + lia.
    + by rewrite length_insert.
    + intros i Hi. apply live_insert_ne; [lia|]. apply wf_live; [done|lia].
    + intros i Hi. destruct (decide (i = size_ v - 1)) as [->|Hne].
      * apply list_lookup_insert_eq. lia.
      * rewrite list_lookup_insert_ne by done. apply wf_free; [done|].
        unfold Capacity. lia.
  - apply elements_intro; simpl.
    + rewrite length_take. lia.
    + intros i y Hy. apply lookup_take_Some in Hy as [Hy Hi].
      rewrite list_lookup_insert_ne by lia. by apply elements_lookup in Hy as [_ ?].
Qed.

Lemma Erase_spec `{!ValueSemantics T} v pos :
  wf v → pos < size_ v →
  match Erase v pos with
  | Ret v' =>
      wf v'
      ∧ size_ v' = size_ v - 1
      ∧ Capacity v' = Capacity v
      ∧ elements v' = take pos (elements v) ++ drop (S pos) (elements v)
  | Exn e v' => e = element_exn ∧ size_ v' = size_ v ∧ Capacity v' = Capacity v
  | Fault => False
  end.
Proof.
  intros Hwf Hpos. pose proof Hwf as (Hle & Hlen & _). unfold Capacity in *.
  unfold Erase. rewrite !bool_decide_eq_true_2 by lia.
  pose proof (std_move_spec (buffer_ (data_ v)) (pos + 1) (size_ v) pos
                ltac:(lia) ltac:(lia)) as HS.
  destruct (std_move _ _ _ _) as [b|e ?|].
  2:{ split_and!; [|done..]. apply HS. intros i Hi. apply wf_live; [done|lia]. }
  2:{ apply HS. intros i Hi. apply wf_live; [done|lia]. }
  destruct HS as (Hl & Hin & Hlast & Hout).
  { intros i Hi. apply wf_live; [done|lia]. }
  unfold PopBack. simpl. rewrite bool_decide_eq_true_2 by lia.
  unfold destroy_at. simpl.
  pose proof (length_elements v Hwf) as Hxs.
  assert (∀ i y, (take pos (elements v) ++ drop (S pos) (elements v)) !! i = Some y →
                 b !! i = Some (Some y)) as Hys.
  { intros i y. rewrite lookup_removed by lia. case_decide; intros Hy.
    - rewrite Hout by lia. by apply elements_lookup in Hy as [_ ?].
    - apply elements_lookup in Hy as [Hlt Hy]; [|done].
      rewrite Hin by lia. done. }
  split_and!; [|done..|].
  - apply wf_intro; simpl.
    + by apply wf_addressable.
    + lia.
    + rewrite length_insert. congruence.
    + intros i Hi. apply live_insert_ne; [lia|].
      destruct ((take pos (elements v) ++ drop (S pos) (elements v)) !! i) as [y|] eqn:Hy.
      * exists y. by apply Hys.
      * apply lookup_ge_None in Hy. rewrite length_removed in Hy by lia. lia.
    + intros i Hi. destruct (decide (i = size_ v - 1)) as [->|Hne].
      * apply list_lookup_insert_eq. lia.
      * rewrite list_lookup_insert_ne by done. rewrite Hout by lia.
        apply wf_free; [done|]. unfold Capacity. lia.
  - apply elements_intro; simpl.
    + rewrite length_removed by lia. lia.
    + intros i y Hy. pose proof (lookup_lt_Some _ _ _ Hy) as Hi.
      rewrite length_removed in Hi by lia.
      rewrite list_lookup_insert_ne by lia. by apply Hys.
Qed.

Lemma Erase_nothrow `{!NoThrow T} v pos e v' : Erase v pos ≠ Exn e v'.
Proof.
  unfold Erase. case_bool_decide; [|done]. case_bool_decide; [|done].
  unfold std_move. case_bool_decide; [|done].
  destruct (move_loop _ _ _ _) as [b|e1 ?|] eqn:Hshift;
    [|by apply move_loop_nothrow in Hshift|done].
  unfold PopBack. by case_bool_decide.
Qed.

(** ** Blocks that hold the elements of a given vector *)

Lemma holds_elements_of rhs nb newcap :
  wf rhs → addressable newcap → size_ rhs ≤ newcap → length nb = newcap →
  (∀ k, k < size_ rhs → nb !! k = buffer_ (data_ rhs) !! k) →
  (∀ i, size_ rhs ≤ i < newcap → nb !! i = Some None) →
  wf {| data_ := {| buffer_ := nb; capacity_ := newcap |}; size_ := size_ rhs |}
  ∧ elements {| data_ := {| buffer_ := nb; capacity_ := newcap |}; size_ := size_ rhs |}
    = elements rhs.
Proof.
  intros Hwf Hmax Hcap Hlen Hin Hfree. split.
  - apply wf_intro; simpl; [done..| |done].
    intros i Hi. unfold live. rewrite Hin by done. by apply wf_live.
  - apply elements_intro; simpl; [by apply length_elements|].
    intros i y Hy. apply elements_lookup in Hy as [Hi Hy]; [|done].
    by rewrite Hin.
Qed.

(* The same for a block of whatever length under whatever [capacity_] *)
Lemma same_elements_of rhs nb cap :
  wf rhs →
  (∀ k, k < size_ rhs → nb !! k = buffer_ (data_ rhs) !! k) →
  elements {| data_ := {| buffer_ := nb; capacity_ := cap |}; size_ := size_ rhs |}
  = elements rhs.
Proof.
  intros Hwf Hin. apply elements_intro; simpl; [by apply length_elements|].
  intros i y Hy. apply elements_lookup in Hy as [Hi Hy]; [|done].
  by rewrite Hin.
Qed.

(* A loop that returns has found room for every object it constructed, and
   a relocation by move throws only if the move constructor may throw. *)
Lemma uninitialized_copy_loop_room n :
  ∀ src first dst d_first cur dst',
    uninitialized_copy_loop src first n dst d_first cur = Ret dst' →
    n = 0 ∨ cur + n ≤ length dst.
Proof.
  induction n as [|n IH]; intros src first dst d_first cur dst'; simpl; [by left|].
  destruct (src !! first) as [[x|]|]; [|done..].
  case_bool_decide as Hcur; [|done].
  destruct (copy_construct x) as [y|]; [|done].
  intros Hloop. apply IH in Hloop. rewrite length_insert in Hloop. lia.
Qed.

Lemma uninitialized_move_loop_room n :
  ∀ src first dst d_first cur r,
    uninitialized_move_loop src first n dst d_first cur = Ret r →
    n = 0 ∨ cur + n ≤ length dst.
Proof.
  induction n as [|n IH]; intros src first dst d_first cur r; simpl; [by left|].
  destruct (src !! first) as [[x|]|]; [|done..].
  case_bool_decide as Hcur; [|done].
  destruct (move_construct x) as [[y|] x']; [|done].
  intros Hloop. apply IH in Hloop. rewrite length_insert in Hloop. lia.
Qed.

Lemma uninitialized_value_construct_loop_room n :
  ∀ b first cur b',
    uninitialized_value_construct_loop b first cur n = Ret b' →
    n = 0 ∨ cur + n ≤ length b.
Proof.
  induction n as [|n IH]; intros b first cur b'; simpl; [by left|].
  case_bool_decide as Hcur; [|done].
  destruct (value_construct (T:=T)) as [x|]; [|done].
  intros Hloop. apply IH in Hloop. rewrite length_insert in Hloop. lia.
Qed.

Lemma uninitialized_move_loop_throws `{!ValueSemantics T} n :
  ∀ src first dst d_first cur e s,
    uninitialized_move_loop src first n dst d_first cur = Exn e s →
    e = element_exn ∧ is_nothrow_move_constructible (T:=T) = false.
Proof.
  induction n as [|n IH]; intros src first dst d_first cur e s; simpl; [done|].
  destruct (src !! first) as [[x|]|]; [|done..].
  case_bool_decide as Hcur; [|done].
  destruct (move_construct x) as [[y|] x'] eqn:Hm; [apply IH|].
  intros [= <- _]. split; [done|].
  destruct (is_nothrow_move_constructible (T:=T)) eqn:Hflag; [|done].
  destruct (nothrow_move_constructible_sound x Hflag) as [? Hs].
  rewrite Hm in Hs. done.
Qed.

Lemma Reserve_spec `{!ValueSemantics T} v new_capacity :
  wf v →
  match Reserve v new_capacity with
  | Ret v' =>
      (representable new_capacity → wf v')
      ∧ size_ v' = size_ v ∧ elements v' = elements v
      ∧ (if bool_decide (new_capacity ≤ Capacity v) then v' = v
         else Capacity v' = new_capacity)
      ∧ (∀ i, size_ v ≤ i < length (buffer_ (data_ v')) →
           buffer_ (data_ v') !! i = Some None)
      ∧ (new_capacity ≤ length (buffer_ (data_ v')) → representable new_capacity)
  | Exn e v' =>
      Capacity v < new_capacity ∧ size_ v' = size_ v ∧ Capacity v' = Capacity v
      ∧ ((e = bad_alloc ∧ RawMemory_new new_capacity = None ∧ v' = v)
         ∨ (e = element_exn
            ∧ is_nothrow_move_constructible (T:=T) = false
            ∧ (is_copy_constructible (T:=T) = true → v' = v)))
  | Fault => ¬ representable new_capacity
  end.
Proof.
  intros Hwf. pose proof Hwf as (Hle & Hlen & _ & Hmax). unfold Reserve.
  case_bool_decide as Hfit.
  { assert (representable new_capacity) as Hrep.
    { apply (representable_le _ (Capacity v)); [done|].
      by apply addressable_representable. }
    split_and!; [done..| |done].
    intros i Hi. apply wf_free; [done|lia]. }
  destruct (RawMemory_new new_capacity) as [new_data|] eqn:Hnew.
  2:{ split_and!; [lia|done..|by left]. }
  pose proof Hnew as Hshape. apply RawMemory_new_shape in Hshape as [-> _]. simpl.
  set (slots := block_slots (byte_size new_capacity)).
  assert (representable new_capacity → slots = new_capacity ∧ addressable new_capacity)
    as Hslots.
  { intros Hrep. split; [by apply block_slots_representable|].
    by eapply RawMemory_new_addressable. }
  assert (new_capacity ≤ slots → representable new_capacity) as Hwhole.
  { intros Hall. destruct (representable_dec new_capacity) as [|Hover]; [done|].
    apply block_slots_overflow in Hover. fold slots in Hover. lia. }
  assert (∀ k, k < size_ v → live (buffer_ (data_ v)) (0 + k)) as Hlive.
  { intros k Hk. by apply wf_live. }
  destruct relocate_by_move eqn:Hpolicy.
  - unfold uninitialized_move_n.
    pose proof (uninitialized_move_loop_spec (size_ v) (buffer_ (data_ v)) 0
                  (replicate slots None) 0 0 Hlive) as HM.
    rewrite length_replicate in HM.
    destruct (uninitialized_move_loop _ _ _ _ _ _) as [[old b]|e [old ?]|] eqn:Hloop.
    + apply uninitialized_move_loop_room in Hloop. rewrite length_replicate in Hloop.
      destruct (HM ltac:(lia)) as (Hl & Hin & Hout & _). simpl.
      split_and!; [|done| | | |by rewrite Hl].
      * intros Hrep. destruct (Hslots Hrep) as [Heq Hadd]. rewrite Heq in *.
        apply (holds_elements_of v b new_capacity Hwf); [done|lia|done| |].
        -- intros k Hk. apply (Hin k Hk).
        -- intros i Hi. rewrite Hout by lia. apply lookup_replicate_2. lia.
      * apply (same_elements_of v b new_capacity Hwf). intros k Hk. apply (Hin k Hk).
      * done.
      * intros i Hi. rewrite Hout by lia. apply lookup_replicate_2. lia.
    + apply uninitialized_move_loop_throws in Hloop as [-> Hflag]. simpl.
      split_and!; [lia|done..|]. right.
      split_and!; [done..|]. unfold relocate_by_move in Hpolicy. rewrite Hflag in Hpolicy.
      simpl in Hpolicy. by destruct is_copy_constructible.
    + intros Hrep. destruct (Hslots Hrep) as [Heq _]. apply HM. lia.
  - unfold uninitialized_copy_n.
    pose proof (uninitialized_copy_loop_spec (size_ v) (buffer_ (data_ v)) 0
                  (replicate slots None) 0 0 Hlive) as HC.
    rewrite length_replicate in HC.
    destruct (uninitialized_copy_loop _ _ _ _ _ _) as [b|e ?|] eqn:Hloop.
    + apply uninitialized_copy_loop_room in Hloop. rewrite length_replicate in Hloop.
      destruct (HC ltac:(lia)) as (Hl & Hin & Hout). simpl.
      split_and!; [|done| | | |by rewrite Hl].
      * intros Hrep. destruct (Hslots Hrep) as [Heq Hadd]. rewrite Heq in *.
        apply (holds_elements_of v b new_capacity Hwf); [done|lia|done| |].
        -- intros k Hk. apply (Hin k Hk).
        -- intros i Hi. rewrite Hout by lia. apply lookup_replicate_2. lia.
      * apply (same_elements_of v b new_capacity Hwf). intros k Hk. apply (Hin k Hk).
      * done.
      * intros i Hi. rewrite Hout by lia. apply lookup_replicate_2. lia.
    + apply uninitialized_copy_loop_exn_kind in Hloop as ->.
      split_and!; [lia|done..|]. right. split_and!; [done| |done].
      unfold relocate_by_move in Hpolicy. by destruct is_nothrow_move_constructible.
    + intros Hrep. destruct (Hslots Hrep) as [Heq _]. apply HC. lia.
Qed.

Lemma Reserve_nothrow `{!NoThrow T} v new_capacity e v' :
  Reserve v new_capacity = Exn e v' →
  e = bad_alloc ∧ v' = v ∧ RawMemory_new new_capacity = None.
Proof.
  unfold Reserve. case_bool_decide; [done|].
  destruct (RawMemory_new new_capacity) as [new_data|]; [|by intros [= <- <-]].
  destruct relocate_by_move.
  - unfold uninitialized_move_n.
    destruct (uninitialized_move_loop _ _ _ _ _ _) as [[old b]|e1 [old ?]|] eqn:Hr;
      [done|by apply uninitialized_move_loop_nothrow in Hr|done].
  - unfold uninitialized_copy_n.
    destruct (uninitialized_copy_loop _ _ _ _ _ _) as [b|e1 ?|] eqn:Hr;
      [done|by apply uninitialized_copy_loop_nothrow in Hr|done].
Qed.

(* When the byte count of the request wraps around and the block obtained
   is too small for the elements, their relocation writes past its end. *)
Lemma Reserve_overflow `{!NoThrow T} v new_capacity :
  Capacity v < new_capacity → can_allocate new_capacity = true →
  block_slots (byte_size new_capacity) < size_ v →
  Reserve v new_capacity = Fault.
Proof.
  intros Hgrow Halloc Hsmall. unfold Reserve. rewrite bool_decide_eq_false_2 by lia.
  destruct (RawMemory_new_can_allocate _ Halloc) as [new_data Hnew]. rewrite Hnew.
  apply RawMemory_new_shape in Hnew as [-> _]. simpl.
  destruct relocate_by_move.
  - unfold uninitialized_move_n.
    destruct (uninitialized_move_loop _ _ _ _ _ _) as [[old b]|e [old ?]|] eqn:Hloop;
      [|by apply uninitialized_move_loop_nothrow in Hloop|done].
    apply uninitialized_move_loop_room in Hloop. rewrite length_replicate in Hloop. lia.
  - unfold uninitialized_copy_n.
    destruct (uninitialized_copy_loop _ _ _ _ _ _) as [b|e ?|] eqn:Hloop;
      [|by apply uninitialized_copy_loop_nothrow in Hloop|done].
    apply uninitialized_copy_loop_room in Hloop. rewrite length_replicate in Hloop. lia.
Qed.

(** ** Copy construction and copy assignment *)

Lemma Vector_copy_spec `{!ValueSemantics T} other :
  wf other →
  match Vector_copy other with
  | Ret v' =>
      wf v' ∧ size_ v' = size_ other ∧ Capacity v' = size_ other
      ∧ elements v' = elements other
  | Exn e _ => True
  | Fault => False
  end.
Proof.
  intros Hwf. unfold Vector_copy.
  assert (representable (size_ other)) as Hrep by (apply (wf_representable other); [done|lia]).
  destruct (RawMemory_new (size_ other)) as [data|] eqn:Hnew; [|done].
  pose proof (RawMemory_new_addressable _ _ Hrep Hnew) as Hmax.
  apply RawMemory_new_spec in Hnew as ->; [|done]. simpl. unfold uninitialized_copy_n.
  assert (∀ k, k < size_ other → live (buffer_ (data_ other)) (0 + k)) as Hlive.
  { intros k Hk. by apply wf_live. }
  pose proof (uninitialized_copy_loop_spec (size_ other) (buffer_ (data_ other)) 0
                (replicate (size_ other) None) 0 0 Hlive) as HC.
  rewrite length_replicate in HC. specialize (HC ltac:(lia)).
  destruct (uninitialized_copy_loop _ _ _ _ _ _) as [b|e ?|]; [|done..].
  destruct HC as (Hl & Hin & Hout). simpl.
  destruct (holds_elements_of other b (size_ other) Hwf Hmax) as [Hwf' Hel]; [lia| | | |done].
  - exact Hl.
  - intros k Hk. apply (Hin k Hk).
  - intros i Hi. lia.
Qed.

Lemma Vector_copy_nothrow `{!NoThrow T} other e u :
  Vector_copy other = Exn e u → e = bad_alloc ∧ RawMemory_new (size_ other) = None.
Proof.
  unfold Vector_copy.
  destruct (RawMemory_new (size_ other)) as [data|]; [|by intros [= <-]].
  unfold uninitialized_copy_n.
  destruct (uninitialized_copy_loop _ _ _ _ _ _) as [b|e1 ?|] eqn:Hr;
    [done|by apply uninitialized_copy_loop_nothrow in Hr|done].
Qed.

Lemma length_destroy b first last : length (destroy b first last) = length b.
Proof. apply length_destroy_n. Qed.

Lemma AllocateOnCapacity_spec `{!ValueSemantics T} this rhs :
  wf this → wf rhs → size_ rhs ≤ Capacity this →
  match AllocateOnCapacity this rhs with
  | Ret v' =>
      wf v' ∧ size_ v' = size_ rhs ∧ Capacity v' = Capacity this
      ∧ elements v' = elements rhs
  | Exn e v' => e = element_exn ∧ size_ v' = size_ this ∧ Capacity v' = Capacity this
  | Fault => False
  end.
Proof.
  intros Hthis Hrhs Hfit. pose proof Hthis as (Hle & Hlen & _).
  unfold Capacity in *. unfold AllocateOnCapacity, std_copy.
  rewrite bool_decide_eq_true_2 by lia. rewrite Nat.sub_0_r.
  set (src := buffer_ (data_ rhs)) in *. set (dst := buffer_ (data_ this)) in *.
  assert (∀ k, k < size_ this `min` size_ rhs → live src (0 + k)) as Hsrc.
  { intros k Hk. apply wf_live; [done|simpl; lia]. }
  assert (∀ k, k < size_ this `min` size_ rhs → live dst (0 + k)) as Hdst.
  { intros k Hk. apply wf_live; [done|simpl; lia]. }
  pose proof (copy_loop_spec _ src 0 dst 0 Hsrc Hdst) as HC.
  destruct (copy_loop src 0 _ dst 0) as [b|e ?|]; [|done..].
  destruct HC as (Hl & Hin & Hout).
  case_bool_decide as Hshrink.
  - destruct (holds_elements_of rhs (destroy b (size_ rhs) (size_ this))
                (capacity_ (data_ this)) Hrhs (wf_addressable this Hthis))
      as [Hwf' Hel]; [lia| | | |done].
    + rewrite length_destroy. congruence.
    + intros k Hk. unfold destroy. rewrite lookup_destroy_n_out by lia.
      apply (Hin k). lia.
    + intros i Hi. unfold destroy.
      destruct (decide (i < size_ this)).
      * apply lookup_destroy_n_in; [lia|]. rewrite Hl. lia.
      * rewrite lookup_destroy_n_out, Hout by lia.
        apply (wf_free this); [done|]. unfold Capacity. lia.
  - unfold uninitialized_copy, uninitialized_copy_n.
    rewrite bool_decide_eq_true_2 by lia.
    assert (∀ k, k < size_ rhs - size_ this → live src (size_ this + k)) as Hsrc2.
    { intros k Hk. apply wf_live; [done|lia]. }
    pose proof (uninitialized_copy_loop_spec _ src (size_ this) b (size_ this) (size_ this)
                  Hsrc2) as HU.
    rewrite Hl in HU. specialize (HU ltac:(lia)).
    destruct (uninitialized_copy_loop _ _ _ _ _ _) as [b'|e ?|]; [|done..].
    destruct HU as (Hl' & Hin' & Hout').
    destruct (holds_elements_of rhs b' (capacity_ (data_ this)) Hrhs
                (wf_addressable this Hthis))
      as [Hwf' Hel]; [lia| | | |done].
    + lia.
    + intros k Hk. destruct (decide (k < size_ this)).
      * rewrite Hout' by lia. apply (Hin k). lia.
      * replace k with (size_ this + (k - size_ this)) by lia. apply Hin'. lia.
    + intros i Hi. rewrite Hout', Hout by lia.
      apply (wf_free this); [done|]. unfold Capacity. lia.
Qed.

Lemma swap_RawMemory_spec (a b : RawMemory) : swap_RawMemory a b = (b, a).
Proof. by destruct a, b. Qed.

Lemma Swap_spec (this other : Vector) : Swap this other = (other, this).
Proof.
  unfold Swap. rewrite swap_RawMemory_spec. by destruct this, other.
Qed.

Lemma Vector_move_spec (other : Vector) :
  Vector_move other = (other, Vector_default).
Proof. by destruct other as [[] ?]. Qed.

Lemma AllocateOnCapacity_nothrow `{!NoThrow T} this rhs e v' :
  AllocateOnCapacity this rhs ≠ Exn e v'.
Proof.
  unfold AllocateOnCapacity, std_copy. case_bool_decide; [|done].
  destruct (copy_loop _ _ _ _ _) as [b|e1 ?|] eqn:Hr;
    [|by apply copy_loop_nothrow in Hr|done].
  case_bool_decide; [done|].
  unfold uninitialized_copy, uninitialized_copy_n. case_bool_decide; [|done].
  destruct (uninitialized_copy_loop _ _ _ _ _ _) as [b'|e2 ?|] eqn:Hr2;
    [done|by apply uninitialized_copy_loop_nothrow in Hr2|done].
Qed.

Lemma copy_assign_body_spec `{!ValueSemantics T} this rhs :
  wf this → wf rhs →
  match copy_assign_body this rhs with
  | Ret v' =>
      wf v' ∧ elements v' = elements rhs ∧ size_ v' = size_ rhs
      ∧ Capacity v' = (if bool_decide (Capacity this < size_ rhs) then size_ rhs
                       else Capacity this)
  | Exn e v' =>
      size_ v' = size_ this ∧ Capacity v' = Capacity this
      ∧ (Capacity this < size_ rhs → v' = this)
  | Fault => False
  end.
Proof.
  intros Hthis Hrhs. unfold copy_assign_body. case_bool_decide as Hbig.
  - pose proof (Vector_copy_spec rhs Hrhs) as HC.
    destruct (Vector_copy rhs) as [rhs_copy|e ?|]; [|done..].
    rewrite Swap_spec. simpl. by destruct HC as (? & ? & ? & ?).
  - pose proof (AllocateOnCapacity_spec this rhs Hthis Hrhs ltac:(lia)) as HA.
    destruct (AllocateOnCapacity this rhs) as [v'|e v'|]; [|split_and!; [apply HA..|lia]|done].
    destruct HA as (? & ? & ? & ?). done.
Qed.

Lemma copy_assign_body_nothrow `{!NoThrow T} this rhs e v' :
  copy_assign_body this rhs = Exn e v' →
  e = bad_alloc ∧ Capacity this < size_ rhs ∧ RawMemory_new (size_ rhs) = None.
Proof.
  unfold copy_assign_body. case_bool_decide as Hbig.
  - destruct (Vector_copy rhs) as [rhs_copy|e1 u|] eqn:HC; [done| |done].
    apply Vector_copy_nothrow in HC as [-> ?]. by intros [= <- <-].
  - intros HA. by apply AllocateOnCapacity_nothrow in HA.
Qed.

(** ** Sized construction and resizing *)

Lemma Vector_sized_spec size :
  match Vector_sized size with
  | Ret v' => wf v' ∧ size_ v' = size ∧ Capacity v' = size
  | Exn e _ => True
  | Fault => ¬ representable size
  end.
Proof.
  unfold Vector_sized.
  destruct (RawMemory_new size) as [data|] eqn:Hnew; [|done].
  pose proof Hnew as Hshape. apply RawMemory_new_shape in Hshape as [-> _]. simpl.
  set (slots := block_slots (byte_size size)).
  assert (size ≤ slots → representable size) as Hwhole.
  { intros Hall. destruct (representable_dec size) as [|Hover]; [done|].
    apply block_slots_overflow in Hover. fold slots in Hover. lia. }
  unfold uninitialized_value_construct_n.
  pose proof (uninitialized_value_construct_loop_spec size (replicate slots None) 0 0) as HV.
  rewrite length_replicate in HV.
  destruct (uninitialized_value_construct_loop _ _ _ _) as [b|e ?|] eqn:Hloop; [|done|].
  - apply uninitialized_value_construct_loop_room in Hloop.
    rewrite length_replicate in Hloop.
    assert (representable size) as Hrep.
    { destruct Hloop as [->|Hroom]; [|apply Hwhole; lia].
      apply addressable_representable, addressable_0. }
    pose proof (RawMemory_new_addressable _ _ Hrep Hnew) as Hmax.
    pose proof (block_slots_representable size Hrep) as Heq. fold slots in Heq.
    rewrite Heq in *. destruct (HV ltac:(lia)) as (Hl & Hin & Hout).
    split_and!; [|done..].
    apply wf_intro; simpl; [done..| |intros; lia].
    intros i Hi. by apply (Hin i).
  - intros Hrep. pose proof (block_slots_representable size Hrep) as Heq.
    fold slots in Heq. apply HV. lia.
Qed.

Lemma Resize_spec `{!ValueSemantics T} v new_size :
  wf v →
  match Resize v new_size with
  | Ret v' =>
      wf v' ∧ size_ v' = new_size
      ∧ take (size_ v `min` new_size) (elements v')
        = take (size_ v `min` new_size) (elements v)
  | Exn e v' => size_ v' = size_ v
  | Fault => ¬ representable new_size
  end.
Proof.
  intros Hwf. pose proof Hwf as (Hle & Hlen & _). unfold Capacity in *. unfold Resize.
  case_bool_decide as Hshrink; [|case_bool_decide as Hgrow].
  - assert (wf {| data_ := with_buffer (data_ v)
                    (destroy_n (buffer_ (data_ v)) new_size (size_ v - new_size));
                  size_ := new_size |}) as Hwf'.
    { apply wf_intro; simpl; [by apply wf_addressable|lia|by rewrite length_destroy_n| |].
      - intros i Hi. unfold live. rewrite lookup_destroy_n_out by lia.
        apply wf_live; [done|lia].
      - intros i Hi. destruct (decide (i < size_ v)).
        + apply lookup_destroy_n_in; lia.
        + rewrite lookup_destroy_n_out by lia. apply wf_free; [done|].
          unfold Capacity. lia. }
    split_and!; [done..|]. apply list_eq. intros i.
    destruct (decide (i < size_ v `min` new_size)) as [Hi|Hi].
    2:{ by rewrite !lookup_take_ge by lia. }
    rewrite !lookup_take_lt by lia. apply option_eq. intros x.
    rewrite !elements_lookup by done. simpl.
    rewrite lookup_destroy_n_out by lia. split; intros [? ?]; (split; [lia|done]).
  - pose proof (Reserve_spec v new_size Hwf) as HR.
    destruct (Reserve v new_size) as [v1|e v1|]; [|by destruct HR as (_ & ? & _)|done].
    destruct HR as (Hwf1 & Hs1 & Hel1 & Hcap1 & _ & Hwhole).
    unfold uninitialized_value_construct_n.
    pose proof (uninitialized_value_construct_loop_spec (new_size - size_ v1)
                  (buffer_ (data_ v1)) (size_ v1) (size_ v1)) as HV.
    destruct (uninitialized_value_construct_loop _ _ _ _) as [b|e ?|] eqn:Hloop; [|done|].
    2:{ intros Hrep. specialize (Hwf1 Hrep). apply HV.
        destruct Hwf1 as (_ & Hlen1 & _). rewrite Hlen1.
        case_bool_decide as Hc; [subst v1; unfold Capacity in *|rewrite Hcap1]; lia. }
    apply uninitialized_value_construct_loop_room in Hloop.
    specialize (Hwf1 (Hwhole ltac:(lia))).
    assert (new_size ≤ Capacity v1) as Hfit.
    { case_bool_decide as Hc; by rewrite Hcap1. }
    pose proof Hwf1 as (_ & Hlen1 & _). unfold Capacity in *.
    destruct (HV ltac:(lia)) as (Hl & Hin & Hout).
    assert (wf {| data_ := with_buffer (data_ v1) b; size_ := new_size |}) as Hwf'.
    { apply wf_intro; simpl; [by apply wf_addressable|done|congruence| |].
      - intros i Hi. destruct (decide (i < size_ v1)).
        + unfold live. rewrite Hout by lia. by apply wf_live.
        + replace i with (size_ v1 + (i - size_ v1)) by lia. apply Hin. lia.
      - intros i Hi. rewrite Hout by lia. apply wf_free; [done|].
        unfold Capacity. lia. }
    split_and!; [done..|]. rewrite <- Hel1. apply list_eq. intros i.
    destruct (decide (i < size_ v `min` new_size)) as [Hi|Hi].
    2:{ by rewrite !lookup_take_ge by lia. }
    rewrite !lookup_take_lt by lia. apply option_eq. intros x.
    rewrite !elements_lookup by done. simpl.
    rewrite Hout by lia. split; intros [? ?]; (split; [lia|done]).
  - assert (new_size = size_ v) as -> by lia. by destruct v.
Qed.

(** ** What an exception leaves behind *)

Lemma same_liveness_refl b : same_liveness b b.
Proof. by split. Qed.

Lemma same_liveness_trans b1 b2 b3 :
  same_liveness b1 b2 → same_liveness b2 b3 → same_liveness b1 b3.
Proof.
  intros [Hl1 H1] [Hl2 H2]. split; [congruence|].
  intros i. by rewrite H2, H1.
Qed.

Lemma same_liveness_insert b i x :
  live b i → same_liveness b (<[i := Some x]> b).
Proof.
  intros Hi. split; [by rewrite length_insert|].
  intros j. destruct (decide (j = i)) as [->|Hne].
  - split; [done|]. intros _. apply live_insert_eq. by eapply live_lt.
  - by apply live_insert_ne.
Qed.

Lemma move_assign_slot_liveness b d s r :
  move_assign_slot b d s = r →
  match r with
  | Ret b' | Exn _ b' => same_liveness b b'
  | Fault => True
  end.
Proof.
  intros <-. unfold move_assign_slot.
  destruct (b !! d) as [[y|]|] eqn:Hd; [|done..].
  destruct (b !! s) as [[x|]|] eqn:Hs; [|done..].
  assert (same_liveness b (<[d := Some (move_assign y x).1.2]>
                            (<[s := Some (move_assign y x).2]> b))) as Hsame.
  { eapply same_liveness_trans; [apply same_liveness_insert; by exists x|].
    apply same_liveness_insert. destruct (decide (d = s)) as [->|Hne].
    - apply live_insert_eq. by eapply lookup_lt_Some.
    - apply live_insert_ne; [done|]. by exists y. }
  by destruct (move_assign y x) as [[[] y'] x'].
Qed.

Lemma move_loop_liveness n :
  ∀ b first d r,
    move_loop b first n d = r →
    match r with
    | Ret b' | Exn _ b' => same_liveness b b'
    | Fault => True
    end.
Proof.
  induction n as [|n IH]; intros b first d r <-; simpl; [apply same_liveness_refl|].
  pose proof (move_assign_slot_liveness b d first _ eq_refl) as Hstep.
  destruct (move_assign_slot b d first) as [b1|e b1|]; [|done..].
  specialize (IH b1 (S first) (S d) _ eq_refl).
  destruct (move_loop b1 (S first) n (S d)); [|by eapply same_liveness_trans..|done].
  by eapply same_liveness_trans.
Qed.

Lemma move_backward_loop_liveness n :
  ∀ b last d_last r,
    move_backward_loop b n last d_last = r →
    match r with
    | Ret b' | Exn _ b' => same_liveness b b'
    | Fault => True
    end.
Proof.
  induction n as [|n IH]; intros b last d_last r <-; simpl; [apply same_liveness_refl|].
  destruct last as [|last]; [done|]. destruct d_last as [|d_last]; [done|].
  pose proof (move_assign_slot_liveness b d_last last _ eq_refl) as Hstep.
  destruct (move_assign_slot b d_last last) as [b1|e b1|]; [|done..].
  specialize (IH b1 last d_last _ eq_refl).
  destruct (move_backward_loop b1 n last d_last); [|by eapply same_liveness_trans..|done].
  by eapply same_liveness_trans.
Qed.

Lemma move_assign_from_liveness b p tmp r :
  move_assign_from b p tmp = r →
  match r with
  | Ret b' | Exn _ b' => same_liveness b b'
  | Fault => True
  end.
Proof.
  intros <-. unfold move_assign_from.
  destruct (b !! p) as [[y|]|] eqn:Hp; [|done..].
  assert (same_liveness b (<[p := Some (move_assign y tmp).1.2]> b)) as Hsame.
  { apply same_liveness_insert. by exists y. }
  by destruct (move_assign y tmp) as [[[] y'] x'].
Qed.

Lemma copy_loop_liveness n :
  ∀ src first dst d r,
    copy_loop src first n dst d = r →
    match r with
    | Ret dst' | Exn _ dst' => same_liveness dst dst'
    | Fault => True
    end.
Proof.
  induction n as [|n IH]; intros src first dst d r <-; simpl; [apply same_liveness_refl|].
  destruct (src !! first) as [[x|]|]; [|done..].
  destruct (dst !! d) as [[y|]|] eqn:Hd; [|done..].
  assert (same_liveness dst (<[d := Some (copy_assign y x).2]> dst)) as Hsame.
  { apply same_liveness_insert. by exists y. }
  destruct (copy_assign y x) as [[] y']; [|done]. simpl in Hsame.
  specialize (IH src (S first) (<[d := Some y']> dst) (S d) _ eq_refl).
  destruct (copy_loop src (S first) n _ (S d)); [|by eapply same_liveness_trans..|done].
  by eapply same_liveness_trans.
Qed.

(* The sources of a relocation by move stay live, whatever happens. *)
Lemma uninitialized_move_loop_liveness n :
  ∀ src first dst d_first cur r,
    uninitialized_move_loop src first n dst d_first cur = r →
    match r with
    | Ret (src', _) | Exn _ (src', _) => same_liveness src src'
    | Fault => True
    end.
Proof.
  induction n as [|n IH]; intros src first dst d_first cur r <-; simpl;
    [apply same_liveness_refl|].
  destruct (src !! first) as [[x|]|] eqn:Hx; [|done..].
  case_bool_decide; [|done].
  assert (same_liveness src (<[first := Some (move_construct x).2]> src)) as Hsame.
  { apply same_liveness_insert. by exists x. }
  destruct (move_construct x) as [[y|] x']; [|done]. simpl in Hsame.
  specialize (IH (<[first := Some x']> src) (S first) (<[cur := Some y]> dst)
                 d_first (S cur) _ eq_refl).
  destruct (uninitialized_move_loop _ _ _ _ _ _) as [[src' ?]|e [src' ?]|]; [| |done].
  - by eapply same_liveness_trans.
  - by eapply same_liveness_trans.
Qed.

Lemma lookup_destroy b first last i :
  destroy b first last !! i =
    if decide (first ≤ i < last ∧ i < length b) then Some None else b !! i.
Proof.
  unfold destroy. case_decide as Hin.
  - apply lookup_destroy_n_in; lia.
  - destruct (decide (i < length b)).
    + apply lookup_destroy_n_out. lia.
    + rewrite !lookup_ge_None_2; [done|lia|rewrite length_destroy_n; lia].
Qed.

(* When a constructor throws, the uninitialised range is uninitialised
   again. *)
Lemma uninitialized_copy_loop_exn n :
  ∀ src first dst d_first cur e dst',
    d_first ≤ cur →
    (∀ i, cur ≤ i < cur + n → i < length dst → dst !! i = Some None) →
    uninitialized_copy_loop src first n dst d_first cur = Exn e dst' →
    dst' = destroy dst d_first cur.
Proof.
  induction n as [|n IH]; intros src first dst d_first cur e dst' Hle Hfree; simpl; [done|].
  destruct (src !! first) as [[x|]|]; [|done..].
  case_bool_decide as Hcur; [|done].
  destruct (copy_construct x) as [y|]; [|by intros [= <- <-]].
  intros Hloop. apply IH in Hloop; [|lia|].
  2:{ intros i Hi. rewrite length_insert. intros Hlt.
      rewrite list_lookup_insert_ne by lia. apply Hfree; lia. }
  subst dst'. apply list_eq. intros i. rewrite !lookup_destroy, length_insert.
  repeat case_decide; try done; try lia.
  - symmetry. apply Hfree; lia.
  - apply list_lookup_insert_ne. lia.
Qed.

Lemma uninitialized_value_construct_loop_exn n :
  ∀ b first cur e b',
    first ≤ cur →
    (∀ i, cur ≤ i < cur + n → i < length b → b !! i = Some None) →
    uninitialized_value_construct_loop b first cur n = Exn e b' →
    b' = destroy b first cur.
Proof.
  induction n as [|n IH]; intros b first cur e b' Hle Hfree; simpl; [done|].
  case_bool_decide as Hcur; [|done].
  destruct (value_construct (T:=T)) as [x|]; [|by intros [= <- <-]].
  intros Hloop. apply IH in Hloop; [|lia|].
  2:{ intros i Hi. rewrite length_insert. intros Hlt.
      rewrite list_lookup_insert_ne by lia. apply Hfree; lia. }
  subst b'. apply list_eq. intros i. rewrite !lookup_destroy, length_insert.
  repeat case_decide; try done; try lia.
  - symmetry. apply Hfree; lia.
  - apply list_lookup_insert_ne. lia.
Qed.

Lemma destroy_empty_range b first : destroy b first first = b.
Proof. unfold destroy. by rewrite Nat.sub_diag. Qed.

Lemma same_liveness_free b b' i :
  same_liveness b b' → b !! i = Some None → b' !! i = Some None.
Proof.
  intros [Hlen Hlive] Hi. pose proof (lookup_lt_Some _ _ _ Hi) as Hlt.
  destruct (lookup_lt_is_Some_2 b' i ltac:(lia)) as [[x|] Hx]; [|done].
  assert (live b i) as [y Hy] by (apply Hlive; by exists x). congruence.
Qed.

Lemma wf_same_liveness v b' :
  wf v → same_liveness (buffer_ (data_ v)) b' → wf (set_buffer v b').
Proof.
  intros Hwf Hsame. pose proof Hwf as (Hle & Hlen & _). pose proof Hsame as [Hl Hlive].
  unfold Capacity in Hle, Hlen.
  apply wf_intro; simpl; [by apply wf_addressable|done|congruence| |].
  - intros i Hi. apply Hlive. by apply wf_live.
  - intros i Hi. eapply same_liveness_free; [done|]. by apply wf_free.
Qed.

Lemma wf_counted_live v : wf v → counted_live v.
Proof.
  intros Hwf. pose proof Hwf as (Hle & Hlen & _). split_and!; [done..|].
  intros i Hi. by apply wf_live.
Qed.

Lemma set_buffer_same v : set_buffer v (buffer_ (data_ v)) = v.
Proof. by destruct v as [[] ?]. Qed.

Lemma Reserve_exn_wf v new_capacity e v' :
  wf v → Reserve v new_capacity = Exn e v' → wf v'.
Proof.
  intros Hwf. unfold Reserve. case_bool_decide; [done|].
  destruct (RawMemory_new new_capacity) as [new_data|]; [|by intros [= <- <-]].
  destruct relocate_by_move.
  - unfold uninitialized_move_n.
    pose proof (uninitialized_move_loop_liveness (size_ v) (buffer_ (data_ v)) 0
                  (buffer_ new_data) 0 0 _ eq_refl) as Hlive.
    destruct (uninitialized_move_loop _ _ _ _ _ _) as [[old nb]|e1 [old nb]|]; [done| |done].
    intros [= <- <-]. by apply wf_same_liveness.
  - destruct (uninitialized_copy_n _ _ _ _ _); [done| |done]. by intros [= <- <-].
Qed.

Lemma Realocate_exn_wf v pos args e v' :
  wf v → Realocate v pos args = Exn e v' → wf v'.
Proof.
  intros Hwf. unfold Realocate.
  destruct (RawMemory_new _) as [new_data|]; [|by intros [= <- <-]].
  destruct (RawMemory_index_ok _ _ && _); [|done].
  destruct (construct_from args) as [t|]; [|by intros [= <- <-]].
  destruct relocate_by_move.
  - unfold uninitialized_move, uninitialized_move_n. case_bool_decide; [|done].
    pose proof (uninitialized_move_loop_liveness (pos - 0) (buffer_ (data_ v)) 0
                  (<[pos := Some t]> (buffer_ new_data)) 0 0 _ eq_refl) as Hlive1.
    destruct (uninitialized_move_loop _ _ _ _ _ _) as [[old1 nb1]|e1 [old1 nb1]|];
      [| |done].
    2:{ intros [= <- <-]. by apply wf_same_liveness. }
    case_bool_decide; [|done].
    pose proof (uninitialized_move_loop_liveness (size_ v - pos) old1 pos
                  nb1 (pos + 1) (pos + 1) _ eq_refl) as Hlive2.
    destruct (uninitialized_move_loop old1 _ _ _ _ _) as [[old2 nb2]|e2 [old2 nb2]|];
      [done| |done].
    intros [= <- <-]. apply wf_same_liveness; [done|]. by eapply same_liveness_trans.
  - destruct (uninitialized_copy _ _ _ _ _) as [nb1|e1 ?|]; [|by intros [= <- <-]|done].
    destruct (uninitialized_copy _ _ _ _ _) as [nb2|e2 ?|]; [done|by intros [= <- <-]|done].
Qed.

Lemma Erase_exn_wf v pos e v' :
  wf v → Erase v pos = Exn e v' → wf v'.
Proof.
  intros Hwf. unfold Erase. case_bool_decide; [|done]. case_bool_decide; [|done].
  unfold std_move. case_bool_decide; [|done].
  pose proof (move_loop_liveness (size_ v - (pos + 1)) (buffer_ (data_ v)) (pos + 1) pos
                _ eq_refl) as Hlive.
  destruct (move_loop _ _ _ _) as [b1|e1 b1|]; [| |done].
  - unfold PopBack. by case_bool_decide.
  - intros [= <- <-]. by apply wf_same_liveness.
Qed.

Lemma AllocateOnCapacity_exn_wf this rhs e v' :
  wf this → AllocateOnCapacity this rhs = Exn e v' → wf v'.
Proof.
  intros Hwf. pose proof Hwf as (Hle & Hlen & _). unfold Capacity in *.
  unfold AllocateOnCapacity, std_copy. case_bool_decide; [|done].
  pose proof (copy_loop_liveness (size_ this `min` size_ rhs - 0) (buffer_ (data_ rhs)) 0
                (buffer_ (data_ this)) 0 _ eq_refl) as Hlive.
  destruct (copy_loop _ _ _ _ _) as [b1|e1 b1|]; [| |done].
  2:{ intros [= <- <-]. by apply wf_same_liveness. }
  case_bool_decide as Hshrink; [done|].
  unfold uninitialized_copy, uninitialized_copy_n. case_bool_decide; [|done].
  destruct (uninitialized_copy_loop _ _ _ _ _ _) as [b2|e2 b2|] eqn:Hloop; [done| |done].
  intros [= <- <-]. apply uninitialized_copy_loop_exn in Hloop; [|done|].
  - rewrite destroy_empty_range in Hloop. subst b2. by apply wf_same_liveness.
  - intros i Hi Hlt. eapply same_liveness_free; [done|]. apply wf_free; [done|].
    destruct Hlive as [Hl _]. unfold Capacity. lia.
Qed.

Lemma copy_assign_body_exn_wf this rhs e v' :
  wf this → copy_assign_body this rhs = Exn e v' → wf v'.
Proof.
  intros Hwf. unfold copy_assign_body. case_bool_decide.
  - destruct (Vector_copy rhs); [done| |done]. by intros [= <- <-].
  - by apply AllocateOnCapacity_exn_wf.
Qed.

Lemma Resize_exn_wf `{!ValueSemantics T} v new_size e v' :
  wf v → representable new_size → Resize v new_size = Exn e v' → wf v'.
Proof.
  intros Hwf Hrep. unfold Resize. case_bool_decide; [done|]. case_bool_decide; [|done].
  pose proof (Reserve_spec v new_size Hwf) as HR.
  destruct (Reserve v new_size) as [v1|e1 v1|] eqn:Hres; [| |done].
  2:{ intros [= <- <-]. by eapply Reserve_exn_wf. }
  destruct HR as (Hwf1 & _ & _ & _ & Hfree & _). specialize (Hwf1 Hrep).
  unfold uninitialized_value_construct_n.
  destruct (uninitialized_value_construct_loop _ _ _ _) as [b|e2 b|] eqn:Hloop;
    [done| |done].
  intros [= <- <-]. apply uninitialized_value_construct_loop_exn in Hloop; [|done|].
  - rewrite destroy_empty_range in Hloop. subst b. by rewrite set_buffer_same.
  - intros i Hi Hlt. apply wf_free; [done|].
    destruct Hwf1 as (_ & Hlen1 & _). lia.
Qed.

(* An exception out of [Resize] leaves the elements in place whenever one
   out of [Reserve] does. *)
Lemma Resize_exn_elements `{!ValueSemantics T} v new_size e v' :
  wf v → Resize v new_size = Exn e v' →
  is_copy_constructible (T:=T) = true ∨ is_nothrow_move_constructible (T:=T) = true →
  elements v' = elements v.
Proof.
  intros Hwf Hr Htrait. unfold Resize in Hr.
  case_bool_decide; [done|]. case_bool_decide; [|done].
  pose proof (Reserve_spec v new_size Hwf) as HR.
  destruct (Reserve v new_size) as [v1|e1 v1|]; [| |done].
  - destruct HR as (_ & Hs1 & Hel1 & _ & Hfree & _).
    unfold uninitialized_value_construct_n in Hr.
    destruct (uninitialized_value_construct_loop _ _ _ _) as [b|e2 b|] eqn:Hloop;
      [done| |done].
    apply uninitialized_value_construct_loop_exn in Hloop; [|done|].
    + rewrite destroy_empty_range in Hloop. simplify_eq. by rewrite set_buffer_same.
    + intros i Hi Hlt. apply Hfree. lia.
  - simplify_eq. destruct HR as (_ & _ & _ & [(_ & _ & ->)|(_ & Hflag & Hcopy)]); [done|].
    destruct Htrait as [Hc|Hm]; [by rewrite Hcopy|congruence].
Qed.

(* An exception out of the shifting branch keeps [size ≤ capacity] and
   every counted slot live. *)
Lemma Emplace_shift_exn_counted_live v pos args e v' :
  wf v → Emplace_shift v pos args = Exn e v' → counted_live v'.
Proof.
  intros Hwf. pose proof Hwf as (Hle & Hlen & _). unfold Capacity in *.
  unfold Emplace_shift.
  destruct (construct_from args) as [tmp|]; [|intros [= <- <-]; by apply wf_counted_live].
  assert (∀ b', match move_last_to_end v with
                | Ret b1 | Exn _ b1 => same_liveness b1 b' | Fault => True end →
                match move_last_to_end v with
                | Ret _ | Exn _ _ => counted_live (set_buffer v b') | Fault => True end)
    as Hcount.
  { intros b'. unfold move_last_to_end. destruct (RawMemory_index_ok _ _); [|done].
    destruct (buffer_ (data_ v) !! (size_ v - 1)) as [[x|]|] eqn:Hx; [|done..].
    case_bool_decide as Hroom; [|done].
    destruct (move_construct x) as [[y|] x'].
    - intros [Hl Hlive]. rewrite !length_insert in Hl.
      split_and!; simpl; [done|unfold Capacity; simpl; congruence|].
      intros i Hi. apply Hlive. apply live_insert_ne; [lia|].
      destruct (decide (i = size_ v - 1)) as [->|Hne].
      + apply live_insert_eq. by eapply lookup_lt_Some.
      + apply live_insert_ne; [done|]. by apply wf_live.
    - intros [Hl Hlive]. rewrite !length_insert in Hl.
      split_and!; simpl; [done|unfold Capacity; simpl; congruence|].
      intros i Hi. apply Hlive.
      destruct (decide (i = size_ v - 1)) as [->|Hne].
      + apply live_insert_eq. by eapply lookup_lt_Some.
      + apply live_insert_ne; [done|]. by apply wf_live. }
  destruct (move_last_to_end v) as [b1|e1 b1|]; [| |done].
  2:{ intros [= <- <-]. apply Hcount, same_liveness_refl. }
  unfold std_move_backward. case_bool_decide; [|done].
  pose proof (move_backward_loop_liveness (size_ v - 1 - pos) b1 (size_ v - 1) (size_ v)
                _ eq_refl) as Hlive2.
  destruct (move_backward_loop _ _ _ _) as [b2|e2 b2|]; [| |done].
  2:{ intros [= <- <-]. by apply Hcount. }
  pose proof (move_assign_from_liveness b2 pos tmp _ eq_refl) as Hlive3.
  destruct (move_assign_from b2 pos tmp) as [b3|e3 b3|]; [done| |done].
  intros [= <- <-]. apply Hcount. by eapply same_liveness_trans.
Qed.

(** X17.  The basic guarantee: an exception out of any mutating operation
    leaves [size ≤ capacity] and every counted slot live, and leaves the
    slots from [size] on uninitialised too, except when it comes out of
    the shifting branch of [Emplace].  For [Resize] this supposes that
    the byte count of the new size does not wrap around. *)
Lemma basic_guarantee `{!ValueSemantics T} v e v' :
  wf v →
  (∀ n, Reserve v n = Exn e v' → wf v')
  ∧ (∀ n, representable n → Resize v n = Exn e v' → wf v')
  ∧ (∀ pos, Erase v pos = Exn e v' → wf v')
  ∧ (∀ rhs, copy_assign_body v rhs = Exn e v' → wf v')
  ∧ (∀ pos args, Emplace v pos args = Exn e v' →
       counted_live v' ∧ (size_ v = Capacity v ∨ pos = size_ v → wf v')).
Proof.
  intros Hwf. split_and!.
  - intros n. by apply Reserve_exn_wf.
  - intros n Hrep. by apply Resize_exn_wf.
  - intros pos. by apply Erase_exn_wf.
  - intros rhs. by apply copy_assign_body_exn_wf.
  - intros pos args. unfold Emplace. case_bool_decide; [|done].
    case_bool_decide as Hfull; [|case_bool_decide as Hend].
    + intros HR. apply Realocate_exn_wf in HR; [|done].
      split; [by apply wf_counted_live|done].
    + unfold Emplace_at_end. case_bool_decide; [|done].
      destruct (construct_from args); [done|]. intros [= <- <-].
      split; [by apply wf_counted_live|done].
    + intros HS. split; [by eapply Emplace_shift_exn_counted_live|].
      intros [?|?]; done.
Qed.

(** X18.  Every operation that returns leaves [0 ≤ size ≤ capacity] with the
    slots below [size] exactly the live ones; for [Reserve(n)] this
    supposes that the byte count [n * sizeof(T)] does not wrap around. *)
Lemma invariant_on_return `{!ValueSemantics T} v v' :
  wf v →
  (∀ n, representable n → Reserve v n = Ret v' → wf v')
  ∧ (∀ n, Resize v n = Ret v' → wf v')
  ∧ (PopBack v = Ret v' → wf v')
  ∧ (∀ pos, Erase v pos = Ret v' → wf v')
  ∧ (∀ rhs, wf rhs → copy_assign_body v rhs = Ret v' → wf v')
  ∧ (∀ pos args, Emplace v pos args = Ret v' → wf v')
  ∧ (Vector_copy v = Ret v' → wf v')
  ∧ (∀ n, Vector_sized n = Ret v' → wf v')
  ∧ wf (Vector_move v).1 ∧ wf (Vector_move v).2
  ∧ (∀ other, wf other → wf (Swap v other).1 ∧ wf (Swap v other).2).
Proof.
  intros Hwf. split_and!.
  - intros n Hrep Hr. pose proof (Reserve_spec v n Hwf) as HS. rewrite Hr in HS.
    by apply HS.
  - intros n Hr. pose proof (Resize_spec v n Hwf) as HS. rewrite Hr in HS. apply HS.
  - unfold PopBack. case_bool_decide as Hne; [|done]. intros Hr.
    destruct (PopBack_spec v Hwf Hne) as (v2 & Hpop & Hwf2 & _).
    unfold PopBack in Hpop. rewrite bool_decide_eq_true_2 in Hpop by done. congruence.
  - intros pos Hr. unfold Erase in Hr. case_bool_decide as Hpos; [|done].
    pose proof (Erase_spec v pos Hwf Hpos) as HS. unfold Erase in HS.
    rewrite bool_decide_eq_true_2 in HS by done. rewrite Hr in HS. apply HS.
  - intros rhs Hrhs Hr. pose proof (copy_assign_body_spec v rhs Hwf Hrhs) as HS.
    rewrite Hr in HS. apply HS.
  - intros pos args Hr. unfold Emplace in Hr. case_bool_decide as Hpos; [|done].
    pose proof (Emplace_spec v pos args Hwf Hpos) as HS. unfold Emplace in HS.
    rewrite bool_decide_eq_true_2 in HS by done. rewrite Hr in HS.
    by destruct HS as (? & ? & ? & _).
  - intros Hr. pose proof (Vector_copy_spec v Hwf) as HS. rewrite Hr in HS. apply HS.
  - intros n Hr. pose proof (Vector_sized_spec n) as HS. rewrite Hr in HS. apply HS.
  - by rewrite Vector_move_spec.
  - rewrite Vector_move_spec. apply wf_default.
  - intros other Hother. by rewrite Swap_spec.
Qed.

(** ** A checker for the representation invariant *)

Lemma wf_check_sound v : wf_check v = true → wf v.
Proof.
  unfold wf_check. rewrite !andb_true_iff, !bool_decide_eq_true, !forallb_forall.
  intros [[[[Hle Hlen] Hlive] Hfree] Hmax]. split_and!; [done..| |by apply N.leb_le].
  intros i Hi. split; intros Hlt.
  - destruct (lookup_lt_is_Some_2 (buffer_ (data_ v)) i ltac:(lia)) as [o Ho].
    specialize (Hlive o). rewrite <- list_elem_of_In in Hlive.
    destruct o as [x|]; [by exists x|].
    assert (None ∈ take (size_ v) (buffer_ (data_ v))) as Hin.
    { apply list_elem_of_lookup. exists i. by rewrite lookup_take_lt. }
    by apply Hlive in Hin.
  - destruct (lookup_lt_is_Some_2 (buffer_ (data_ v)) i ltac:(lia)) as [o Ho].
    specialize (Hfree o). rewrite <- list_elem_of_In in Hfree.
    destruct o as [x|]; [|done].
    assert (Some x ∈ drop (size_ v) (buffer_ (data_ v))) as Hin.
    { apply list_elem_of_lookup. exists (i - size_ v). rewrite lookup_drop.
      by replace (size_ v + (i - size_ v)) with i by lia. }
    by apply Hfree in Hin.
Qed.

(** ** Assignment between places *)

Lemma move_assign_at_distinct (h : gmap nat Vector) (this rhs : nat) (a r : Vector) :
  this ≠ rhs → h !! this = Some a → h !! rhs = Some r →
  move_assign_at h this rhs = Ret (<[rhs := a]> (<[this := r]> h)).
Proof.
  intros Hne Ha Hr. unfold move_assign_at. rewrite Ha, Hr.
  rewrite bool_decide_eq_true_2 by done. by rewrite Swap_spec.
Qed.

Lemma move_construct_at_fresh (h : gmap nat Vector) (b a : nat) (va : Vector) :
  h !! b = None → h !! a = Some va →
  move_construct_at h b a = Ret (<[b := va]> (<[a := Vector_default]> h)).
Proof.
  intros Hb Ha. unfold move_construct_at. rewrite Hb, Ha. by rewrite Vector_move_spec.
Qed.

(** ** The claims *)

(** C1 (as amended).  Move construction hands the whole state of [A] to
    the new vector [B] and leaves [A] empty, with size 0 and capacity 0.
    Move assignment [B = std::move(A)] between two distinct vectors
    exchanges their states: [B] holds the original elements, size and
    capacity of [A], and [A] holds what [B] held before, so [A] is empty
    afterwards only if [B] was empty before. *)
Theorem move_transfers_state (h : gmap nat Vector) (a b : nat) (va : Vector) :
  a ≠ b → h !! a = Some va →
  (h !! b = None →
   ∃ h' va', move_construct_at h b a = Ret h'
     ∧ h' !! b = Some va
     ∧ h' !! a = Some va'
     ∧ Size va' = 0 ∧ Capacity va' = 0 ∧ elements va' = [])
  ∧ (∀ vb, h !! b = Some vb →
     ∃ h', move_assign_at h b a = Ret h'
       ∧ h' !! b = Some va
       ∧ h' !! a = Some vb).
Proof.
  intros Hne Ha. split.
  - intros Hb. eexists _, Vector_default.
    rewrite (move_construct_at_fresh h b a va Hb Ha). split_and!; [done| | |done..].
    + by rewrite lookup_insert_eq.
    + rewrite lookup_insert_ne by done. by rewrite lookup_insert_eq.
  - intros vb Hb. eexists.
    rewrite (move_assign_at_distinct h b a vb va) by done. split_and!; [done| |].
    + rewrite lookup_insert_ne by done. by rewrite lookup_insert_eq.
    + by rewrite lookup_insert_eq.
Qed.

(** C10.  Assigning a vector to itself, by copy or by move, changes
    nothing: the store, and with it the size, the capacity and the
    elements of the vector, is what it was. *)
Theorem self_assignment_is_identity (h : gmap nat Vector) (a : nat) (v : Vector) :
  h !! a = Some v →
  copy_assign_at h a a = Ret h ∧ move_assign_at h a a = Ret h.
Proof.
  intros Ha. unfold copy_assign_at, move_assign_at. rewrite Ha.
  by rewrite bool_decide_eq_false_2 by naive_solver.
Qed.

Lemma growth_capacity v :
  (if bool_decide (size_ v = 0) then 1 else size_ v * 2) = 1 `max` (size_ v * 2).
Proof. case_bool_decide; lia. Qed.

Lemma Realocate_construct_fails v pos args :
  wf v → pos ≤ size_ v → construct_from args = None →
  Realocate v pos args =
    if can_allocate (1 `max` (size_ v * 2)) then Exn element_exn v else Exn bad_alloc v.
Proof.
  intros Hwf Hpos Hctor. unfold Realocate.
  pose proof (wf_growth_representable v Hwf) as Hrep. rewrite growth_capacity in *.
  destruct (RawMemory_new _) as [new_data|] eqn:Hnew.
  - pose proof Hnew as Hshape.
    apply RawMemory_new_shape in Hshape as [_ [?|Halloc]]; [lia|]. rewrite Halloc.
    apply RawMemory_new_spec in Hnew as ->; [|done].
    unfold RawMemory_index_ok. simpl.
    rewrite !bool_decide_eq_true_2 by (rewrite ?length_replicate; lia). simpl.
    by rewrite Hctor.
  - by apply RawMemory_new_None in Hnew as [_ ->].
Qed.

Lemma Realocate_capacity v pos args v' :
  Realocate v pos args = Ret v' →
  Capacity v' = 1 `max` (size_ v * 2).
Proof.
  unfold Realocate. rewrite growth_capacity.
  destruct (RawMemory_new _) as [new_data|] eqn:Hnew; [|done].
  apply RawMemory_new_capacity in Hnew.
  destruct (RawMemory_index_ok _ _ && _); [|done].
  destruct (construct_from args) as [t|]; [|done].
  destruct relocate_by_move.
  - destruct (uninitialized_move _ _ _ _ _) as [[old1 nb1]|e1 [old1 ?]|]; [|done..].
    destruct (uninitialized_move _ _ _ _ _) as [[old2 nb2]|e2 [old2 ?]|]; [|done..].
    by intros [= <-].
  - destruct (uninitialized_copy _ _ _ _ _) as [nb1|e1 ?|]; [|done..].
    destruct (uninitialized_copy _ _ _ _ _) as [nb2|e2 ?|]; [|done..].
    by intros [= <-].
Qed.

(* Why a reallocating insertion can leave by an exception *)
Lemma Realocate_exn_cause `{!ValueSemantics T} v pos args e v' :
  Realocate v pos args = Exn e v' →
  (e = bad_alloc ∧ can_allocate (1 `max` (size_ v * 2)) = false)
  ∨ (e = element_exn
     ∧ (construct_from args = None ∨ is_nothrow_move_constructible (T:=T) = false)).
Proof.
  unfold Realocate. rewrite growth_capacity.
  destruct (RawMemory_new _) as [new_data|] eqn:Hnew.
  2:{ intros [= <- _]. left. by apply RawMemory_new_None in Hnew as [_ ->]. }
  destruct (RawMemory_index_ok _ _ && _); [|done].
  destruct (construct_from args) as [t|]; [|intros [= <- _]; by auto].
  destruct relocate_by_move eqn:Hpolicy.
  - unfold uninitialized_move, uninitialized_move_n. case_bool_decide; [|done].
    destruct (uninitialized_move_loop _ _ _ _ _ _) as [[old1 nb1]|e1 [old1 ?]|] eqn:Hl1;
      [| |done].
    2:{ apply uninitialized_move_loop_throws in Hl1 as [-> ?]. intros [= <- _]. by auto. }
    case_bool_decide; [|done].
    destruct (uninitialized_move_loop old1 _ _ _ _ _) as [[old2 nb2]|e2 [old2 ?]|] eqn:Hl2;
      [done| |done].
    apply uninitialized_move_loop_throws in Hl2 as [-> ?]. intros [= <- _]. by auto.
  - assert (is_nothrow_move_constructible (T:=T) = false) as Hflag.
    { unfold relocate_by_move in Hpolicy. by destruct is_nothrow_move_constructible. }
    unfold uninitialized_copy, uninitialized_copy_n. case_bool_decide; [|done].
    destruct (uninitialized_copy_loop _ _ _ _ _ _) as [nb1|e1 ?|] eqn:Hl1; [| |done].
    2:{ apply uninitialized_copy_loop_exn_kind in Hl1 as ->. intros [= <- _]. by auto. }
    case_bool_decide; [|done].
    destruct (uninitialized_copy_loop _ _ _ nb1 _ _) as [nb2|e2 ?|] eqn:Hl2; [done| |done].
    apply uninitialized_copy_loop_exn_kind in Hl2 as ->. intros [= <- _]. by auto.
Qed.

(** C2.  When size equals capacity, [Emplace] at any position
    constructs the new element first, in slot [pos] of the new block; if
    that construction fails the call leaves by an exception and the
    vector (size, capacity, every element) is exactly what it was.  The
    same holds for [EmplaceBack], [PushBack] and [Insert], which forward
    to [Emplace].  The exception is the constructor's own whenever the
    allocation of the new block succeeded, and [std::bad_alloc]
    otherwise.  When the construction succeeds, the allocation succeeds
    and the move constructor is [noexcept], the call returns, and
    whenever it returns, slot [pos] holds the element that was
    constructed, the other elements are around it in their order and the
    capacity is [max(1, 2 * capacity)]. *)
Theorem Emplace_at_capacity_strong_guarantee `{!ValueSemantics T} v pos args :
  wf v → size_ v = Capacity v → pos ≤ size_ v →
  (construct_from args = None →
   (∃ e, Emplace v pos args = Exn e v)
   ∧ (∃ e, EmplaceBack v args = Exn e v))
  ∧ (∀ value, copy_construct value = None →
     (∃ e, PushBack v value = Exn e v)
     ∧ (∃ e, Insert v pos value = Exn e v))
  ∧ (∀ t v', construct_from args = Some t → Emplace v pos args = Ret v' →
     buffer_ (data_ v') !! pos = Some (Some t) ∧ at_index v' pos = Some t
     ∧ elements v' = take pos (elements v) ++ t :: drop pos (elements v)
     ∧ size_ v' = S (size_ v)
     ∧ Capacity v' = 1 `max` (Capacity v * 2))
  ∧ (construct_from args = None →
     Emplace v pos args =
       if can_allocate (1 `max` (Capacity v * 2)) then Exn element_exn v
       else Exn bad_alloc v)
  ∧ (∀ t, construct_from args = Some t →
     can_allocate (1 `max` (Capacity v * 2)) = true →
     is_nothrow_move_constructible (T:=T) = true →
     ∃ v', Emplace v pos args = Ret v').
Proof.
  intros Hwf Hfull Hpos.
  assert (∀ p a, p ≤ size_ v → Emplace v p a = Realocate v p a) as Hbranch.
  { intros p a Hp. unfold Emplace. by rewrite !bool_decide_eq_true_2 by done. }
  assert (∀ p a, p ≤ size_ v → construct_from a = None → ∃ e, Emplace v p a = Exn e v)
    as Hfail.
  { intros p a Hp Ha. rewrite Hbranch, Realocate_construct_fails by done.
    destruct (can_allocate _); by eauto. }
  split_and!.
  - intros Hctor. split; [by apply Hfail|]. unfold EmplaceBack. by apply Hfail.
  - intros value Hcopy. split.
    + unfold PushBack, EmplaceBack. by apply Hfail.
    + unfold Insert. by apply Hfail.
  - intros t v' Hctor Hret.
    pose proof (Emplace_spec v pos args Hwf Hpos) as HE. rewrite Hret in HE.
    destruct HE as (t' & Ht' & Hwf' & Hsize' & Hel). simplify_eq.
    assert (elements v' !! pos = Some t) as Hat.
    { rewrite Hel, lookup_inserted by (rewrite length_elements by done; lia).
      by rewrite decide_False, decide_True by lia. }
    apply elements_lookup in Hat as [Hlt Hslot]; [|done].
    split_and!; [done| |done..|].
    + unfold at_index, RawMemory_index_ok.
      destruct Hwf' as (Hle' & _). unfold Capacity in Hle'.
      rewrite !bool_decide_eq_true_2 by lia. by rewrite Hslot.
    + rewrite Hbranch in Hret by done. apply Realocate_capacity in Hret.
      by rewrite <- Hfull.
  - intros Hctor. rewrite Hbranch, Realocate_construct_fails by done.
    by rewrite Hfull.
  - intros t Hctor Halloc Hflag.
    pose proof (Emplace_spec v pos args Hwf Hpos) as HE.
    destruct (Emplace v pos args) as [v'|e v'|] eqn:Hr; [by eauto| |done].
    rewrite Hbranch in Hr by done.
    apply Realocate_exn_cause in Hr as [[_ Hno]|[_ [Hno|Hno]]]; [|congruence..].
    rewrite Hfull in Hno. congruence.
Qed.

(** C4.  An append or a positional insert made when size equals
    capacity and that returns leaves the capacity at
    [max(1, old_capacity * 2)]; with a non-throwing element type it
    returns whenever the allocation succeeds. *)
Theorem growth_doubles_capacity v pos args :
  size_ v = Capacity v →
  (∀ v', Emplace v pos args = Ret v' → Capacity v' = 1 `max` (Capacity v * 2))
  ∧ (∀ v', EmplaceBack v args = Ret v' → Capacity v' = 1 `max` (Capacity v * 2))
  ∧ (∀ value v', PushBack v value = Ret v' → Capacity v' = 1 `max` (Capacity v * 2))
  ∧ (∀ value v', Insert v pos value = Ret v' → Capacity v' = 1 `max` (Capacity v * 2))
  ∧ (ValueSemantics T → NoThrow T → wf v → pos ≤ size_ v →
     can_allocate (1 `max` (Capacity v * 2)) = true →
     ∃ v', Emplace v pos args = Ret v').
Proof.
  intros Hfull.
  assert (∀ p a v', Emplace v p a = Ret v' → Capacity v' = 1 `max` (Capacity v * 2))
    as Hgrow.
  { intros p a v'. unfold Emplace. case_bool_decide; [|done].
    rewrite bool_decide_eq_true_2 by done. rewrite <- Hfull. apply Realocate_capacity. }
  split_and!; [by eauto..|].
  intros HVS HNT Hwf Hpos Halloc. apply Emplace_returns; [done..|].
  intros _. by rewrite growth_capacity, Hfull.
Qed.

(** C5 (as amended).  [Reserve(N)] returns the vector unchanged when [N]
    is at most the capacity.  Otherwise, when it returns, [Capacity()] is
    exactly [N] and the size and the sequence of elements are unchanged.
    When moreover the byte count [N * sizeof(T)] does not wrap around in
    [size_t], the block really has [N] slots (the invariant holds), the
    call does not break a contract, and it returns when the allocation
    succeeds and the move constructor is [noexcept]. *)
Theorem Reserve_grows_to_exactly `{!ValueSemantics T} v new_capacity :
  wf v →
  (new_capacity ≤ Capacity v → Reserve v new_capacity = Ret v)
  ∧ (Capacity v < new_capacity →
     ∀ v', Reserve v new_capacity = Ret v' →
       Capacity v' = new_capacity ∧ size_ v' = size_ v ∧ elements v' = elements v
       ∧ (representable new_capacity → wf v'))
  ∧ (representable new_capacity →
     Capacity v < new_capacity → can_allocate new_capacity = true →
     is_nothrow_move_constructible (T:=T) = true →
     ∃ v', Reserve v new_capacity = Ret v')
  ∧ (representable new_capacity → Reserve v new_capacity ≠ Fault).
Proof.
  intros Hwf. pose proof (Reserve_spec v new_capacity Hwf) as HR. split_and!.
  - intros Hfit. unfold Reserve. by rewrite bool_decide_eq_true_2.
  - intros Hgrow v' Hret. rewrite Hret in HR.
    destruct HR as (? & ? & ? & Hcap & _).
    by rewrite bool_decide_eq_false_2 in Hcap by lia.
  - intros Hrep Hgrow Halloc Hflag.
    destruct (Reserve v new_capacity) as [v'|e v'|]; [by eauto| |done].
    destruct HR as (_ & _ & _ & [(_ & Hnew & _)|(_ & Hflag' & _)]); [|congruence].
    destruct (RawMemory_new_can_allocate _ Halloc) as [m Hm]. congruence.
  - intros Hrep Hfault. by rewrite Hfault in HR.
Qed.

(** C3.  Copy assignment [*this = rhs] between two distinct vectors.
    When [rhs.size_] exceeds the capacity of [*this], a temporary copy of
    [rhs] is built and swapped in: if the call leaves by an exception the
    store, and so [*this], is exactly what it was, and if it returns
    [*this] is that copy: it holds the elements of [rhs] and its size and
    capacity are the size of [rhs].  When [rhs.size_] fits, the storage
    is reused by [AllocateOnCapacity]: the capacity stays, and on return
    [*this] holds the elements of [rhs] and has the size of [rhs], with
    every slot from there on uninitialised (the excess tail has been
    destroyed); an exception on this path keeps the size, the capacity
    and the invariant.  The call never breaks a contract, and with a
    non-throwing element type it returns whenever the allocation (if
    any) succeeds. *)
Theorem copy_assignment_guarantees `{!ValueSemantics T}
    (h : gmap nat Vector) (this rhs : nat) (a r : Vector) :
  this ≠ rhs → h !! this = Some a → h !! rhs = Some r → wf a → wf r →
  (Capacity a < size_ r →
   match copy_assign_at h this rhs with
   | Ret h' =>
       ∃ rhs_copy, Vector_copy r = Ret rhs_copy
                   ∧ h' = <[this := rhs_copy]> h
                   ∧ elements rhs_copy = elements r
                   ∧ size_ rhs_copy = size_ r
                   ∧ Capacity rhs_copy = size_ r
                   ∧ wf rhs_copy
   | Exn e h' => h' = h
   | Fault => False
   end)
  ∧ (size_ r ≤ Capacity a →
     match copy_assign_at h this rhs with
     | Ret h' =>
         ∃ a', AllocateOnCapacity a r = Ret a'
               ∧ h' = <[this := a']> h
               ∧ Capacity a' = Capacity a
               ∧ elements a' = elements r
               ∧ size_ a' = size_ r
               ∧ wf a'
     | Exn e h' =>
         ∃ a', h' = <[this := a']> h ∧ Capacity a' = Capacity a
               ∧ size_ a' = size_ a ∧ wf a'
     | Fault => False
     end)
  ∧ (NoThrow T → (Capacity a < size_ r → can_allocate (size_ r) = true) →
     ∃ h', copy_assign_at h this rhs = Ret h').
Proof.
  intros Hne Ha Hr Hwfa Hwfr.
  unfold copy_assign_at. rewrite Ha, Hr. rewrite bool_decide_eq_true_2 by done.
  split_and!.
  - intros Hbig. unfold copy_assign_body. rewrite bool_decide_eq_true_2 by done.
    pose proof (Vector_copy_spec r Hwfr) as HC.
    destruct (Vector_copy r) as [rhs_copy|e ?|]; [| |done].
    + rewrite Swap_spec. simpl. exists rhs_copy. by destruct HC as (? & ? & ? & ?).
    + by apply insert_id.
  - intros Hfit. unfold copy_assign_body. rewrite bool_decide_eq_false_2 by lia.
    pose proof (AllocateOnCapacity_spec a r Hwfa Hwfr Hfit) as HA.
    destruct (AllocateOnCapacity a r) as [a'|e a'|] eqn:Hbody; [| |done].
    + exists a'. by destruct HA as (? & ? & ? & ?).
    + exists a'. destruct HA as (_ & ? & ?). split_and!; [done..|].
      exact (AllocateOnCapacity_exn_wf a r e a' Hwfa Hbody).
  - intros HNT Halloc.
    pose proof (copy_assign_body_spec a r Hwfa Hwfr) as HB.
    destruct (copy_assign_body a r) as [a'|e a'|] eqn:Hbody; [by eauto| |done].
    apply copy_assign_body_nothrow in Hbody as (_ & Hbig & Hnew).
    destruct (RawMemory_new_can_allocate _ (Halloc Hbig)) as [m Hm]. congruence.
Qed.

(** C6 (as amended).  With size strictly below capacity: at a position
    before [end()], [Emplace] proceeds as described (temporary, move of
    the last element into the end slot, shift to the right, assignment of
    the temporary); at [end()] it constructs the element directly in the
    end slot from the arguments, with no temporary and no move.  In both
    cases, when it returns, the sequence is the original one with the new
    element at index [pos] and the size has grown by one; it never breaks
    a contract and, for a non-throwing element type, it returns. *)
Theorem Emplace_in_place `{!ValueSemantics T} v pos args :
  wf v → size_ v < Capacity v → pos ≤ size_ v →
  (pos < size_ v → Emplace v pos args = Emplace_as_described v pos args)
  ∧ (pos = size_ v → Emplace v pos args = Emplace_at_end v args)
  ∧ (∀ v', Emplace v pos args = Ret v' →
     ∃ t, construct_from args = Some t
          ∧ elements v' = take pos (elements v) ++ t :: drop pos (elements v)
          ∧ size_ v' = S (size_ v)
          ∧ Capacity v' = Capacity v)
  ∧ Emplace v pos args ≠ Fault
  ∧ (NoThrow T → ∃ v', Emplace v pos args = Ret v').
Proof.
  intros Hwf Hspare Hpos.
  assert (Emplace v pos args =
          if bool_decide (pos = size_ v) then Emplace_at_end v args
          else Emplace_shift v pos args) as Hbranch.
  { unfold Emplace. rewrite bool_decide_eq_true_2 by done.
    by rewrite bool_decide_eq_false_2 by lia. }
  pose proof (Emplace_spec v pos args Hwf Hpos) as HE.
  split_and!.
  - intros Hlt. rewrite Hbranch. by rewrite bool_decide_eq_false_2 by lia.
  - intros Heq. rewrite Hbranch. by rewrite bool_decide_eq_true_2.
  - intros v' Hret. rewrite Hbranch in Hret. case_bool_decide as Hend.
    + subst pos. pose proof (Emplace_at_end_spec v args Hwf Hspare) as HA.
      rewrite Hret in HA. destruct HA as (t & ? & ? & ? & ? & ?). by exists t.
    + pose proof (Emplace_shift_spec v pos args Hwf ltac:(lia) Hspare) as HS.
      rewrite Hret in HS. destruct HS as (t & ? & ? & ? & ? & ?). by exists t.
  - intros Hfault. by rewrite Hfault in HE.
  - intros HNT. apply Emplace_returns; [done..|]. lia.
Qed.

(** C7.  For a position [pos] before [end()], [Erase] shifts the
    elements after [pos] one slot to the left and drops the last slot
    with [PopBack]; when it returns, the sequence is the original one
    without the element at [pos] and the size has decreased by one.  It
    never breaks a contract and, when move assignment does not throw, it
    returns. *)
Theorem Erase_removes_element `{!ValueSemantics T} v pos :
  wf v → pos < size_ v →
  Erase v pos =
    match std_move (buffer_ (data_ v)) (pos + 1) (size_ v) pos with
    | Ret b => PopBack (set_buffer v b)
    | Exn e b => Exn e (set_buffer v b)
    | Fault => Fault
    end
  ∧ (∀ v', Erase v pos = Ret v' →
     elements v' = take pos (elements v) ++ drop (S pos) (elements v)
     ∧ size_ v' = size_ v - 1
     ∧ Capacity v' = Capacity v
     ∧ wf v')
  ∧ Erase v pos ≠ Fault
  ∧ (NoThrow T → ∃ v', Erase v pos = Ret v').
Proof.
  intros Hwf Hpos. pose proof (Erase_spec v pos Hwf Hpos) as HE. split_and!.
  - unfold Erase. by rewrite !bool_decide_eq_true_2 by lia.
  - intros v' Hret. rewrite Hret in HE. by destruct HE as (? & ? & ? & ?).
  - intros Hfault. by rewrite Hfault in HE.
  - intros HNT. destruct (Erase v pos) as [v'|e v'|] eqn:Hr; [by eauto| |done].
    by apply Erase_nothrow in Hr.
Qed.


(** ** Further properties of the operations *)

Lemma uninitialized_value_construct_loop_ret n :
  ∀ b first cur b',
    uninitialized_value_construct_loop b first cur n = Ret b' →
    length b' = length b
    ∧ (∀ k, k < n → ∃ d, value_construct (T:=T) = Some d ∧ b' !! (cur + k) = Some (Some d))
    ∧ (∀ i, i < cur ∨ cur + n ≤ i → b' !! i = b !! i).
Proof.
  induction n as [|n IH]; intros b first cur b'; simpl.
  { intros [= <-]. split_and!; [done|intros; lia|done]. }
  case_bool_decide as Hcur; [|done].
  destruct (value_construct (T:=T)) as [d|] eqn:Hd; [|done].
  intros Hloop. apply IH in Hloop as (Hl & Hin & Hout).
  rewrite length_insert in Hl. split_and!; [done| |].
  - intros [|k] Hk.
    + exists d. split; [done|]. rewrite Nat.add_0_r, Hout by lia.
      by apply list_lookup_insert_eq.
    + replace (cur + S k) with (S cur + k) by lia. apply Hin. lia.
  - intros i Hi. rewrite Hout by lia. apply list_lookup_insert_ne. lia.
Qed.

Lemma uninitialized_value_construct_loop_total n :
  ∀ b first cur d,
    value_construct (T:=T) = Some d → cur + n ≤ length b →
    ∃ b', uninitialized_value_construct_loop b first cur n = Ret b'.
Proof.
  induction n as [|n IH]; intros b first cur d Hd Hlen; simpl; [by eauto|].
  rewrite bool_decide_eq_true_2 by lia. rewrite Hd.
  apply (IH _ _ _ d Hd). rewrite length_insert. lia.
Qed.

(** X1.  [Vector(size)]: when it returns, the vector has size and
    capacity [size] and every element is the value-initialised [T()];
    for [size = 0] nothing is allocated and it returns the empty vector.
    When the byte count [size * sizeof(T)] does not wrap around, it
    returns whenever [T()] does not throw and the allocation succeeds,
    and when [T()] throws no vector is built and no contract is broken. *)
Theorem sized_construction (size : nat) :
  (∀ v, Vector_sized size = Ret v →
     wf v ∧ Size v = size ∧ Capacity v = size
     ∧ ∀ x, x ∈ elements v → value_construct (T:=T) = Some x)
  ∧ (representable size →
     ∀ d, value_construct (T:=T) = Some d → can_allocate size = true →
     Vector_sized size = Ret (vector_of (replicate size d) size))
  ∧ (size = 0 → Vector_sized size = Ret Vector_default)
  ∧ (representable size → value_construct (T:=T) = None → 0 < size →
     Vector_sized size ≠ Fault ∧ ∀ v, Vector_sized size ≠ Ret v).
Proof.
  assert (∀ v, Vector_sized size = Ret v →
            wf v ∧ Size v = size ∧ Capacity v = size
            ∧ ∀ x, x ∈ elements v → value_construct (T:=T) = Some x) as Hret.
  { intros v Hv. pose proof (Vector_sized_spec size) as HS. rewrite Hv in HS.
    destruct HS as (Hwf & Hsize & Hcap). split_and!; [done..|].
    intros x Hx. apply list_elem_of_lookup in Hx as [i Hi].
    apply elements_lookup in Hi as [Hlt Hi]; [|done].
    unfold Vector_sized in Hv.
    destruct (RawMemory_new size) as [data|] eqn:Hnew; [|done].
    unfold uninitialized_value_construct_n in Hv.
    destruct (uninitialized_value_construct_loop _ _ _ _) as [b|e ?|] eqn:Hloop; [|done..].
    apply uninitialized_value_construct_loop_ret in Hloop as (_ & Hin & _).
    simplify_eq. simpl in *. destruct (Hin i Hlt) as (d & Hd & Hslot).
    simpl in Hslot. rewrite <- Hv in Hi. simpl in Hi. congruence. }
  split_and!; [done| | |].
  - intros Hrep d Hd Halloc.
    destruct (RawMemory_new_can_allocate _ Halloc) as [data Hnew].
    pose proof Hnew as Hdata. apply RawMemory_new_spec in Hdata; [|done]. subst data.
    unfold Vector_sized. rewrite Hnew. simpl. unfold uninitialized_value_construct_n.
    destruct (uninitialized_value_construct_loop_total size (replicate size None) 0 0 d Hd)
      as [b Hb]; [by rewrite length_replicate|].
    rewrite Hb. apply uninitialized_value_construct_loop_ret in Hb as (Hl & Hin & _).
    rewrite length_replicate in Hl. f_equal. unfold vector_of, with_buffer. simpl.
    rewrite length_replicate, Nat.sub_diag, app_nil_r. do 2 f_equal.
    apply list_eq. intros i. rewrite list_lookup_fmap.
    destruct (decide (i < size)) as [Hi|Hi].
    + destruct (Hin i Hi) as (d' & Hd' & Hslot). simpl in Hslot.
      rewrite Hslot, lookup_replicate_2 by done. simpl. congruence.
    + rewrite !lookup_ge_None_2; [done|rewrite length_replicate; lia|lia].
  - intros ->. reflexivity.
  - intros Hrep Hnone Hpos. split.
    + intros Hfault. pose proof (Vector_sized_spec size) as HS. rewrite Hfault in HS.
      by apply HS.
    + intros v Hv. unfold Vector_sized in Hv.
      destruct (RawMemory_new size) as [data|] eqn:Hnew; [|done].
      unfold uninitialized_value_construct_n in Hv.
      destruct size as [|n]; [lia|]. simpl in Hv.
      case_bool_decide; [|done]. by rewrite Hnone in Hv.
Qed.

(** X2.  [Vector(const Vector&)]: when it returns, the copy holds the
    elements of the source and both its size and its capacity are the
    size of the source (the spare capacity of the source is not copied).
    Copying an empty vector allocates nothing and returns the empty
    vector whatever the allocator does.  The call never breaks a
    contract, and with a non-throwing element type it returns whenever
    the allocation succeeds. *)
Theorem copy_construction `{!ValueSemantics T} (other : Vector) :
  wf other →
  (∀ v, Vector_copy other = Ret v →
     wf v ∧ elements v = elements other ∧ Size v = Size other
     ∧ Capacity v = Size other)
  ∧ (Size other = 0 → Vector_copy other = Ret Vector_default)
  ∧ (NoThrow T → can_allocate (Size other) = true → ∃ v, Vector_copy other = Ret v)
  ∧ Vector_copy other ≠ Fault.
Proof.
  intros Hwf. pose proof (Vector_copy_spec other Hwf) as HS. split_and!.
  - intros v Hv. rewrite Hv in HS. by destruct HS as (? & ? & ? & ?).
  - unfold Size. intros Hempty. unfold Vector_copy. rewrite Hempty. reflexivity.
  - intros HNT Halloc. destruct (Vector_copy other) as [v|e u|] eqn:Hc; [by eauto| |done].
    apply Vector_copy_nothrow in Hc as [_ Hnew].
    destruct (RawMemory_new_can_allocate _ Halloc) as [m Hm]. unfold Size in Hm. congruence.
  - intros Hfault. by rewrite Hfault in HS.
Qed.

(** X3.  [Resize]: to a smaller size it keeps the first [new_size]
    elements and the capacity and cannot fail; to the current size it
    changes nothing; to a larger size, when it returns, the old elements
    are followed by value-initialised ones and the capacity is the larger
    of the old capacity and [new_size].  It returns for a larger size
    only if the byte count [new_size * sizeof(T)] does not wrap around,
    and then it does not break a contract. *)
Theorem Resize_behaviour `{!ValueSemantics T} (v : Vector) (new_size : nat) :
  wf v →
  (new_size < size_ v →
   ∃ v', Resize v new_size = Ret v' ∧ wf v'
         ∧ elements v' = take new_size (elements v)
         ∧ Capacity v' = Capacity v)
  ∧ (new_size = size_ v → Resize v new_size = Ret v)
  ∧ (size_ v < new_size → ∀ v', Resize v new_size = Ret v' →
     ∃ d, value_construct (T:=T) = Some d
          ∧ elements v' = elements v ++ replicate (new_size - size_ v) d
          ∧ Capacity v' = Capacity v `max` new_size
          ∧ wf v'
          ∧ representable new_size)
  ∧ (representable new_size → Resize v new_size ≠ Fault).
Proof.
  intros Hwf. pose proof (Resize_spec v new_size Hwf) as HS.
  pose proof (length_elements v Hwf) as Hlen. split_and!.
  - intros Hshrink. destruct (Resize v new_size) as [v'|e v'|] eqn:Hr.
    + exists v'. destruct HS as (Hwf' & Hsize' & Hel).
      replace (size_ v `min` new_size) with new_size in Hel by lia.
      rewrite take_ge in Hel by (rewrite length_elements by done; lia).
      split_and!; [done..|].
      unfold Resize in Hr. rewrite bool_decide_eq_true_2 in Hr by done.
      injection Hr as <-. reflexivity.
    + unfold Resize in Hr. by rewrite bool_decide_eq_true_2 in Hr by done.
    + unfold Resize in Hr. by rewrite bool_decide_eq_true_2 in Hr by done.
  - intros ->. unfold Resize. rewrite !bool_decide_eq_false_2 by lia. by destruct v.
  - intros Hgrow v' Hr. rewrite Hr in HS. destruct HS as (Hwf' & Hsize' & Hel).
    assert (representable new_size) as Hrep.
    { destruct Hwf' as (Hle' & _ & _ & Hmax').
      apply (representable_le _ (Capacity v')); [lia|].
      by apply addressable_representable. }
    replace (size_ v `min` new_size) with (size_ v) in Hel by lia.
    rewrite (take_ge (elements v)) in Hel by lia.
    unfold Resize in Hr. rewrite bool_decide_eq_false_2 in Hr by lia.
    rewrite bool_decide_eq_true_2 in Hr by done.
    pose proof (Reserve_spec v new_size Hwf) as HR.
    destruct (Reserve v new_size) as [v1|e v1|]; [|done..].
    destruct HR as (Hwf1 & Hs1 & Hel1 & Hcap1 & _). specialize (Hwf1 Hrep).
    unfold uninitialized_value_construct_n in Hr.
    destruct (uninitialized_value_construct_loop _ _ _ _) as [b|e ?|] eqn:Hloop; [|done..].
    apply uninitialized_value_construct_loop_ret in Hloop as (Hl & Hin & Hout).
    destruct (Hin 0 ltac:(lia)) as (d & Hd & _). exists d. split; [done|].
    injection Hr as <-. split_and!; [| |done..].
    + apply elements_intro; simpl.
      { rewrite length_app, length_replicate. lia. }
      intros i y Hy. apply lookup_app_Some in Hy as [Hy|[Hge Hy]].
      * rewrite <- Hel1 in Hy. apply elements_lookup in Hy as [Hi Hy]; [|done].
        rewrite Hout by lia. done.
      * apply lookup_replicate in Hy as [-> Hi]. rewrite Hlen in Hge, Hi.
        destruct (Hin (i - size_ v1) ltac:(lia)) as (d' & Hd' & Hslot).
        replace (size_ v1 + (i - size_ v1)) with i in Hslot by lia. congruence.
    + unfold Capacity in *. simpl. case_bool_decide; [subst v1|]; lia.
  - intros Hrep Hfault. rewrite Hfault in HS. by apply HS.
Qed.

(** X4.  When [Resize] leaves by an exception, the size is unchanged;
    if the element type is copy constructible or its move constructor is
    [noexcept], the elements are unchanged too (only the capacity may
    have grown); and the invariant holds, provided the byte count
    [new_size * sizeof(T)] does not wrap around. *)
Theorem Resize_exception_keeps_elements `{!ValueSemantics T}
    (v : Vector) (new_size : nat) (e : exn) (v' : Vector) :
  wf v → Resize v new_size = Exn e v' →
  (representable new_size → wf v') ∧ size_ v' = size_ v
  ∧ (is_copy_constructible (T:=T) = true ∨ is_nothrow_move_constructible (T:=T) = true →
     elements v' = elements v).
Proof.
  intros Hwf Hr. split; [intros Hrep; by eapply Resize_exn_wf|].
  pose proof (Resize_spec v new_size Hwf) as HS. rewrite Hr in HS. split; [done|].
  by apply (Resize_exn_elements v new_size e).
Qed.

Lemma construct_from_CopyOf `{!ValueSemantics T} x t :
  construct_from (CopyOf x) = Some t → t = x.
Proof. simpl. apply copy_construct_value. Qed.


Lemma inserted_at_end (xs : list T) t :
  take (length xs) xs ++ t :: drop (length xs) xs = xs ++ [t].
Proof. by rewrite firstn_all, drop_all. Qed.


(** X6.  [Insert(pos, const T& value)] for a position in
    [begin(), end()]: when it returns, the sequence is the old one with a
    copy of [value] at index [pos], the size has grown by one and the
    invariant holds, whether the vector was full or not; the call never
    breaks a contract, and with a non-throwing element type it returns
    whenever the allocation (needed if the vector is full) succeeds.
    For a position beyond [end()] the assertion of [Emplace] fails. *)
Theorem Insert_inserts_value `{!ValueSemantics T} (v : Vector) (pos : nat) (value : T) :
  wf v →
  (pos ≤ size_ v →
   (∀ v', Insert v pos value = Ret v' →
      elements v' = take pos (elements v) ++ value :: drop pos (elements v)
      ∧ Size v' = S (Size v) ∧ wf v')
   ∧ Insert v pos value ≠ Fault
   ∧ (NoThrow T →
      (size_ v = Capacity v → can_allocate (1 `max` (Capacity v * 2)) = true) →
      ∃ v', Insert v pos value = Ret v'))
  ∧ (size_ v < pos → Insert v pos value = Fault).
Proof.
  intros Hwf. split.
  - intros Hpos. split_and!.
    + intros v' Hr. unfold Insert in Hr.
      pose proof (Emplace_spec v pos (CopyOf value) Hwf Hpos) as HE. rewrite Hr in HE.
      destruct HE as (t & Ht & Hwf' & Hsize & Hel).
      by apply construct_from_CopyOf in Ht as ->.
    + unfold Insert. intros Hfault.
      pose proof (Emplace_spec v pos (CopyOf value) Hwf Hpos) as HE. by rewrite Hfault in HE.
    + intros HNT Halloc. unfold Insert. apply Emplace_returns; [done..|].
      intros Hfull. rewrite growth_capacity, Hfull. by apply Halloc.
  - intros Hpos. unfold Insert, Emplace.
    by rewrite bool_decide_eq_false_2 by lia.
Qed.

(** X7.  [PopBack] on an empty vector fails its assertion; on a
    non-empty one it returns, drops the last element and keeps the
    capacity.  It undoes an append: after an [EmplaceBack] that
    returned, [PopBack] returns a vector with the original elements. *)
Theorem PopBack_removes_last `{!ValueSemantics T} (v : Vector) :
  wf v →
  (size_ v = 0 → PopBack v = Fault)
  ∧ (size_ v ≠ 0 →
     ∃ v', PopBack v = Ret v' ∧ wf v'
           ∧ elements v' = take (size_ v - 1) (elements v)
           ∧ Size v' = Size v - 1 ∧ Capacity v' = Capacity v)
  ∧ (∀ args v1, EmplaceBack v args = Ret v1 →
     ∃ v2, PopBack v1 = Ret v2 ∧ elements v2 = elements v ∧ Size v2 = Size v).
Proof.
  intros Hwf. split_and!.
  - intros Hempty. unfold PopBack. by rewrite bool_decide_eq_false_2 by lia.
  - intros Hne. destruct (PopBack_spec v Hwf Hne) as (v' & ? & ? & ? & ? & ?). by exists v'.
  - intros args v1 Hr. unfold EmplaceBack in Hr.
    pose proof (Emplace_spec v (size_ v) args Hwf ltac:(lia)) as HE. rewrite Hr in HE.
    destruct HE as (t & _ & Hwf1 & Hsize1 & Hel1).
    destruct (PopBack_spec v1 Hwf1 ltac:(lia)) as (v2 & Hpop & _ & Hsize2 & _ & Hel2).
    exists v2. split_and!; [done| |unfold Size; lia].
    rewrite Hel2, Hel1, Hsize1. simpl. rewrite Nat.sub_0_r.
    rewrite <- (length_elements v Hwf), inserted_at_end. by rewrite take_app_length.
Qed.

(** X8.  Erasing the last element is [PopBack]: no element is moved, so
    the call cannot throw whatever the element type.  Erasing at a
    position that is not before [end()] fails the assertion. *)
Theorem Erase_last_is_PopBack (v : Vector) (pos : nat) :
  (size_ v ≠ 0 → Erase v (size_ v - 1) = PopBack v)
  ∧ (size_ v ≤ pos → Erase v pos = Fault).
Proof.
  split.
  - intros Hne. unfold Erase, std_move. rewrite !bool_decide_eq_true_2 by lia.
    replace (size_ v - (size_ v - 1 + 1)) with 0 by lia. simpl.
    by rewrite set_buffer_same.
  - intros Hpos. unfold Erase. by rewrite bool_decide_eq_false_2 by lia.
Qed.

(** X9.  [operator[]] reads the elements: for a well-formed vector,
    [v[index]] is the element at [index] of the sequence when
    [index < size], and the assertion fails otherwise; the inner
    assertion of [RawMemory::operator[]] never fails on its own. *)
Theorem indexing_reads_elements (v : Vector) (index : nat) :
  wf v →
  at_index v index = elements v !! index
  ∧ (index < size_ v → is_Some (at_index v index)
                       ∧ RawMemory_index_ok (data_ v) index = true)
  ∧ (size_ v ≤ index → at_index v index = None).
Proof.
  intros Hwf. pose proof Hwf as (Hle & Hlen & _). unfold Capacity in *.
  unfold at_index, RawMemory_index_ok. split_and!.
  - case_bool_decide as Hi.
    + rewrite bool_decide_eq_true_2 by lia.
      rewrite (elements_slot v index Hwf Hi). done.
    + symmetry. apply lookup_ge_None. rewrite length_elements by done. lia.
  - intros Hi. rewrite !bool_decide_eq_true_2 by lia.
    destruct (wf_live v index Hwf Hi) as [x Hx]. rewrite Hx. by eauto.
  - intros Hi. by rewrite bool_decide_eq_false_2 by lia.
Qed.


(** X11.  [Emplace] on a full vector gives the strong guarantee for
    every failure, not only that of the new element's constructor,
    whenever the element type is copy constructible or its move
    constructor is [noexcept]: the vector is exactly what it was. *)
Theorem Emplace_full_strong_guarantee `{!ValueSemantics T}
    (v : Vector) (pos : nat) (args : ctor_args T) (e : exn) (v' : Vector) :
  wf v → size_ v = Capacity v → pos ≤ size_ v →
  Emplace v pos args = Exn e v' →
  (is_copy_constructible (T:=T) = true ∨ is_nothrow_move_constructible (T:=T) = true →
   v' = v)
  ∧ size_ v' = size_ v ∧ Capacity v' = Capacity v ∧ wf v'.
Proof.
  intros Hwf Hfull Hpos Hr. unfold Emplace in Hr.
  rewrite !bool_decide_eq_true_2 in Hr by done.
  pose proof (Realocate_spec v pos args Hwf Hpos) as HS. rewrite Hr in HS.
  destruct HS as (Hsize & Hcap & Hcases).
  split_and!; [|done..|by eapply Realocate_exn_wf].
  intros Htrait. destruct Hcases as [->|(_ & Hflag & Hcopy)]; [done|].
  destruct Htrait; congruence.
Qed.

Lemma Reserve_bad_alloc v new_capacity v' :
  Reserve v new_capacity = Exn bad_alloc v' → v' = v.
Proof.
  unfold Reserve. case_bool_decide; [done|].
  destruct (RawMemory_new new_capacity) as [new_data|]; [|by intros [= <-]].
  destruct relocate_by_move.
  - unfold uninitialized_move_n.
    destruct (uninitialized_move_loop _ _ _ _ _ _) as [[old nb]|e1 [old nb]|] eqn:Hloop;
      [done| |done].
    apply uninitialized_move_loop_exn_kind in Hloop. by intros [= -> _].
  - unfold uninitialized_copy_n.
    destruct (uninitialized_copy_loop _ _ _ _ _ _) as [nb|e1 nb|] eqn:Hloop; [done| |done].
    by intros [= _ <-].
Qed.

(** X12.  A failure of the vector's own allocation never changes the
    vector: when [Reserve], [Resize], [Emplace] (hence [EmplaceBack],
    [PushBack], [Insert]) or copy assignment leaves with [std::bad_alloc]
    from [operator new], the vector is exactly what it was; and [Erase]
    and the insertion into spare capacity never allocate. *)
Theorem allocation_failure_changes_nothing
    (v : Vector) (v' : Vector) :
  (∀ n, Reserve v n = Exn bad_alloc v' → v' = v)
  ∧ (∀ n, Resize v n = Exn bad_alloc v' → v' = v)
  ∧ (∀ pos args, Emplace v pos args = Exn bad_alloc v' → v' = v ∧ size_ v = Capacity v)
  ∧ (∀ rhs, copy_assign_body v rhs = Exn bad_alloc v' → v' = v ∧ Capacity v < size_ rhs)
  ∧ (∀ pos, Erase v pos ≠ Exn bad_alloc v').
Proof.
  split_and!.
  - intros n. apply Reserve_bad_alloc.
  - intros n. unfold Resize. case_bool_decide; [done|]. case_bool_decide; [|done].
    destruct (Reserve v n) as [v1|e1 v1|] eqn:Hres; [| |done].
    + unfold uninitialized_value_construct_n.
      destruct (uninitialized_value_construct_loop _ _ _ _) as [b|e2 b|] eqn:Hloop;
        [done| |done].
      apply uninitialized_value_construct_loop_exn_kind in Hloop. by intros [= -> _].
    + intros [= -> ->]. by apply Reserve_bad_alloc in Hres.
  - intros pos args. unfold Emplace. case_bool_decide; [|done].
    case_bool_decide as Hfull; [|case_bool_decide].
    + unfold Realocate.
      destruct (RawMemory_new _) as [new_data|]; [|by intros [= <-]].
      destruct (RawMemory_index_ok _ _ && _); [|done].
      destruct (construct_from args) as [t|]; [|done].
      destruct relocate_by_move.
      * unfold uninitialized_move, uninitialized_move_n. case_bool_decide; [|done].
        destruct (uninitialized_move_loop _ _ _ _ _ _) as [[old1 nb1]|e1 [old1 nb1]|]
          eqn:Hl1; [| |done].
        2:{ apply uninitialized_move_loop_exn_kind in Hl1. by intros [= -> _]. }
        case_bool_decide; [|done].
        destruct (uninitialized_move_loop old1 _ _ _ _ _) as [[old2 nb2]|e2 [old2 nb2]|]
          eqn:Hl2; [done| |done].
        apply uninitialized_move_loop_exn_kind in Hl2. by intros [= -> _].
      * unfold uninitialized_copy, uninitialized_copy_n. case_bool_decide; [|done].
        destruct (uninitialized_copy_loop _ _ _ _ _ _) as [nb1|e1 ?|] eqn:Hl1; [| |done].
        2:{ by intros [= _ <-]. }
        case_bool_decide; [|done].
        destruct (uninitialized_copy_loop _ _ _ nb1 _ _) as [nb2|e2 ?|] eqn:Hl2;
          [done| |done].
        by intros [= _ <-].
    + unfold Emplace_at_end. case_bool_decide; [|done].
      by destruct (construct_from args).
    + unfold Emplace_shift. destruct (construct_from args) as [tmp|]; [|done].
      destruct (move_last_to_end v) as [b1|e1 b1|] eqn:Hlast; [| |done].
      2:{ unfold move_last_to_end in Hlast.
          destruct (RawMemory_index_ok _ _); [|done].
          destruct (_ !! _) as [[x|]|]; [|done..]. case_bool_decide; [|done].
          destruct (move_construct x) as [[y|] x']; [done|]. by simplify_eq. }
      unfold std_move_backward. case_bool_decide; [|done].
      destruct (move_backward_loop _ _ _ _) as [b2|e2 b2|] eqn:Hshift; [| |done].
      2:{ apply move_backward_loop_exn_kind in Hshift. by intros [= -> _]. }
      unfold move_assign_from. destruct (b2 !! pos) as [[y|]|]; [|done..].
      by destruct (move_assign y tmp) as [[[] y'] x'].
  - intros rhs. unfold copy_assign_body. case_bool_decide as Hbig.
    + destruct (Vector_copy rhs); [done| |done]. by intros [= _ <-].
    + unfold AllocateOnCapacity, std_copy. case_bool_decide; [|done].
      destruct (copy_loop _ _ _ _ _) as [b1|e1 b1|] eqn:Hl1; [| |done].
      2:{ apply copy_loop_exn_kind in Hl1. by intros [= -> _]. }
      case_bool_decide; [done|].
      unfold uninitialized_copy, uninitialized_copy_n. case_bool_decide; [|done].
      destruct (uninitialized_copy_loop _ _ _ _ _ _) as [b2|e2 b2|] eqn:Hl2; [done| |done].
      apply uninitialized_copy_loop_exn_kind in Hl2. by intros [= -> _].
  - intros pos. unfold Erase. case_bool_decide; [|done]. case_bool_decide; [|done].
    unfold std_move. case_bool_decide; [|done].
    destruct (move_loop _ _ _ _) as [b1|e1 b1|] eqn:Hshift; [| |done].
    + unfold PopBack. by case_bool_decide.
    + apply move_loop_exn_kind in Hshift. by intros [= -> _].
Qed.

Lemma PushBack_step `{!ValueSemantics T} `{!NoThrow T} v value :
  (∀ n, addressable n → can_allocate n = true) → wf v →
  addressable (2 * S (size_ v)) →
  ∃ v', PushBack v value = Ret v' ∧ wf v'
        ∧ elements v' = elements v ++ [value]
        ∧ size_ v' = S (size_ v)
        ∧ Capacity v' = (if bool_decide (size_ v = Capacity v)
                         then 1 `max` (Capacity v * 2) else Capacity v).
Proof.
  intros Halloc Hwf Hroom. unfold PushBack, EmplaceBack.
  destruct (Emplace_returns v (size_ v) (CopyOf value) Hwf ltac:(lia)) as [v' Hr].
  { intros _. apply Halloc. apply (addressable_le _ (2 * S (size_ v))); [|done].
    case_bool_decide; lia. }
  exists v'. split; [done|].
  pose proof (Emplace_spec v (size_ v) (CopyOf value) Hwf ltac:(lia)) as HE.
  rewrite Hr in HE. destruct HE as (t & Ht & Hwf' & Hsize & Hel).
  apply construct_from_CopyOf in Ht as ->.
  rewrite <- (length_elements v Hwf), inserted_at_end in Hel. split_and!; [done..|].
  unfold Emplace in Hr. rewrite bool_decide_eq_true_2 in Hr by lia.
  destruct (decide (size_ v = Capacity v)) as [Hfull|Hspare].
  - rewrite !bool_decide_eq_true_2 by done. rewrite bool_decide_eq_true_2 in Hr by done.
    apply Realocate_capacity in Hr. by rewrite <- Hfull.
  - rewrite !bool_decide_eq_false_2 by done. rewrite bool_decide_eq_false_2 in Hr by done.
    rewrite bool_decide_eq_true_2 in Hr by done. pose proof Hwf as (Hle & _).
    pose proof (Emplace_at_end_spec v (CopyOf value) Hwf ltac:(lia)) as HA.
    rewrite Hr in HA. by destruct HA as (? & ? & ? & ? & ? & ?).
Qed.

(** X13.  Appending within the capacity never reallocates: if the
    values fit into the free slots (as after a [Reserve]), pushing them
    one after the other returns, keeps the capacity, and yields the old
    elements followed by the values.  The allocator is not asked, so it
    may fail every request. *)
Theorem PushBack_all_within_capacity `{!ValueSemantics T} `{!NoThrow T}
    (values : list T) :
  ∀ v : Vector,
    wf v → size_ v + length values ≤ Capacity v →
    ∃ v', PushBack_all v values = Ret v' ∧ wf v'
          ∧ elements v' = elements v ++ values
          ∧ Capacity v' = Capacity v
          ∧ Size v' = Size v + length values.
Proof.
  induction values as [|value rest IH]; intros v Hwf Hfit; simpl in *.
  { exists v. rewrite app_nil_r. unfold Size. split_and!; [done..|lia]. }
  unfold PushBack, EmplaceBack, Emplace.
  rewrite bool_decide_eq_true_2 by lia. rewrite bool_decide_eq_false_2 by lia.
  rewrite bool_decide_eq_true_2 by done.
  pose proof (Emplace_at_end_spec v (CopyOf value) Hwf ltac:(lia)) as HA.
  destruct (Emplace_at_end v (CopyOf value)) as [v1|e v1|] eqn:Hr; [| |done].
  2:{ destruct HA as [_ Hnone]. destruct (construct_from_nothrow (CopyOf value)) as [t Ht].
      congruence. }
  destruct HA as (t & Ht & Hwf1 & Hsize1 & Hcap1 & Hel1).
  apply construct_from_CopyOf in Ht as ->.
  rewrite <- (length_elements v Hwf), inserted_at_end in Hel1.
  destruct (IH v1 Hwf1 ltac:(lia)) as (v' & Hall & Hwf' & Hel' & Hcap' & Hsize').
  exists v'. unfold Size in *. split_and!; [done..| |congruence|lia].
  rewrite Hel', Hel1, <- app_assoc. done.
Qed.

(* The capacities that repeated doubling from the empty vector reaches *)
Lemma doubling_invariant_step (size cap : nat) :
  (size = 0 ∧ cap = 0) ∨ (∃ k, cap = 2 ^ k ∧ size ≤ cap < 2 * size) →
  ∃ k, (if bool_decide (size = cap) then 1 `max` (cap * 2) else cap) = 2 ^ k
       ∧ S size ≤ (if bool_decide (size = cap) then 1 `max` (cap * 2) else cap)
                < 2 * S size.
Proof.
  intros [[-> ->]|(k & -> & Hk)].
  - exists 0. simpl. lia.
  - case_bool_decide as Hfull.
    + exists (S k). rewrite Nat.pow_succ_r'. lia.
    + exists k. lia.
Qed.

(** X14.  Geometric growth: with a non-throwing element type and an
    allocator that satisfies every request for a block that can exist,
    pushing the values one after the other onto the empty vector returns
    a vector that holds exactly these values, whose capacity is 0 if
    there were none and otherwise a power of two that is at least the
    size and less than twice the size.  The values are supposed to take
    less than half of [PTRDIFF_MAX] bytes, so that a block of twice their
    number can exist. *)
Theorem PushBack_all_from_empty `{!ValueSemantics T} `{!NoThrow T} (values : list T) :
  (∀ n, addressable n → can_allocate n = true) →
  addressable (2 * length values) →
  ∃ v', PushBack_all Vector_default values = Ret v' ∧ wf v'
        ∧ elements v' = values
        ∧ (values = [] → Capacity v' = 0)
        ∧ (values ≠ [] →
           ∃ k, Capacity v' = 2 ^ k ∧ length values ≤ Capacity v' < 2 * length values).
Proof.
  intros Halloc Hroom.
  assert (∀ (vals : list T) (v : Vector),
            wf v → addressable (2 * (size_ v + length vals)) →
            (size_ v = 0 ∧ Capacity v = 0)
            ∨ (∃ k, Capacity v = 2 ^ k ∧ size_ v ≤ Capacity v < 2 * size_ v) →
            ∃ v', PushBack_all v vals = Ret v' ∧ wf v'
                  ∧ elements v' = elements v ++ vals
                  ∧ size_ v' = size_ v + length vals
                  ∧ ((size_ v' = 0 ∧ Capacity v' = 0)
                     ∨ (∃ k, Capacity v' = 2 ^ k ∧ size_ v' ≤ Capacity v' < 2 * size_ v')))
    as Hgen.
  { induction vals as [|value rest IH]; intros v Hwf Hbound Hinv; simpl.
    - exists v. rewrite app_nil_r. split_and!; [done..|lia|done].
    - simpl in Hbound.
      destruct (PushBack_step v value Halloc Hwf)
        as (v1 & Hr & Hwf1 & Hel1 & Hsize1 & Hcap1).
      { apply (addressable_le _ (2 * (size_ v + S (length rest)))); [lia|done]. }
      rewrite Hr.
      destruct (doubling_invariant_step _ _ Hinv) as (k & Hk & Hbounds).
      rewrite <- Hcap1 in Hk, Hbounds. rewrite <- Hsize1 in Hbounds.
      destruct (IH v1 Hwf1) as (v' & Hall & Hwf' & Hel' & Hsize' & Hinv').
      { apply (addressable_le _ (2 * (size_ v + S (length rest)))); [lia|done]. }
      { right. by exists k. }
      exists v'. split_and!; [done..| |lia|done].
      rewrite Hel', Hel1, <- app_assoc. done. }
  destruct (Hgen values Vector_default wf_default) as (v' & Hall & Hwf' & Hel & Hsize & Hinv).
  { done. }
  { by left. }
  exists v'. simpl in Hsize. split_and!; [done..| |].
  - intros ->. simpl in Hsize. destruct Hinv as [[_ ?]|(k & _ & ?)]; [done|lia].
  - intros Hne. assert (length values ≠ 0) as Hlen by (by destruct values).
    destruct Hinv as [[? _]|(k & Hk & Hb)]; [lia|]. exists k. split; [done|lia].
Qed.

(** X15.  The destructor leaves no live object behind: for a
    well-formed vector, after [std::destroy_n(begin(), size_)] every slot
    of the block is uninitialised when the block is released. *)
Theorem destructor_destroys_every_element (v : Vector) :
  wf v → Vector_destroy v = replicate (Capacity v) None.
Proof.
  intros Hwf. pose proof Hwf as (Hle & Hlen & _). unfold Vector_destroy.
  apply list_eq. intros i. destruct (decide (i < Capacity v)) as [Hi|Hi].
  - rewrite lookup_replicate_2 by done. destruct (decide (i < size_ v)).
    + apply lookup_destroy_n_in; lia.
    + rewrite lookup_destroy_n_out by lia. apply wf_free; [done|lia].
  - rewrite !lookup_ge_None_2; [done|rewrite length_replicate; lia|].
    rewrite length_destroy_n. lia.
Qed.

Lemma swap_RawMemory_self_spec (a : RawMemory) : swap_RawMemory_self a = a.
Proof. by destruct a. Qed.

(** X16.  [Swap] on two distinct vectors exchanges their whole states
    (elements, size, capacity) and touches nothing else; a vector swapped
    with itself is unchanged; and swapping twice restores the store. *)
Theorem Swap_exchanges (h : gmap nat Vector) (this other : nat) (a o : Vector) :
  h !! this = Some a → h !! other = Some o →
  (this ≠ other →
   ∃ h', Swap_at h this other = Ret h'
         ∧ h' !! this = Some o ∧ h' !! other = Some a
         ∧ (∀ k, k ≠ this → k ≠ other → h' !! k = h !! k)
         ∧ Swap_at h' this other = Ret h)
  ∧ (this = other → Swap_at h this other = Ret h).
Proof.
  intros Ha Ho. split.
  - intros Hne. unfold Swap_at at 1. rewrite Ha, Ho.
    rewrite bool_decide_eq_true_2 by done. rewrite Swap_spec.
    eexists. split; [done|]. split_and!.
    + rewrite lookup_insert_ne by done. by rewrite lookup_insert_eq.
    + by rewrite lookup_insert_eq.
    + intros k ??. by rewrite !lookup_insert_ne.
    + unfold Swap_at. rewrite lookup_insert_eq.
      rewrite lookup_insert_ne by done. rewrite lookup_insert_eq.
      rewrite bool_decide_eq_true_2 by done. rewrite Swap_spec. f_equal.
      apply map_eq. intros k.
      destruct (decide (k = other)) as [->|Hko]; [by rewrite lookup_insert_eq|].
      rewrite lookup_insert_ne by done.
      destruct (decide (k = this)) as [->|Hkt]; [by rewrite lookup_insert_eq|].
      by rewrite !lookup_insert_ne.
  - intros <-. unfold Swap_at. rewrite Ha. rewrite bool_decide_eq_false_2 by naive_solver.
    rewrite swap_RawMemory_self_spec. f_equal. apply insert_id. by destruct a.
Qed.

(** X19.  [RawMemory(n)]: the object records the capacity [n] whatever
    block it obtained.  The block consists of uninitialised slots, never
    more than [n], and exactly [n] of them if and only if the byte count
    [n * sizeof(T)] does not wrap around in [size_t]; in that case it is
    a block of at most [PTRDIFF_MAX] bytes.  For a capacity other than
    zero, [operator new] was asked for the wrapped byte count and
    granted it. *)
Theorem RawMemory_ownership (n : nat) (m : RawMemory) :
  RawMemory_new n = Some m →
  capacity_ m = n
  ∧ (∀ i, i < length (buffer_ m) → buffer_ m !! i = Some None)
  ∧ length (buffer_ m) ≤ n
  ∧ (length (buffer_ m) = n ↔ representable n)
  ∧ (representable n → addressable n)
  ∧ (n ≠ 0 → operator_new (byte_size n) = true).
Proof.
  intros Hnew. pose proof Hnew as Hshape.
  apply RawMemory_new_shape in Hshape as [-> Halloc]. simpl.
  rewrite length_replicate. split_and!.
  - done.
  - intros i Hi. by apply lookup_replicate_2.
  - apply block_slots_le.
  - split.
    + intros Hall. destruct (representable_dec n) as [|Hover]; [done|].
      apply block_slots_overflow in Hover. lia.
    + apply block_slots_representable.
  - intros Hrep. by eapply RawMemory_new_addressable.
  - intros Hn. by destruct Halloc.
Qed.

(** X20.  Appending gives the strong guarantee: when [EmplaceBack]
    (hence [PushBack]) leaves by an exception and the element type is
    copy constructible or its move constructor is [noexcept], the vector
    is exactly what it was, whether it was full or had a free slot. *)
Theorem EmplaceBack_strong_guarantee `{!ValueSemantics T}
    (v : Vector) (args : ctor_args T) (e : exn) (v' : Vector) :
  wf v → EmplaceBack v args = Exn e v' →
  is_copy_constructible (T:=T) = true ∨ is_nothrow_move_constructible (T:=T) = true →
  v' = v.
Proof.
  intros Hwf Hr Htrait. pose proof Hwf as (Hle & _). unfold EmplaceBack, Emplace in Hr.
  rewrite bool_decide_eq_true_2 in Hr by lia.
  destruct (decide (size_ v = Capacity v)) as [Hfull|Hspare].
  - rewrite bool_decide_eq_true_2 in Hr by done.
    pose proof (Realocate_spec v (size_ v) args Hwf ltac:(lia)) as HS. rewrite Hr in HS.
    destruct HS as (_ & _ & [->|(_ & Hflag & Hcopy)]); [done|].
    destruct Htrait; congruence.
  - rewrite bool_decide_eq_false_2 in Hr by done.
    rewrite bool_decide_eq_true_2 in Hr by done.
    pose proof (Emplace_at_end_spec v args Hwf ltac:(lia)) as HA. rewrite Hr in HA.
    by destruct HA as [-> _].
Qed.

End Model.

(** ** Instances of the element type *)

#[export] Existing Instance unlimited.

#[export] Instance int_value_semantics : ValueSemantics Z.
Proof. split; simpl; intros; simplify_eq; eauto. Qed.

#[export] Instance int_nothrow : NoThrow Z.
Proof. split; simpl; intros; eauto. Qed.

#[export] Instance fragile_value_semantics : ValueSemantics fragile.
Proof.
  split; simpl; intros *; repeat case_bool_decide; intros; simplify_eq; eauto.
Qed.

(** [unlimited] satisfies every request for a block that can exist. *)
Lemma unlimited_can_allocate {T : Type} `{!Element T} (n : nat) :
  addressable (T:=T) n → can_allocate (T:=T) (alloc:=unlimited) n = true.
Proof.
  intros Hn. unfold can_allocate. simpl. apply N.leb_le.
  rewrite byte_size_representable by (by apply addressable_representable). done.
Qed.

(** ** The claims at concrete vectors *)

(** The scenario of the specification: three appends, an insert at
    index 1, an erase at index 0, a pop. *)
Example scenario :
  and_then (and_then (and_then (and_then (and_then
    (EmplaceBack Vector_default (@Pack Z int_element 1%Z))
    (λ v, EmplaceBack v (@Pack Z int_element 2%Z)))
    (λ v, EmplaceBack v (@Pack Z int_element 3%Z)))
    (λ v, Insert v 1 9%Z))
    (λ v, Erase v 0))
    PopBack
  = Ret (vector_of [9; 2]%Z 4).
Proof. reflexivity. Qed.

Lemma move_transfers_state_witness :
  1 ≠ 0
  ∧ ({[1 := vector_of [1; 2]%Z 2]} : gmap nat (Vector (T:=Z))) !! 1
    = Some (vector_of [1; 2]%Z 2)
  ∧ (({[1 := vector_of [1; 2]%Z 2]} : gmap nat (Vector (T:=Z))) !! 0 = None →
     ∃ h' va',
       move_construct_at {[1 := vector_of [1; 2]%Z 2]} 0 1 = Ret h'
       ∧ h' !! 0 = Some (vector_of [1; 2]%Z 2)
       ∧ h' !! 1 = Some va'
       ∧ Size va' = 0 ∧ Capacity va' = 0 ∧ elements va' = []).
Proof.
  split; [lia|]. split; [reflexivity|].
  apply (move_transfers_state (T:=Z) {[1 := vector_of [1; 2]%Z 2]} 1 0
           (vector_of [1; 2]%Z 2)); [lia|reflexivity].
Defined.

(** C1, as stated, fails for move assignment: after [B = std::move(A)]
    with [B] holding one element, [A] holds that element and is not
    empty. *)
Lemma move_assignment_source_not_empty :
  ¬ (∀ (h h' : gmap nat (Vector (T:=Z))) (a b : nat) (va : Vector),
       a ≠ b → h !! a = Some va → is_Some (h !! b) →
       move_assign_at h b a = Ret h' →
       ∃ va', h' !! a = Some va' ∧ Size va' = 0 ∧ Capacity va' = 0).
Proof.
  intros Hclaim.
  destruct (Hclaim {[0 := vector_of [5]%Z 1; 1 := vector_of [1; 2]%Z 2]}
              {[0 := vector_of [1; 2]%Z 2; 1 := vector_of [5]%Z 1]}
              1 0 (vector_of [1; 2]%Z 2))
    as (va' & Hva' & Hsize & _); [lia|reflexivity|by eexists| |].
  - rewrite (move_assign_at_distinct _ 0 1 (vector_of [5]%Z 1) (vector_of [1; 2]%Z 2))
      by done.
    reflexivity.
  - vm_compute in Hva'. by simplify_eq.
Qed.

Lemma self_assignment_is_identity_witness :
  ({[5 := vector_of [1; 2]%Z 2]} : gmap nat (Vector (T:=Z))) !! 5
    = Some (vector_of [1; 2]%Z 2)
  ∧ copy_assign_at ({[5 := vector_of [1; 2]%Z 2]} : gmap nat (Vector (T:=Z))) 5 5
    = Ret {[5 := vector_of [1; 2]%Z 2]}
  ∧ move_assign_at ({[5 := vector_of [1; 2]%Z 2]} : gmap nat (Vector (T:=Z))) 5 5
    = Ret {[5 := vector_of [1; 2]%Z 2]}.
Proof.
  split; [reflexivity|].
  apply (self_assignment_is_identity (T:=Z) {[5 := vector_of [1; 2]%Z 2]} 5
           (vector_of [1; 2]%Z 2)).
  reflexivity.
Defined.

Lemma Emplace_at_capacity_strong_guarantee_witness :
  wf (vector_of [Fragile 1; Fragile 2] 2)
  ∧ size_ (vector_of [Fragile 1; Fragile 2] 2) = Capacity (vector_of [Fragile 1; Fragile 2] 2)
  ∧ 1 ≤ size_ (vector_of [Fragile 1; Fragile 2] 2)
  ∧ construct_from (@Pack fragile fragile_element 0) = None
  ∧ (∃ e, Emplace (vector_of [Fragile 1; Fragile 2] 2) 1 (@Pack fragile fragile_element 0)
          = Exn e (vector_of [Fragile 1; Fragile 2] 2)).
Proof.
  assert (wf (vector_of [Fragile 1; Fragile 2] 2)) as Hwf.
  { apply wf_check_sound. reflexivity. }
  split; [exact Hwf|]. split; [reflexivity|]. split; [simpl; lia|].
  split; [reflexivity|].
  destruct (Emplace_at_capacity_strong_guarantee (T:=fragile)
              (vector_of [Fragile 1; Fragile 2] 2) 1 (@Pack fragile fragile_element 0))
    as (Hfail & _); [exact Hwf|reflexivity|simpl; lia|].
  apply Hfail. reflexivity.
Defined.

Lemma growth_doubles_capacity_witness :
  size_ (vector_of [1; 2; 3]%Z 3) = Capacity (vector_of [1; 2; 3]%Z 3)
  ∧ Emplace (vector_of [1; 2; 3]%Z 3) 1 (@Pack Z int_element 9%Z)
    = Ret (vector_of [1; 9; 2; 3]%Z 6)
  ∧ Capacity (vector_of [1; 9; 2; 3]%Z 6) = 1 `max` (Capacity (vector_of [1; 2; 3]%Z 3) * 2).
Proof.
  split; [reflexivity|]. split; [reflexivity|].
  destruct (growth_doubles_capacity (T:=Z) (vector_of [1; 2; 3]%Z 3) 1
              (@Pack Z int_element 9%Z)) as [Hgrow _]; [reflexivity|].
  apply Hgrow. reflexivity.
Defined.

Lemma Reserve_grows_to_exactly_witness :
  wf (vector_of [1; 2]%Z 2)
  ∧ Reserve (vector_of [1; 2]%Z 2) 5 = Ret (vector_of [1; 2]%Z 5)
  ∧ Capacity (vector_of [1; 2]%Z 5) = 5
  ∧ size_ (vector_of [1; 2]%Z 5) = size_ (vector_of [1; 2]%Z 2)
  ∧ elements (vector_of [1; 2]%Z 5) = elements (vector_of [1; 2]%Z 2)
  ∧ representable (T:=Z) 5
  ∧ wf (vector_of [1; 2]%Z 5).
Proof.
  assert (wf (vector_of [1; 2]%Z 2)) as Hwf.
  { apply wf_check_sound. reflexivity. }
  assert (representable (T:=Z) 5) as Hrep.
  { apply N.leb_le. reflexivity. }
  split; [exact Hwf|]. split; [reflexivity|].
  destruct (Reserve_grows_to_exactly (T:=Z) (vector_of [1; 2]%Z 2) 5 Hwf)
    as (_ & Hgrow & _).
  destruct (Hgrow ltac:(unfold Capacity; simpl; lia) (vector_of [1; 2]%Z 5) eq_refl)
    as (Hcap & Hsize & Hel & Hwf').
  split; [exact Hcap|]. split; [exact Hsize|]. split; [exact Hel|].
  split; [exact Hrep|]. exact (Hwf' Hrep).
Defined.

(** C5, as stated, fails for a capacity whose byte count wraps around.
    For [Vector<int>] holding 1, 2, 3, [Reserve(2^62)] asks [operator new]
    for [2^62 * 4 mod 2^64 = 0] bytes, which is granted; the relocation
    of the three elements then writes past the end of that block, so the
    call does not result in a vector of capacity [2^62] holding the
    elements. *)
Lemma Reserve_fails_when_byte_count_wraps :
  wf (vector_of [1; 2; 3]%Z 3)
  ∧ Capacity (vector_of [1; 2; 3]%Z 3) < N.to_nat (2 ^ 62)
  ∧ byte_size (T:=Z) (N.to_nat (2 ^ 62)) = 0%N
  ∧ can_allocate (T:=Z) (alloc:=unlimited) (N.to_nat (2 ^ 62)) = true
  ∧ Reserve (alloc:=unlimited) (vector_of [1; 2; 3]%Z 3) (N.to_nat (2 ^ 62)) = Fault
  ∧ ¬ (∃ v', Reserve (alloc:=unlimited) (vector_of [1; 2; 3]%Z 3) (N.to_nat (2 ^ 62))
             = Ret v'
             ∧ Capacity v' = N.to_nat (2 ^ 62)
             ∧ size_ v' = size_ (vector_of [1; 2; 3]%Z 3)
             ∧ elements v' = elements (vector_of [1; 2; 3]%Z 3)).
Proof.
  assert (byte_size (T:=Z) (N.to_nat (2 ^ 62)) = 0%N) as Hbytes.
  { unfold byte_size. rewrite N2Nat.id. reflexivity. }
  assert (Capacity (vector_of [1; 2; 3]%Z 3) < N.to_nat (2 ^ 62)) as Hgrow.
  { change (3 < N.to_nat (2 ^ 62)). lia. }
  assert (can_allocate (T:=Z) (alloc:=unlimited) (N.to_nat (2 ^ 62)) = true) as Halloc.
  { unfold can_allocate. rewrite Hbytes. reflexivity. }
  assert (Reserve (alloc:=unlimited) (vector_of [1; 2; 3]%Z 3) (N.to_nat (2 ^ 62)) = Fault)
    as Hfault.
  { apply Reserve_overflow; [exact Hgrow|exact Halloc|]. rewrite Hbytes.
    change (0 < 3). lia. }
  split; [apply wf_check_sound; reflexivity|]. split; [exact Hgrow|].
  split; [exact Hbytes|]. split; [exact Halloc|]. split; [exact Hfault|].
  intros (v' & Hret & _). rewrite Hfault in Hret. discriminate Hret.
Qed.

Lemma copy_assignment_guarantees_witness :
  0 ≠ 1
  ∧ wf (vector_of [Fragile 7] 1)
  ∧ wf (vector_of [Fragile 1; Fragile 13] 2)
  ∧ Capacity (vector_of [Fragile 7] 1) < size_ (vector_of [Fragile 1; Fragile 13] 2)
  ∧ match copy_assign_at
            ({[0 := vector_of [Fragile 7] 1; 1 := vector_of [Fragile 1; Fragile 13] 2]}
               : gmap nat (Vector (T:=fragile))) 0 1 with
    | Ret h' =>
        ∃ rhs_copy, Vector_copy (vector_of [Fragile 1; Fragile 13] 2) = Ret rhs_copy
                    ∧ h' = <[0 := rhs_copy]>
                             {[0 := vector_of [Fragile 7] 1;
                               1 := vector_of [Fragile 1; Fragile 13] 2]}
                    ∧ elements rhs_copy = elements (vector_of [Fragile 1; Fragile 13] 2)
                    ∧ size_ rhs_copy = size_ (vector_of [Fragile 1; Fragile 13] 2)
                    ∧ Capacity rhs_copy = size_ (vector_of [Fragile 1; Fragile 13] 2)
                    ∧ wf rhs_copy
    | Exn e h' =>
        h' = {[0 := vector_of [Fragile 7] 1; 1 := vector_of [Fragile 1; Fragile 13] 2]}
    | Fault => False
    end.
Proof.
  assert (wf (vector_of [Fragile 7] 1)) as Ha.
  { apply wf_check_sound. reflexivity. }
  assert (wf (vector_of [Fragile 1; Fragile 13] 2)) as Hr.
  { apply wf_check_sound. reflexivity. }
  split; [lia|]. split; [exact Ha|]. split; [exact Hr|].
  split; [unfold Capacity; simpl; lia|].
  destruct (copy_assignment_guarantees (T:=fragile)
              {[0 := vector_of [Fragile 7] 1; 1 := vector_of [Fragile 1; Fragile 13] 2]}
              0 1 (vector_of [Fragile 7] 1) (vector_of [Fragile 1; Fragile 13] 2))
    as (Hbig & _); [lia|reflexivity|reflexivity|exact Ha|exact Hr|].
  apply Hbig. unfold Capacity; simpl; lia.
Defined.

(** C6, as stated, fails at [pos = end()]: on an empty vector with one
    free slot there is no last element to move, and [Emplace] does not
    proceed as described; it constructs the element in the end slot. *)
Lemma Emplace_at_end_not_as_described :
  ¬ (∀ (v : Vector (T:=Z)) (pos : nat) (args : ctor_args Z),
       wf v → size_ v < Capacity v → pos ≤ size_ v →
       Emplace v pos args = Emplace_as_described v pos args).
Proof.
  intros Hclaim.
  specialize (Hclaim (vector_of [] 1) 0 (@Pack Z int_element 7%Z)).
  assert (Emplace (vector_of [] 1) 0 (@Pack Z int_element 7%Z) = Ret (vector_of [7%Z] 1))
    as Hcode by reflexivity.
  assert (Emplace_as_described (vector_of [] 1) 0 (@Pack Z int_element 7%Z) = Fault)
    as Hdescribed by reflexivity.
  rewrite Hcode, Hdescribed in Hclaim.
  discriminate Hclaim.
  - apply wf_check_sound. reflexivity.
  - unfold Capacity. simpl. lia.
  - simpl. lia.
Qed.

Lemma Emplace_in_place_witness :
  wf (vector_of [1; 2; 3]%Z 4)
  ∧ size_ (vector_of [1; 2; 3]%Z 4) < Capacity (vector_of [1; 2; 3]%Z 4)
  ∧ 1 ≤ size_ (vector_of [1; 2; 3]%Z 4)
  ∧ Emplace (vector_of [1; 2; 3]%Z 4) 1 (@Pack Z int_element 9%Z)
    = Ret (vector_of [1; 9; 2; 3]%Z 4)
  ∧ ∃ t, construct_from (@Pack Z int_element 9%Z) = Some t
         ∧ elements (vector_of [1; 9; 2; 3]%Z 4)
           = take 1 (elements (vector_of [1; 2; 3]%Z 4))
             ++ t :: drop 1 (elements (vector_of [1; 2; 3]%Z 4))
         ∧ size_ (vector_of [1; 9; 2; 3]%Z 4) = S (size_ (vector_of [1; 2; 3]%Z 4))
         ∧ Capacity (vector_of [1; 9; 2; 3]%Z 4) = Capacity (vector_of [1; 2; 3]%Z 4).
Proof.
  assert (wf (vector_of [1; 2; 3]%Z 4)) as Hwf.
  { apply wf_check_sound. reflexivity. }
  split; [exact Hwf|]. split; [unfold Capacity; simpl; lia|]. split; [simpl; lia|].
  split; [reflexivity|].
  destruct (Emplace_in_place (T:=Z) (vector_of [1; 2; 3]%Z 4) 1 (@Pack Z int_element 9%Z))
    as (_ & _ & Hret & _); [exact Hwf|unfold Capacity; simpl; lia|simpl; lia|].
  apply Hret. reflexivity.
Defined.

Lemma Erase_removes_element_witness :
  wf (vector_of [1; 9; 2; 3]%Z 4)
  ∧ 0 < size_ (vector_of [1; 9; 2; 3]%Z 4)
  ∧ Erase (vector_of [1; 9; 2; 3]%Z 4) 0 = Ret (vector_of [9; 2; 3]%Z 4)
  ∧ elements (vector_of [9; 2; 3]%Z 4)
    = take 0 (elements (vector_of [1; 9; 2; 3]%Z 4))
      ++ drop 1 (elements (vector_of [1; 9; 2; 3]%Z 4))
  ∧ size_ (vector_of [9; 2; 3]%Z 4) = size_ (vector_of [1; 9; 2; 3]%Z 4) - 1
  ∧ Capacity (vector_of [9; 2; 3]%Z 4) = Capacity (vector_of [1; 9; 2; 3]%Z 4)
  ∧ wf (vector_of [9; 2; 3]%Z 4).
Proof.
  assert (wf (vector_of [1; 9; 2; 3]%Z 4)) as Hwf.
  { apply wf_check_sound. reflexivity. }
  split; [exact Hwf|]. split; [simpl; lia|]. split; [reflexivity|].
  destruct (Erase_removes_element (T:=Z) (vector_of [1; 9; 2; 3]%Z 4) 0)
    as (_ & Hret & _); [exact Hwf|simpl; lia|].
  apply Hret. reflexivity.
Defined.


(** C8 fails on the code.  A vector of [fragile] elements 1, 13, 3 with
    capacity 4 is reached from the empty vector by three appends.
    [Emplace] at [begin()] then moves the last element into slot 3 and
    starts the shift; the move assignment from the element 13 throws and
    the call leaves with [size_] still 3, although slot 3 holds a live
    object that is never destroyed: the slots below [size_] are no
    longer exactly the live ones. *)
Theorem failed_shift_leaves_live_slot_beyond_size :
  and_then (and_then
    (EmplaceBack Vector_default (@Pack fragile fragile_element 1))
    (λ v, EmplaceBack v (@Pack fragile fragile_element 13)))
    (λ v, EmplaceBack v (@Pack fragile fragile_element 3))
  = Ret (vector_of [Fragile 1; Fragile 13; Fragile 3] 4)
  ∧ wf (vector_of [Fragile 1; Fragile 13; Fragile 3] 4)
  ∧ ∃ v', Emplace (vector_of [Fragile 1; Fragile 13; Fragile 3] 4) 0
                  (@Pack fragile fragile_element 9)
          = Exn element_exn v'
          ∧ size_ v' = 3 ∧ Capacity v' = 4
          ∧ buffer_ (data_ v') !! 3 = Some (Some (Fragile 3))
          ∧ ¬ wf v'.
Proof.
  split; [reflexivity|]. split; [apply wf_check_sound; reflexivity|].
  eexists. split; [reflexivity|]. split_and!; [reflexivity..|].
  intros Hwf. pose proof (wf_free _ 3 Hwf) as Hfree.
  unfold Capacity in Hfree. simpl in Hfree. specialize (Hfree ltac:(lia)).
  discriminate Hfree.
Qed.

(** ** The further properties at concrete vectors *)

Lemma copy_construction_witness :
  wf (vector_of [1; 2]%Z 4)
  ∧ Vector_copy (vector_of [1; 2]%Z 4) = Ret (vector_of [1; 2]%Z 2)
  ∧ wf (vector_of [1; 2]%Z 2)
  ∧ elements (vector_of [1; 2]%Z 2) = elements (vector_of [1; 2]%Z 4)
  ∧ Size (vector_of [1; 2]%Z 2) = Size (vector_of [1; 2]%Z 4)
  ∧ Capacity (vector_of [1; 2]%Z 2) = Size (vector_of [1; 2]%Z 4).
Proof.
  assert (wf (vector_of [1; 2]%Z 4)) as Hwf.
  { apply wf_check_sound. reflexivity. }
  split; [exact Hwf|]. split; [reflexivity|].
  destruct (copy_construction (T:=Z) (vector_of [1; 2]%Z 4) Hwf) as (Hret & _).
  apply Hret. reflexivity.
Defined.

Lemma Resize_behaviour_witness :
  wf (vector_of [1; 2; 3]%Z 4)
  ∧ 1 < size_ (vector_of [1; 2; 3]%Z 4)
  ∧ ∃ v', Resize (vector_of [1; 2; 3]%Z 4) 1 = Ret v' ∧ wf v'
          ∧ elements v' = take 1 (elements (vector_of [1; 2; 3]%Z 4))
          ∧ Capacity v' = Capacity (vector_of [1; 2; 3]%Z 4).
Proof.
  assert (wf (vector_of [1; 2; 3]%Z 4)) as Hwf.
  { apply wf_check_sound. reflexivity. }
  split; [exact Hwf|]. split; [simpl; lia|].
  destruct (Resize_behaviour (T:=Z) (vector_of [1; 2; 3]%Z 4) 1 Hwf) as (Hshrink & _).
  apply Hshrink. simpl. lia.
Defined.

Lemma Resize_exception_keeps_elements_witness :
  wf (vector_of [1; 2]%Z 2)
  ∧ Resize (alloc:=exhausted) (vector_of [1; 2]%Z 2) 5
    = Exn bad_alloc (vector_of [1; 2]%Z 2)
  ∧ (representable (T:=Z) 5 → wf (vector_of [1; 2]%Z 2))
  ∧ size_ (vector_of [1; 2]%Z 2) = size_ (vector_of [1; 2]%Z 2)
  ∧ (is_copy_constructible (T:=Z) = true ∨ is_nothrow_move_constructible (T:=Z) = true →
     elements (vector_of [1; 2]%Z 2) = elements (vector_of [1; 2]%Z 2)).
Proof.
  assert (wf (vector_of [1; 2]%Z 2)) as Hwf.
  { apply wf_check_sound. reflexivity. }
  split; [exact Hwf|]. split; [reflexivity|].
  apply (Resize_exception_keeps_elements (T:=Z) (alloc:=exhausted)
           (vector_of [1; 2]%Z 2) 5 bad_alloc (vector_of [1; 2]%Z 2) Hwf).
  reflexivity.
Defined.


Lemma Insert_inserts_value_witness :
  wf (vector_of [1; 2; 3]%Z 4)
  ∧ 1 ≤ size_ (vector_of [1; 2; 3]%Z 4)
  ∧ Insert (vector_of [1; 2; 3]%Z 4) 1 9%Z = Ret (vector_of [1; 9; 2; 3]%Z 4)
  ∧ elements (vector_of [1; 9; 2; 3]%Z 4)
    = take 1 (elements (vector_of [1; 2; 3]%Z 4))
      ++ 9%Z :: drop 1 (elements (vector_of [1; 2; 3]%Z 4))
  ∧ Size (vector_of [1; 9; 2; 3]%Z 4) = S (Size (vector_of [1; 2; 3]%Z 4))
  ∧ wf (vector_of [1; 9; 2; 3]%Z 4).
Proof.
  assert (wf (vector_of [1; 2; 3]%Z 4)) as Hwf.
  { apply wf_check_sound. reflexivity. }
  split; [exact Hwf|]. split; [simpl; lia|]. split; [reflexivity|].
  destruct (Insert_inserts_value (T:=Z) (vector_of [1; 2; 3]%Z 4) 1 9%Z Hwf) as (Hin & _).
  destruct (Hin ltac:(simpl; lia)) as (Hret & _).
  apply Hret. reflexivity.
Defined.

Lemma PopBack_removes_last_witness :
  wf (vector_of [1; 2]%Z 2)
  ∧ size_ (vector_of [1; 2]%Z 2) ≠ 0
  ∧ ∃ v', PopBack (vector_of [1; 2]%Z 2) = Ret v' ∧ wf v'
          ∧ elements v' = take (size_ (vector_of [1; 2]%Z 2) - 1)
                               (elements (vector_of [1; 2]%Z 2))
          ∧ Size v' = Size (vector_of [1; 2]%Z 2) - 1
          ∧ Capacity v' = Capacity (vector_of [1; 2]%Z 2).
Proof.
  assert (wf (vector_of [1; 2]%Z 2)) as Hwf.
  { apply wf_check_sound. reflexivity. }
  split; [exact Hwf|]. split; [simpl; lia|].
  destruct (PopBack_removes_last (T:=Z) (vector_of [1; 2]%Z 2) Hwf) as (_ & Hpop & _).
  apply Hpop. simpl. lia.
Defined.

Lemma indexing_reads_elements_witness :
  wf (vector_of [1; 2; 3]%Z 4)
  ∧ at_index (vector_of [1; 2; 3]%Z 4) 1 = elements (vector_of [1; 2; 3]%Z 4) !! 1
  ∧ at_index (vector_of [1; 2; 3]%Z 4) 1 = Some 2%Z.
Proof.
  assert (wf (vector_of [1; 2; 3]%Z 4)) as Hwf.
  { apply wf_check_sound. reflexivity. }
  split; [exact Hwf|]. split; [|reflexivity].
  destruct (indexing_reads_elements (T:=Z) (vector_of [1; 2; 3]%Z 4) 1 Hwf) as (Hat & _).
  exact Hat.
Defined.


Lemma Emplace_full_strong_guarantee_witness :
  wf (vector_of [Fragile 1; Fragile 2] 2)
  ∧ size_ (vector_of [Fragile 1; Fragile 2] 2) = Capacity (vector_of [Fragile 1; Fragile 2] 2)
  ∧ 1 ≤ size_ (vector_of [Fragile 1; Fragile 2] 2)
  ∧ Emplace (vector_of [Fragile 1; Fragile 2] 2) 1 (@Pack fragile fragile_element 0)
    = Exn element_exn (vector_of [Fragile 1; Fragile 2] 2)
  ∧ wf (vector_of [Fragile 1; Fragile 2] 2).
Proof.
  assert (wf (vector_of [Fragile 1; Fragile 2] 2)) as Hwf.
  { apply wf_check_sound. reflexivity. }
  split; [exact Hwf|]. split; [reflexivity|]. split; [simpl; lia|].
  split; [reflexivity|].
  destruct (Emplace_full_strong_guarantee (T:=fragile)
              (vector_of [Fragile 1; Fragile 2] 2) 1 (@Pack fragile fragile_element 0)
              element_exn (vector_of [Fragile 1; Fragile 2] 2) Hwf)
    as (_ & _ & _ & Hwf'); [reflexivity|simpl; lia|reflexivity|].
  exact Hwf'.
Defined.

Lemma PushBack_all_within_capacity_witness :
  wf (vector_of [1]%Z 4)
  ∧ size_ (vector_of [1]%Z 4) + length [2; 3]%Z ≤ Capacity (vector_of [1]%Z 4)
  ∧ ∃ v', PushBack_all (alloc:=exhausted) (vector_of [1]%Z 4) [2; 3]%Z = Ret v' ∧ wf v'
          ∧ elements v' = elements (vector_of [1]%Z 4) ++ [2; 3]%Z
          ∧ Capacity v' = Capacity (vector_of [1]%Z 4)
          ∧ Size v' = Size (vector_of [1]%Z 4) + length [2; 3]%Z.
Proof.
  assert (wf (vector_of [1]%Z 4)) as Hwf.
  { apply wf_check_sound. reflexivity. }
  split; [exact Hwf|]. split; [unfold Capacity; simpl; lia|].
  apply (PushBack_all_within_capacity (T:=Z) (alloc:=exhausted) [2; 3]%Z
           (vector_of [1]%Z 4) Hwf).
  unfold Capacity. simpl. lia.
Defined.

Lemma PushBack_all_from_empty_witness :
  (∀ n, addressable (T:=Z) n → can_allocate (T:=Z) (alloc:=unlimited) n = true)
  ∧ addressable (T:=Z) (2 * length [1; 2; 3]%Z)
  ∧ ∃ v', PushBack_all Vector_default [1; 2; 3]%Z = Ret v' ∧ wf v'
          ∧ elements v' = [1; 2; 3]%Z
          ∧ ([1; 2; 3]%Z = [] → Capacity v' = 0)
          ∧ ([1; 2; 3]%Z ≠ [] →
             ∃ k, Capacity v' = 2 ^ k
                  ∧ length [1; 2; 3]%Z ≤ Capacity v' < 2 * length [1; 2; 3]%Z).
Proof.
  split; [apply unlimited_can_allocate|]. split; [apply N.leb_le; reflexivity|].
  apply (PushBack_all_from_empty (T:=Z) [1; 2; 3]%Z).
  - apply unlimited_can_allocate.
  - apply N.leb_le. reflexivity.
Defined.

Lemma destructor_destroys_every_element_witness :
  wf (vector_of [1; 2]%Z 3)
  ∧ Vector_destroy (vector_of [1; 2]%Z 3)
    = replicate (Capacity (vector_of [1; 2]%Z 3)) None.
Proof.
  assert (wf (vector_of [1; 2]%Z 3)) as Hwf.
  { apply wf_check_sound. reflexivity. }
  split; [exact Hwf|].
  apply (destructor_destroys_every_element (T:=Z) (vector_of [1; 2]%Z 3) Hwf).
Defined.

Lemma Swap_exchanges_witness :
  ({[0 := vector_of [5]%Z 1; 1 := vector_of [1; 2]%Z 2]} : gmap nat (Vector (T:=Z))) !! 0
    = Some (vector_of [5]%Z 1)
  ∧ ({[0 := vector_of [5]%Z 1; 1 := vector_of [1; 2]%Z 2]} : gmap nat (Vector (T:=Z))) !! 1
    = Some (vector_of [1; 2]%Z 2)
  ∧ 0 ≠ 1
  ∧ ∃ h', Swap_at ({[0 := vector_of [5]%Z 1; 1 := vector_of [1; 2]%Z 2]}
                     : gmap nat (Vector (T:=Z))) 0 1 = Ret h'
          ∧ h' !! 0 = Some (vector_of [1; 2]%Z 2)
          ∧ h' !! 1 = Some (vector_of [5]%Z 1)
          ∧ (∀ k, k ≠ 0 → k ≠ 1 →
               h' !! k = ({[0 := vector_of [5]%Z 1; 1 := vector_of [1; 2]%Z 2]}
                            : gmap nat (Vector (T:=Z))) !! k)
          ∧ Swap_at h' 0 1 = Ret {[0 := vector_of [5]%Z 1; 1 := vector_of [1; 2]%Z 2]}.
Proof.
  split; [reflexivity|]. split; [reflexivity|]. split; [lia|].
  destruct (Swap_exchanges (T:=Z) {[0 := vector_of [5]%Z 1; 1 := vector_of [1; 2]%Z 2]}
              0 1 (vector_of [5]%Z 1) (vector_of [1; 2]%Z 2))
    as (Hswap & _); [reflexivity|reflexivity|].
  apply Hswap. lia.
Defined.

Lemma basic_guarantee_witness :
  wf (vector_of [Fragile 1; Fragile 13; Fragile 3] 4)
  ∧ Emplace (vector_of [Fragile 1; Fragile 13; Fragile 3] 4) 0
            (@Pack fragile fragile_element 9)
    = Exn element_exn
        (mkVector (mkRawMemory
           [Some (Fragile 1); Some (Fragile 13); Some (Fragile 0); Some (Fragile 3)] 4) 3)
  ∧ counted_live
      (mkVector (mkRawMemory
         [Some (Fragile 1); Some (Fragile 13); Some (Fragile 0); Some (Fragile 3)] 4) 3).
Proof.
  assert (wf (vector_of [Fragile 1; Fragile 13; Fragile 3] 4)) as Hwf.
  { apply wf_check_sound. reflexivity. }
  split; [exact Hwf|]. split; [reflexivity|].
  destruct (basic_guarantee (T:=fragile)
              (vector_of [Fragile 1; Fragile 13; Fragile 3] 4) element_exn
              (mkVector (mkRawMemory
                 [Some (Fragile 1); Some (Fragile 13); Some (Fragile 0); Some (Fragile 3)] 4) 3)
              Hwf)
    as (_ & _ & _ & _ & Hemplace).
  destruct (Hemplace 0 (@Pack fragile fragile_element 9)) as [Hlive _]; [reflexivity|].
  exact Hlive.
Defined.

Lemma invariant_on_return_witness :
  wf (vector_of [1; 2]%Z 2)
  ∧ representable (T:=Z) 5
  ∧ Reserve (vector_of [1; 2]%Z 2) 5 = Ret (vector_of [1; 2]%Z 5)
  ∧ wf (vector_of [1; 2]%Z 5).
Proof.
  assert (wf (vector_of [1; 2]%Z 2)) as Hwf.
  { apply wf_check_sound. reflexivity. }
  assert (representable (T:=Z) 5) as Hrep.
  { apply N.leb_le. reflexivity. }
  split; [exact Hwf|]. split; [exact Hrep|]. split; [reflexivity|].
  destruct (invariant_on_return (T:=Z) (vector_of [1; 2]%Z 2) (vector_of [1; 2]%Z 5) Hwf)
    as (Hreserve & _).
  apply (Hreserve 5); [exact Hrep|reflexivity].
Defined.

Lemma RawMemory_ownership_witness :
  RawMemory_new (T:=Z) 3 = Some (mkRawMemory [None; None; None] 3)
  ∧ capacity_ (mkRawMemory (T:=Z) [None; None; None] 3) = 3
  ∧ (length (buffer_ (mkRawMemory (T:=Z) [None; None; None] 3)) = 3
     ↔ representable (T:=Z) 3).
Proof.
  split; [reflexivity|].
  destruct (RawMemory_ownership (T:=Z) 3 (mkRawMemory [None; None; None] 3))
    as (Hcap & _ & _ & Hwhole & _); [reflexivity|].
  split; [exact Hcap|exact Hwhole].
Defined.

Lemma EmplaceBack_strong_guarantee_witness :
  wf (vector_of [Fragile 1; Fragile 2] 2)
  ∧ EmplaceBack (vector_of [Fragile 1; Fragile 2] 2) (@Pack fragile fragile_element 0)
    = Exn element_exn (vector_of [Fragile 1; Fragile 2] 2)
  ∧ (is_copy_constructible (T:=fragile) = true
     ∨ is_nothrow_move_constructible (T:=fragile) = true)
  ∧ vector_of [Fragile 1; Fragile 2] 2 = vector_of [Fragile 1; Fragile 2] 2.
Proof.
  assert (wf (vector_of [Fragile 1; Fragile 2] 2)) as Hwf.
  { apply wf_check_sound. reflexivity. }
  split; [exact Hwf|]. split; [reflexivity|]. split; [left; reflexivity|].
  apply (EmplaceBack_strong_guarantee (T:=fragile)
           (vector_of [Fragile 1; Fragile 2] 2) (@Pack fragile fragile_element 0)
           element_exn (vector_of [Fragile 1; Fragile 2] 2) Hwf);
    [reflexivity|left; reflexivity].
Defined.
